(** * tk-substancepainter: texture-sequence grouper and menu builder

    A shallow embedding of these pieces of the engine:

    - [_group_texture_sequences] of
      [hooks/tk-multi-publish2/basic/publish_texture_set.py], which groups
      exported texture paths by a key derived with
      [re.sub(r"\.\d+(\.\w+)$", r".<UDIM>\1", filename)];
    - [MenuGenerator] and [AppCommand] of
      [python/tk_substancepainter/menu_generation.py], which build the
      ShotGrid menu from the commands registered with the engine;
    - of the same publish hook, the choice of the export preset in
      [accept] and [validate], the check of the output map names against
      [TEXTURE_ABSTRACT_PATH_REGEX], and the fields that [publish] reads
      from a file name with [TEXTURE_FILENAME_REGEX];
    - the two path conversions of [python/tk_substancepainter/utils.py];
    - [_run_app_instance_commands] of [engine.py].

    Python [str] values are modelled as [string]: sequences of characters
    with codes below 256, compared by code.  Python dictionaries are
    association lists in insertion order.  The Qt menu is a tree of
    actions, in which a [QMenu] reference is the path of indices that
    leads to it from the root menu.  The methods of the menu builder are
    computations on that tree that end by returning or by raising; the
    tree is kept as a call leaves it in both cases. *)

From Stdlib Require Import Ascii String.
From stdpp Require Import base list strings sorting.

Open Scope string_scope.
Open Scope list_scope.

(** ** Strings as character lists *)

Definition chars (s : string) : list ascii := list_ascii_of_string s.
Definition str (l : list ascii) : string := string_of_list_ascii l.

Definition dot : ascii := "."%char.
Definition newline : ascii := "010"%char.
Definition slash : ascii := "/"%char.

(** ** The fragment of Python's [re] used by the grouper *)

Module Re.

(** The constructs that occur in [\.\d+(\.\w+)$]: an escaped literal, a
    greedy [+] over a character class, concatenation, a capturing group
    and the end anchor. *)
Inductive regex : Type :=
| Lit (c : ascii)
| Plus (cls : ascii → bool)
| Cat (r1 r2 : regex)
| Group (r : regex)
| Eos.

(** [\d] and [\w] on the code points below 256: the decimal digits are
    [0-9]; the word characters are the underscore and the alphanumeric
    ones, [0-9A-Za-z] and, in the upper half, the letters and the numeric
    signs of Latin-1. *)
Definition is_digit (c : ascii) : bool :=
  let n := nat_of_ascii c in (48 <=? n)%nat && (n <=? 57)%nat.

Definition is_latin1_alnum (n : nat) : bool :=
  (n =? 170)%nat || (n =? 178)%nat || (n =? 179)%nat || (n =? 181)%nat
  || (n =? 185)%nat || (n =? 186)%nat
  || ((188 <=? n)%nat && (n <=? 190)%nat)
  || ((192 <=? n)%nat && (n <=? 214)%nat)
  || ((216 <=? n)%nat && (n <=? 246)%nat)
  || ((248 <=? n)%nat && (n <=? 255)%nat).

Definition is_word (c : ascii) : bool :=
  let n := nat_of_ascii c in
  is_digit c
  || ((65 <=? n)%nat && (n <=? 90)%nat)
  || ((97 <=? n)%nat && (n <=? 122)%nat)
  || (n =? 95)%nat
  || is_latin1_alnum n.

(** A backtracking matcher in continuation-passing style.  The
    continuation receives the unread input and the text captured by
    group 1 so far; [None] makes the matcher backtrack. *)
Definition cont (R : Type) : Type := list ascii → option (list ascii) → option R.

(** Zero or more characters of the class, longest run first. *)
Fixpoint star {R} (cls : ascii → bool) (s : list ascii)
    (g : option (list ascii)) (k : cont R) : option R :=
  match s with
  | c :: s' =>
      if cls c then
        match star cls s' g k with
        | Some r => Some r
        | None => k s g
        end
      else k s g
  | [] => k s g
  end.

Fixpoint rmatch {R} (r : regex) (s : list ascii)
    (g : option (list ascii)) (k : cont R) : option R :=
  match r with
  | Lit c =>
      match s with
      | c' :: s' => if decide (c' = c) then k s' g else None
      | [] => None
      end
  | Plus cls =>
      match s with
      | c :: s' => if cls c then star cls s' g k else None
      | [] => None
      end
  | Cat r1 r2 => rmatch r1 s g (λ s1 g1, rmatch r2 s1 g1 k)
  | Group r1 =>
      rmatch r1 s g (λ s1 _, k s1 (Some (take (length s - length s1) s)))
  | Eos =>
      (* without re.MULTILINE, [$] matches at the end of the string and
         just before a newline that ends the string *)
      match s with
      | [] => k s g
      | [c] => if decide (c = newline) then k s g else None
      | _ => None
      end
  end.

(** What [star] leaves unread when no backtracking is needed: the input
    after its longest run of class characters. *)
Fixpoint skip_class (cls : ascii → bool) (s : list ascii) : list ascii :=
  match s with
  | c :: s' => if cls c then skip_class cls s' else s
  | [] => []
  end.

(** The end anchor, as a test on the unread input. *)
Definition at_end (s : list ascii) : bool :=
  bool_decide (s = [] ∨ s = [newline]).

(** [re.match] at the head of [s]: the unread input and group 1. *)
Definition match_here (r : regex) (s : list ascii)
    : option (list ascii * option (list ascii)) :=
  rmatch r s None (λ rest g, Some (rest, g)).

(** [re.sub(r, tmpl ++ "\1", s)]: scan left to right, replace every
    non-overlapping match by the template followed by group 1, copy the
    other characters.  [skip] counts the characters of the last match
    that are still to be passed over. *)
Fixpoint sub_from (r : regex) (tmpl : list ascii) (skip : nat)
    (s : list ascii) {struct s} : list ascii :=
  match skip, s with
  | S n, _ :: s' => sub_from r tmpl n s'
  | S _, [] => []
  | O, _ =>
      match match_here r s with
      | Some (rest, g) =>
          (tmpl ++ default [] g) ++
          match s with
          | [] => []
          | c :: s' =>
              match length s - length rest with
              | O => c :: sub_from r tmpl 0 s'
              | S m => sub_from r tmpl m s'
              end
          end
      | None =>
          match s with
          | [] => []
          | c :: s' => c :: sub_from r tmpl 0 s'
          end
      end
  end.

Definition sub (r : regex) (tmpl : list ascii) (s : list ascii) : list ascii :=
  sub_from r tmpl 0 s.

End Re.

(** ** The texture-sequence grouper *)

(** [r"\.\d+(\.\w+)$"] *)
Definition udim_pattern : Re.regex :=
  Re.Cat (Re.Lit dot)
    (Re.Cat (Re.Plus Re.is_digit)
       (Re.Cat (Re.Group (Re.Cat (Re.Lit dot) (Re.Plus Re.is_word))) Re.Eos)).

(** The part of the replacement [r".<UDIM>\1"] before the group
    reference. *)
Definition udim_template : list ascii := chars ".<UDIM>".

(** [re.sub(r"\.\d+(\.\w+)$", r".<UDIM>\1", filename)] *)
Definition udim_sub (filename : string) : string :=
  str (Re.sub udim_pattern udim_template (chars filename)).

(** [groups.setdefault(key, []).append(x)] on a dictionary kept as an
    association list in insertion order. *)
Fixpoint setdefault_append {K V} `{EqDecision K}
    (key : K) (x : V) (groups : list (K * list V)) : list (K * list V) :=
  match groups with
  | [] => [(key, [x])]
  | (k, xs) :: groups' =>
      if decide (k = key) then (k, xs ++ [x]) :: groups'
      else (k, xs) :: setdefault_append key x groups'
  end.

(** The dictionary left by a loop that files every element under its
    key. *)
Definition group_dict {K V} `{EqDecision K} (key : V → K) (xs : list V)
    : list (K * list V) :=
  fold_left (λ groups x, setdefault_append (key x) x groups) xs [].

Section Grouper.

(** [os.path.basename] is the platform's: [posixpath] or [ntpath]. *)
Variable basename : string → string.

Definition udim_key (path : string) : string :=
  let filename := basename path in
  udim_sub filename.

(** The dictionary [groups] after the loop over [paths]. *)
Definition texture_groups (paths : list string) : list (string * list string) :=
  fold_left (λ groups path, setdefault_append (udim_key path) path groups)
    paths [].

Definition _group_texture_sequences (paths : list string) : list (list string) :=
  (texture_groups paths).*2.

End Grouper.

(** [posixpath.basename]: the text after the last slash. *)
Fixpoint split_on (sep : ascii) (s : string) : list string :=
  match s with
  | EmptyString => [""]
  | String c s' =>
      if decide (c = sep) then "" :: split_on sep s'
      else
        match split_on sep s' with
        | p :: ps => String c p :: ps
        | [] => [String c ""]
        end
  end.

Definition posixpath_basename (p : string) : string :=
  List.last (split_on slash p) "".

(** ** The grouper as the specification words it *)

Module TileSpec.

(** A file name has a tile suffix when it reads: some text, a dot, one or
    more digits, a dot, an extension of one or more word characters, and
    then the end of the name (Python's [$]: possibly one final
    newline). *)
Definition tile_form (name pre ds ext nl : list ascii) : Prop :=
  name = pre ++ dot :: ds ++ dot :: ext ++ nl
  ∧ ds ≠ [] ∧ forallb Re.is_digit ds = true
  ∧ ext ≠ [] ∧ forallb Re.is_word ext = true
  ∧ (nl = [] ∨ nl = [newline]).

(** The text before and after the last dot. *)
Fixpoint split_last_dot (s : list ascii) : option (list ascii * list ascii) :=
  match s with
  | [] => None
  | c :: s' =>
      match split_last_dot s' with
      | Some (a, b) => Some (c :: a, b)
      | None => if decide (c = dot) then Some ([], s') else None
      end
  end.

(** The name without its final newline, and that newline. *)
Fixpoint strip_newline (s : list ascii) : list ascii * list ascii :=
  match s with
  | [] => ([], [])
  | c :: s' =>
      match s' with
      | [] => if decide (c = newline) then ([], [newline]) else ([c], [])
      | _ :: _ => let '(body, nl) := strip_newline s' in (c :: body, nl)
      end
  end.

Definition nonempty {A} (l : list A) : bool :=
  match l with [] => false | _ :: _ => true end.

(** The prefix, the extension and the final newline of a name with a
    tile suffix: the extension is what follows the last dot, the tile
    index what lies between the last two dots. *)
Definition tile_parts (name : list ascii)
    : option (list ascii * list ascii * list ascii) :=
  let '(body, nl) := strip_newline name in
  match split_last_dot body with
  | Some (stem, ext) =>
      match split_last_dot stem with
      | Some (pre, ds) =>
          if nonempty ds && forallb Re.is_digit ds
             && nonempty ext && forallb Re.is_word ext
          then Some (pre, ext, nl)
          else None
      | None => None
      end
  | None => None
  end.

Definition has_tile_suffix (filename : string) : bool :=
  bool_decide (is_Some (tile_parts (chars filename))).

(** The group key: the tile index replaced by the placeholder. *)
Definition key_of (filename : string) : string :=
  match tile_parts (chars filename) with
  | Some (pre, ext, nl) => str (pre ++ chars ".<UDIM>." ++ ext ++ nl)
  | None => filename
  end.

(** The distinct elements of a list, in the order of their first
    occurrence. *)
Fixpoint first_seen {K} `{EqDecision K} (ks : list K) : list K :=
  match ks with
  | [] => []
  | k :: ks' => k :: filter (λ k', k' ≠ k) (first_seen ks')
  end.

(** One group per distinct key, in first-seen key order; the members of a
    group are the paths with that key, in input order. *)
Definition keyed_groups {K V} `{EqDecision K} (key : V → K)
    (xs : list V) : list (K * list V) :=
  (λ k, (k, filter (λ x, key x = k) xs)) <$> first_seen (key <$> xs).

Definition groups_by_key {K V} `{EqDecision K} (key : V → K)
    (xs : list V) : list (list V) :=
  (keyed_groups key xs).*2.

(** The number of dots of a name. *)
Definition count_dots (s : list ascii) : nat :=
  length (filter (λ c, c = dot) s).

End TileSpec.

(** ** Sorting as Python's [list.sort] and [sorted] do on string keys *)

(** Python's sort is stable and compares [str] keys by code point; so is
    this insertion sort, and a stable sort has only one possible result. *)
Fixpoint insert_by {A} (key : A → string) (x : A) (l : list A) : list A :=
  match l with
  | [] => [x]
  | y :: l' =>
      if String.leb (key x) (key y) then x :: l else y :: insert_by key x l'
  end.

Definition sort_by {A} (key : A → string) (l : list A) : list A :=
  foldr (insert_by key) [] l.

(** The order of a sorted list: by key, lexicographically on codes. *)
Definition key_le {A} (key : A → string) (a b : A) : Prop :=
  String.le (key a) (key b).

(** [d[k]] on a dictionary kept as an association list. *)
Fixpoint dict_get {K V} `{EqDecision K} (k : K) (d : list (K * V)) : option V :=
  match d with
  | [] => None
  | (k', v) :: d' => if decide (k' = k) then Some v else dict_get k d'
  end.

(** ** The engine's commands *)

(** Callbacks are opaque: only their identity is kept. *)
Inductive Callback : Type :=
| jump_to_sg
| jump_to_fs
| engine_callback (id : nat).

Global Instance Callback_eq_dec : EqDecision Callback.
Proof. solve_decision. Defined.

(** A Toolkit app as the menu code reads it: the object itself (its
    identity), [app.display_name], and [app.engine.apps], the engine's
    mapping of instance names to app objects. *)
Record App : Type := {
  app_object : nat;
  display_name : string;
  engine_apps : list (string * nat)
}.

(** The keys of a command's [properties] that the menu code reads;
    [enable_callback] is recorded by the value the callable returns. *)
Record Properties : Type := {
  prop_app : option App;
  prop_type : option string;
  prop_tooltip : option string;
  prop_enable_callback : option bool
}.

(** A value of [engine.commands]. *)
Record CommandDict : Type := {
  cd_callback : Callback;
  cd_properties : Properties
}.

(** An entry of the [menu_favourites] setting. *)
Record Favourite : Type := {
  fav_app_instance : string;
  fav_name : string
}.

(** [engine.context]: [str(ctx)] and [ctx.filesystem_locations]. *)
Record Context : Type := {
  ctx_name : string;
  filesystem_locations : list string
}.

Record Engine : Type := {
  commands : list (string * CommandDict);
  menu_favourites : list Favourite;
  context : Context
}.

(** ** [class AppCommand] *)

Record AppCommand : Type := {
  name : string;
  properties : Properties;
  callback : Callback;
  favourite : bool
}.

(** [AppCommand.__init__] *)
Definition new_AppCommand (cmd_name : string) (command_dict : CommandDict)
    : AppCommand :=
  {| name := cmd_name;
     properties := cd_properties command_dict;
     callback := cd_callback command_dict;
     favourite := false |}.

(** [cmd.favourite = True] *)
Definition set_favourite (cmd : AppCommand) : AppCommand :=
  {| name := name cmd;
     properties := properties cmd;
     callback := callback cmd;
     favourite := true |}.

Definition get_app_name (cmd : AppCommand) : option string :=
  display_name <$> prop_app (properties cmd).

Definition get_app_instance_name (cmd : AppCommand) : option string :=
  match prop_app (properties cmd) with
  | None => None
  | Some app_instance =>
      fst <$> List.find
                (λ '(_, app_instance_obj),
                   bool_decide (app_instance_obj = app_object app_instance))
                (engine_apps app_instance)
  end.

Definition get_type (cmd : AppCommand) : string :=
  default "default" (prop_type (properties cmd)).

(** ** The Qt menu *)

(** A [QAction] of a menu: a plain action with its text, the slot connected
    to [triggered], its tooltip, [None] while none is set, and its enabled
    state; a separator, whose
    text is empty; or the action of a sub-menu, whose text is the
    sub-menu's title and which carries the sub-menu's own actions. *)
#[warnings="-register-all"] Inductive QAction : Type :=
| Action (text : string) (triggered : Callback)
         (tooltip : option string) (enabled : bool)
| Separator
| MenuAction (title : string) (actions : list QAction).

(** [action.text()] *)
Definition action_text (a : QAction) : string :=
  match a with
  | Action text _ _ _ => text
  | Separator => ""
  | MenuAction title _ => title
  end.

(** A [QMenu] is known by the indices that lead to it from the ShotGrid
    menu; the ShotGrid menu itself is [[]]. *)
Abbreviation QMenu := (list nat).

(** [menu.actions()] *)
Fixpoint menu_actions (menu : QMenu) (root : list QAction)
    : option (list QAction) :=
  match menu with
  | [] => Some root
  | i :: menu' =>
      match root !! i with
      | Some (MenuAction _ acts) => menu_actions menu' acts
      | _ => None
      end
  end.

(** [menu.addAction(a)]: [a] becomes the last action of [menu]. *)
Fixpoint addAction (menu : QMenu) (a : QAction) (root : list QAction)
    : list QAction :=
  match menu with
  | [] => root ++ [a]
  | i :: menu' =>
      alter (λ x, match x with
                  | MenuAction title acts =>
                      MenuAction title (addAction menu' a acts)
                  | _ => x
                  end) i root
  end.

(** ** Calls that may raise *)

Inductive Exception : Type := AttributeError.

(** How a call ends. *)
Inductive Outcome (A : Type) : Type :=
| Returned (a : A)
| Raised (e : Exception).

Global Arguments Returned {A} a.
Global Arguments Raised {A} e.

(** A method of the menu builder takes the tree under
    [self._shotgrid_menu] and gives the tree as the call leaves it, also
    when it raises, and how it ends. *)
Definition Build (A : Type) : Type := list QAction → list QAction * Outcome A.

Global Instance Build_ret : MRet Build := λ A a root, (root, Returned a).

Global Instance Build_bind : MBind Build := λ A B f m root,
  match m root with
  | (root', Returned a) => f a root'
  | (root', Raised e) => (root', Raised e)
  end.

(** [for x in l: body(x)], and a loop that updates a local variable. *)
Fixpoint for_each {A} (body : A → Build ()) (l : list A) : Build () :=
  match l with
  | [] => mret ()
  | x :: l' => body x;; for_each body l'
  end.

Fixpoint for_fold {A B} (body : B → A → Build B) (l : list A) (b : B)
    : Build B :=
  match l with
  | [] => mret b
  | x :: l' => b' ← body b x; for_fold body l' b'
  end.

(** ** [class MenuGenerator] *)

Definition _add_divider (parent_menu : QMenu) : Build () := λ root,
  (addAction parent_menu Separator root, Returned ()).

Definition _add_sub_menu (menu_name : string) (parent_menu : QMenu)
    : Build QMenu := λ root,
  let index := length (default [] (menu_actions parent_menu root)) in
  (addAction parent_menu (MenuAction menu_name []) root,
   Returned (parent_menu ++ [index])).

(** [_add_menu_item]: the action is created, added to the menu and
    connected.  With a tooltip in [properties] the method then calls
    [action.setTooltip], which a [QAction] does not have (its methods are
    [setToolTip] and [setStatusTip]): the call raises [AttributeError] and
    leaves the action in the menu as it was created, without a tooltip and
    enabled.  Without a tooltip the action is enabled as [enable_callback]
    says when there is one. *)
Definition _add_menu_item (item_name : string) (parent_menu : QMenu)
    (cb : Callback) (props : option Properties) : Build () := λ root,
  match props ≫= prop_tooltip with
  | Some _ =>
      (addAction parent_menu (Action item_name cb None true) root,
       Raised AttributeError)
  | None =>
      let enabled := default true (props ≫= prop_enable_callback) in
      (addAction parent_menu (Action item_name cb None enabled) root,
       Returned ())
  end.

(** [AppCommand._find_sub_menu_item]: the loop returns at the first action
    whose text is [label], with that action's [menu()], which is [None]
    for an action that is not a sub-menu. *)
Definition _find_sub_menu_item (menu : QMenu) (label : string)
    : Build (option QMenu) := λ root,
  (root,
   Returned
     match menu_actions menu root with
     | None => None
     | Some acts =>
         match list_find (λ a, action_text a = label) acts with
         | Some (i, MenuAction _ _) => Some (menu ++ [i])
         | _ => None
         end
     end).

(** The body of the loop of [add_command_to_menu] over [parts[:-1]]. *)
Definition sub_menu_for (parent_menu : QMenu) (item_label : string)
    : Build QMenu :=
  sub_menu ← _find_sub_menu_item parent_menu item_label;
  match sub_menu with
  | Some sub_menu => mret sub_menu
  | None => _add_sub_menu item_label parent_menu
  end.

(** [AppCommand.add_command_to_menu] *)
Definition add_command_to_menu (cmd : AppCommand) (menu : QMenu) : Build () :=
  let parts := split_on slash (name cmd) in
  parent_menu ← for_fold sub_menu_for (removelast parts) menu;
  _add_menu_item (List.last parts "") parent_menu (callback cmd)
    (Some (properties cmd)).

(** The test of [_add_favourite]. *)
Definition is_favourite (fav : Favourite) (cmd : AppCommand) : bool :=
  bool_decide (get_app_instance_name cmd = Some (fav_app_instance fav)
               ∧ name cmd = fav_name fav).

(** [_add_favourite]: returns the commands, the matched ones marked. *)
Fixpoint _add_favourite (fav : Favourite) (menu_items : list AppCommand)
    : Build (list AppCommand) :=
  match menu_items with
  | [] => mret []
  | cmd :: rest =>
      if is_favourite fav cmd then
        add_command_to_menu cmd [];;
        rest ← _add_favourite fav rest;
        mret (set_favourite cmd :: rest)
      else
        rest ← _add_favourite fav rest;
        mret (cmd :: rest)
  end.

(** [_add_context_menu] *)
Definition _add_context_menu (ctx : Context) : Build QMenu :=
  ctx_menu ← _add_sub_menu (ctx_name ctx) [];
  _add_menu_item "Jump to ShotGrid" ctx_menu jump_to_sg None;;
  match filesystem_locations ctx with
  | [] => mret ()
  | _ :: _ => _add_menu_item "Jump to File System" ctx_menu jump_to_fs None
  end;;
  _add_divider ctx_menu;;
  mret ctx_menu.

(** The body of the loop of [_add_commands_by_app_to_menu].  A key of
    [commands_by_app] always has at least one command, so the branch for
    the empty list is never taken. *)
Definition add_app_commands (commands_by_app : list (string * list AppCommand))
    (app_name : string) : Build () :=
  let cmds := default [] (dict_get app_name commands_by_app) in
  if bool_decide (1 < length cmds) then
    app_menu ← _add_sub_menu app_name [];
    let cmds := sort_by name cmds in
    for_each (λ cmd, add_command_to_menu cmd app_menu) cmds
  else
    match cmds with
    | cmd_obj :: _ =>
        if favourite cmd_obj then mret ()
        else add_command_to_menu cmd_obj []
    | [] => mret ()
    end.

Definition _add_commands_by_app_to_menu
    (commands_by_app : list (string * list AppCommand)) : Build () :=
  for_each (add_app_commands commands_by_app) (sort_by id commands_by_app.*1).

(** The body of the loop of [_add_app_menus], which updates
    [commands_by_app]. *)
Definition add_app_menu_step (context_menu : QMenu)
    (commands_by_app : list (string * list AppCommand)) (cmd : AppCommand)
    : Build (list (string * list AppCommand)) :=
  if decide (get_type cmd = "context_menu") then
    add_command_to_menu cmd context_menu;;
    mret commands_by_app
  else
    let app_name := default "Other Items" (get_app_name cmd) in
    mret (setdefault_append app_name cmd commands_by_app).

Definition _add_app_menus (menu_items : list AppCommand) (context_menu : QMenu)
    : Build () :=
  commands_by_app ← for_fold (add_app_menu_step context_menu) menu_items [];
  _add_commands_by_app_to_menu commands_by_app.

(** The commands of [setup_menu_items], wrapped and sorted by name. *)
Definition build_menu_items (cmds : list (string * CommandDict))
    : list AppCommand :=
  sort_by name ((λ '(cmd_name, cmd_details), new_AppCommand cmd_name cmd_details)
                  <$> cmds).

(** The loop over the [menu_favourites] setting. *)
Definition add_favourites (favs : list Favourite) (menu_items : list AppCommand)
    : Build (list AppCommand) :=
  for_fold (λ menu_items fav, _add_favourite fav menu_items) favs menu_items.

(** [setup_menu_items]: the menu is cleared first; the result is the menu
    the call leaves and how it ends. *)
Definition setup_menu_items (engine : Engine) : list QAction * Outcome () :=
  (context_menu ← _add_context_menu (context engine);
   _add_divider [];;
   let menu_items := build_menu_items (commands engine) in
   menu_items ← add_favourites (menu_favourites engine) menu_items;
   _add_divider [];;
   _add_app_menus menu_items context_menu) [].

(** ** Sample data for the evaluations below *)

Definition sample_app (obj : nat) (title : string) : App :=
  {| app_object := obj; display_name := title;
     engine_apps := [("tk-multi-publish2", 1); ("tk-multi-loader2", 2);
                     ("tk-multi-workfiles2", 3)] |}.

Definition sample_command (id : nat) (app : option App) (type : option string)
    : CommandDict :=
  {| cd_callback := engine_callback id;
     cd_properties := {| prop_app := app; prop_type := type;
                         prop_tooltip := None;
                         prop_enable_callback := None |} |}.

Definition sample_context : Context :=
  {| ctx_name := "Asset Hero"; filesystem_locations := [] |}.

Definition sample_publish : AppCommand :=
  new_AppCommand "Publish..."
    (sample_command 1 (Some (sample_app 1 "Publish")) None).

Definition sample_load : AppCommand :=
  new_AppCommand "Load..."
    (sample_command 2 (Some (sample_app 2 "Loader")) None).

Definition sample_items : list AppCommand := [sample_load; sample_publish].

Definition sample_favourite : Favourite :=
  {| fav_app_instance := "tk-multi-publish2"; fav_name := "Publish..." |}.

(** A favourite that is alone in its group. *)
Definition sample_engine : Engine :=
  {| commands :=
       [("Publish...", sample_command 1 (Some (sample_app 1 "Publish")) None);
        ("Load...", sample_command 2 (Some (sample_app 2 "Loader")) None)];
     menu_favourites := [sample_favourite];
     context := sample_context |}.

(** A favourite whose app has two commands. *)
Definition sample_open : AppCommand :=
  new_AppCommand "File Open..."
    (sample_command 3 (Some (sample_app 3 "Workfiles")) None).

Definition workfiles_engine : Engine :=
  {| commands :=
       [("File Open...", sample_command 3 (Some (sample_app 3 "Workfiles")) None);
        ("File Save...", sample_command 4 (Some (sample_app 3 "Workfiles")) None)];
     menu_favourites :=
       [{| fav_app_instance := "tk-multi-workfiles2"; fav_name := "File Open..." |}];
     context := sample_context |}.



(** An app with a command and two commands below its name. *)
Definition nested_engine : Engine :=
  {| commands :=
       [("Publish", sample_command 1 (Some (sample_app 1 "Publish")) None);
        ("Publish/Model", sample_command 2 (Some (sample_app 1 "Publish")) None);
        ("Publish/Textures", sample_command 3 (Some (sample_app 1 "Publish")) None)];
     menu_favourites := [];
     context := sample_context |}.

(** A command without a name. *)
Definition unnamed_command : AppCommand :=
  new_AppCommand "" (sample_command 6 None None).

(** A command with a tooltip, and the commands of an engine that has it. *)
Definition tooltip_publish : AppCommand :=
  new_AppCommand "Publish..."
    {| cd_callback := engine_callback 1;
       cd_properties := {| prop_app := Some (sample_app 1 "Publish");
                           prop_type := None;
                           prop_tooltip := Some "Publish the scene";
                           prop_enable_callback := None |} |}.

Definition tooltip_items : list AppCommand := [sample_load; tooltip_publish].

(** ** The menu tree without references

    What the methods above do, told on the tree itself: these definitions
    are proved equal to the methods and carry the proofs. *)

(** The tree in which the actions of [menu] are [new]. *)
Fixpoint replace_at (menu : QMenu) (new : list QAction) (root : list QAction)
    : list QAction :=
  match menu with
  | [] => new
  | i :: menu' =>
      alter (λ x, match x with
                  | MenuAction title acts =>
                      MenuAction title (replace_at menu' new acts)
                  | _ => x
                  end) i root
  end.

(** The actions of a menu after a leaf has been added below it along a
    path of sub-menu labels. *)
Fixpoint add_path (labels : list string) (leaf : QAction)
    (acts : list QAction) : list QAction :=
  match labels with
  | [] => acts ++ [leaf]
  | label :: labels' =>
      match list_find (λ a, action_text a = label) acts with
      | Some (i, MenuAction title sub) =>
          <[i := MenuAction title (add_path labels' leaf sub)]> acts
      | _ => acts ++ [MenuAction label (add_path labels' leaf [])]
      end
  end.

(** A command whose properties have a tooltip: its menu item raises. *)
Definition has_tooltip (cmd : AppCommand) : Prop :=
  is_Some (prop_tooltip (properties cmd)).

Global Instance has_tooltip_dec cmd : Decision (has_tooltip cmd).
Proof. unfold has_tooltip. apply _. Defined.

(** How [add_command_to_menu] ends for a command. *)
Definition add_outcome (cmd : AppCommand) : Outcome () :=
  if decide (has_tooltip cmd) then Raised AttributeError else Returned ().

(** The action that [add_command_to_menu] leaves in the menu for a
    command: with a tooltip in the properties the call stops before
    [setEnabled]. *)
Definition leaf_of (cmd : AppCommand) : QAction :=
  Action (List.last (split_on slash (name cmd)) "") (callback cmd) None
    (if decide (has_tooltip cmd) then true
     else default true (prop_enable_callback (properties cmd))).

(** No value of [engine.commands] has a tooltip in its properties. *)
Definition no_tooltips (cmds : list (string * CommandDict)) : Prop :=
  Forall (λ item, prop_tooltip (cd_properties item.2) = None) cmds.

(** The commands that a loop over [cmds] gets to: all of them up to the
    first whose menu item raises, that one included. *)
Fixpoint reached (cmds : list AppCommand) : list AppCommand :=
  match cmds with
  | [] => []
  | cmd :: rest =>
      if decide (has_tooltip cmd) then [cmd] else cmd :: reached rest
  end.

(** How a loop of [add_command_to_menu] over [cmds] ends. *)
Definition loop_outcome (cmds : list AppCommand) : Outcome () :=
  if decide (Exists has_tooltip cmds) then Raised AttributeError
  else Returned ().

(** The actions of a menu after [cmd.add_command_to_menu(menu)]. *)
Definition attach (cmd : AppCommand) (acts : list QAction) : list QAction :=
  add_path (removelast (split_on slash (name cmd))) (leaf_of cmd) acts.

(** The number of plain actions connected to [cb], in a menu and all its
    sub-menus. *)
Fixpoint count_action (cb : Callback) (a : QAction) : nat :=
  match a with
  | Action _ cb' _ _ => if decide (cb' = cb) then 1 else 0
  | Separator => 0
  | MenuAction _ acts =>
      (fix count (l : list QAction) : nat :=
         match l with
         | [] => 0
         | x :: l' => count_action cb x + count l'
         end) acts
  end.

Definition count_menu (cb : Callback) (acts : list QAction) : nat :=
  sum_list_with (count_action cb) acts.

(** The commands of a list that are connected to [cb]. *)
Definition connected (cb : Callback) (cmds : list AppCommand) : nat :=
  length (filter (λ c, callback c = cb) cmds).

(** Every menu reference that is good in [acts] is good in [acts']. *)
Definition extends (acts acts' : list QAction) : Prop :=
  ∀ h, is_Some (menu_actions h acts) → is_Some (menu_actions h acts').

(** The mark that one favourite, and a list of favourites, leave on a
    command. *)
Definition mark (fav : Favourite) (cmd : AppCommand) : AppCommand :=
  if is_favourite fav cmd then set_favourite cmd else cmd.

Definition mark_all (favs : list Favourite) (cmd : AppCommand) : AppCommand :=
  if existsb (λ fav, is_favourite fav cmd) favs then set_favourite cmd else cmd.

(** The matches of the favourites, in the order of the setting. *)
Definition favourite_matches (favs : list Favourite)
    (menu_items : list AppCommand) : list AppCommand :=
  favs ≫= λ fav, filter (λ c, is_favourite fav c = true) menu_items.

(** The key of [commands_by_app]. *)
Definition app_key (cmd : AppCommand) : string :=
  default "Other Items" (get_app_name cmd).

Definition is_context_command (cmd : AppCommand) : Prop :=
  get_type cmd = "context_menu".

Global Instance is_context_command_dec cmd : Decision (is_context_command cmd).
Proof. unfold is_context_command. apply _. Defined.

(** What the group of one app adds to the number of actions connected to
    [cb]: all its commands go in again when the group has several, the
    only command of a group goes in unless it is marked as a favourite. *)
Definition group_count (cb : Callback) (cmds : list AppCommand) : nat :=
  if bool_decide (1 < length cmds) then connected cb cmds
  else
    match cmds with
    | cmd_obj :: _ => if favourite cmd_obj then 0 else connected cb [cmd_obj]
    | [] => 0
    end.

(** What the group of one app adds to the menu when none of its menu
    items raises: a sub-menu with its commands in name order when it has
    several, its only command unless that is marked as a favourite. *)
Definition app_tree (app_name : string) (cmds : list AppCommand)
    (root : list QAction) : list QAction :=
  if bool_decide (1 < length cmds) then
    root ++ [MenuAction app_name
               (fold_left (λ a c, attach c a) (sort_by name cmds) [])]
  else
    match cmds with
    | cmd_obj :: _ => if favourite cmd_obj then root else attach cmd_obj root
    | [] => root
    end.

(** The actions that [_add_context_menu] puts in the context menu. *)
Definition context_actions (ctx : Context) : list QAction :=
  Action "Jump to ShotGrid" jump_to_sg None true
  :: match filesystem_locations ctx with
     | [] => []
     | _ :: _ => [Action "Jump to File System" jump_to_fs None true]
     end
  ++ [Separator].

(** The menu that [setup_menu_items] leaves when no menu item raises: the
    context menu and a separator; the matches of the favourites, attached
    to the ShotGrid menu; a separator; the commands of type
    [context_menu], attached to the context menu; and what each app adds,
    in the order of the app names. *)
Definition menu_tree (engine : Engine) : list QAction :=
  let menu_items := build_menu_items (commands engine) in
  let favs := menu_favourites engine in
  let marked := mark_all favs <$> menu_items in
  let commands_by_app :=
    group_dict app_key (filter (λ c, ¬ is_context_command c) marked) in
  let root :=
    fold_left (λ a c, attach c a) (favourite_matches favs menu_items)
      [MenuAction (ctx_name (context engine))
         (context_actions (context engine)); Separator]
    ++ [Separator] in
  let root :=
    replace_at [0]
      (fold_left (λ a c, attach c a) (filter is_context_command marked)
         (default [] (menu_actions [0] root)))
      root in
  fold_left (λ r k, app_tree k (default [] (dict_get k commands_by_app)) r)
    (sort_by id commands_by_app.*1) root.

(** [leaf] is the last action below sub-menus titled [labels], each inside
    the one before. *)
Inductive leaf_below : list string → QAction → list QAction → Prop :=
| leaf_last leaf acts :
    last acts = Some leaf → leaf_below [] leaf acts
| leaf_in_sub_menu label labels leaf acts i sub :
    acts !! i = Some (MenuAction label sub) →
    leaf_below labels leaf sub →
    leaf_below (label :: labels) leaf acts.

(** The number of sub-menus of a menu that carry a title. *)
Definition is_sub_menu_named (label : string) (a : QAction) : bool :=
  match a with
  | MenuAction title _ => bool_decide (title = label)
  | _ => false
  end.

Definition sub_menus_named (label : string) (acts : list QAction) : nat :=
  length (filter (λ a, is_sub_menu_named label a = true) acts).

(** ** The menu of commands with plain names

    What [setup_menu_items] leaves when no command name has a slash, so
    that no command asks for a sub-menu of its own. *)

(** The entry of one app below the second separator: a sub-menu with the
    app's commands in name order when it has several, the command itself
    when it has one that is not a favourite. *)
Definition app_entry (app_name : string) (cmds : list AppCommand)
    : list QAction :=
  if bool_decide (1 < length cmds) then
    [MenuAction app_name (leaf_of <$> sort_by name cmds)]
  else
    match cmds with
    | cmd_obj :: _ => if favourite cmd_obj then [] else [leaf_of cmd_obj]
    | [] => []
    end.

Definition menu_layout (engine : Engine) : list QAction :=
  let menu_items := build_menu_items (commands engine) in
  let favs := menu_favourites engine in
  let others :=
    filter (λ c, ¬ is_context_command c) (mark_all favs <$> menu_items) in
  [MenuAction (ctx_name (context engine))
     (context_actions (context engine)
      ++ (leaf_of <$> filter is_context_command menu_items));
   Separator]
  ++ (favs ≫= λ fav,
        leaf_of <$> filter (λ c, is_favourite fav c = true) menu_items)
  ++ [Separator]
  ++ (sort_by id (TileSpec.first_seen (app_key <$> others)) ≫= λ k,
        app_entry k (filter (λ c, app_key c = k) others)).

(** ** The methods of [str] used by the hooks and by [utils.py] *)

(** The input after [p] when it starts with [p]. *)
Fixpoint strip_prefix (p s : list ascii) : option (list ascii) :=
  match p, s with
  | [], _ => Some s
  | c :: p', c' :: s' => if decide (c' = c) then strip_prefix p' s' else None
  | _ :: _, [] => None
  end.

(** [s.startswith(prefix)] *)
Definition startswith (s prefix : string) : bool :=
  bool_decide (is_Some (strip_prefix (chars prefix) (chars s))).

(** [s.lower()] on the code points below 256: the letters [A-Z] and the
    capital letters of Latin-1, which are 32 below their small ones. *)
Definition lower_char (c : ascii) : ascii :=
  let n := nat_of_ascii c in
  if ((65 <=? n)%nat && (n <=? 90)%nat)
     || ((192 <=? n)%nat && (n <=? 214)%nat)
     || ((216 <=? n)%nat && (n <=? 222)%nat)
  then ascii_of_nat (n + 32) else c.

Definition lower (s : string) : string := str (lower_char <$> chars s).

(** [s.replace(old, new, 1)]: the first occurrence of [old], from the
    left, becomes [new]. *)
Fixpoint replace_first (old new s : list ascii) : list ascii :=
  match strip_prefix old s with
  | Some rest => new ++ rest
  | None =>
      match s with
      | [] => []
      | c :: s' => c :: replace_first old new s'
      end
  end.

Definition replace_once (s old new : string) : string :=
  str (replace_first (chars old) (chars new) (chars s)).

(** ** The export presets of [accept] and [validate] *)

(** A resource export preset: [resource_id.name] and the object. *)
Record ResourcePreset : Type := {
  resource_name : string;
  resource_object : nat
}.

(** An entry of the setting "ShotGrid Export Presets list". *)
Record PresetEntry : Type := {
  entry_name : string;
  entry_preset : ResourcePreset;
  entry_index : nat
}.

(** The loop of [accept] over the resource presets, with its counter. *)
Fixpoint shotgrid_presets_from (counter : nat)
    (resource_presets : list ResourcePreset) : list PresetEntry :=
  match resource_presets with
  | [] => []
  | resource_preset :: rest =>
      if startswith (lower (resource_name resource_preset)) "shotgrid" then
        {| entry_name := resource_name resource_preset;
           entry_preset := resource_preset;
           entry_index := counter |}
        :: shotgrid_presets_from (S counter) rest
      else shotgrid_presets_from counter rest
  end.

(** [accept]: whether the item is accepted, and the value it stores in
    the setting "ShotGrid Export Presets list" when it is. *)
Definition accept (resource_presets : list ResourcePreset)
    : bool * option (list PresetEntry) :=
  match shotgrid_presets_from 0 resource_presets with
  | [] => (false, None)
  | shotgrid_export_presets => (true, Some shotgrid_export_presets)
  end.

(** The first loop of [validate]: [item.properties["export_preset"]]
    after it, from what it was before; the index is the integer of the
    setting "ShotGrid Export Preset index". *)
Definition choose_export_preset (presets_list : list PresetEntry) (index : Z)
    (export_preset : option ResourcePreset) : option ResourcePreset :=
  fold_left
    (λ export_preset preset_dict,
       if decide (Z.of_nat (entry_index preset_dict) = index)
       then Some (entry_preset preset_dict) else export_preset)
    presets_list export_preset.

(** The class [[A-Za-z0-9]]. *)
Definition is_ascii_alnum (c : ascii) : bool :=
  let n := nat_of_ascii c in
  ((65 <=? n)%nat && (n <=? 90)%nat)
  || ((97 <=? n)%nat && (n <=? 122)%nat)
  || ((48 <=? n)%nat && (n <=? 57)%nat).

(** The characters of [s] as literals, then [r]. *)
Definition lits (s : string) (r : Re.regex) : Re.regex :=
  foldr (λ c r, Re.Cat (Re.Lit c) r) r (chars s).

(** [\$textureSet_[A-Za-z0-9]+_\$colorSpace\(\.\$udim\)] *)
Definition TEXTURE_ABSTRACT_PATH_REGEX : Re.regex :=
  lits "$textureSet_"
    (Re.Cat (Re.Plus is_ascii_alnum)
       (lits "_$colorSpace(.$udim" (Re.Lit ")"%char))).

(** The test [if not match] of [validate] on
    [TEXTURE_ABSTRACT_PATH_REGEX.match(map_filename)]. *)
Definition abstract_path_matches (map_filename : string) : bool :=
  bool_decide
    (is_Some (Re.match_here TEXTURE_ABSTRACT_PATH_REGEX (chars map_filename))).

(** The loop of [validate] over the output maps of the preset: it returns
    [False] at the first file name that does not match. *)
Fixpoint output_maps_valid (maps : list string) : bool :=
  match maps with
  | [] => true
  | map_filename :: rest =>
      if abstract_path_matches map_filename then output_maps_valid rest
      else false
  end.

(** A file name of the convention [$textureSet_<MapName>_$colorSpace(.$udim)]:
    the map name is made of one or more letters and digits of ASCII, and
    anything may follow. *)
Definition abstract_path_form (map_filename : string) : Prop :=
  ∃ map_name rest,
    map_name ≠ [] ∧ forallb is_ascii_alnum map_name = true
    ∧ chars map_filename
      = chars "$textureSet_" ++ map_name
        ++ chars "_$colorSpace(.$udim)" ++ rest.

(** ** [utils.py]: UNC paths and mapped drives *)

(** An entry of the setting [windows_path_mappings], read with
    [mapping.get(key, "")]. *)
Record PathMapping : Type := {
  unc_prefix : string;
  mapped_drive_prefix : string
}.

Section PathConversion.

(** [platform.system() == "Windows"], and [os.path.normpath]. *)
Variable is_windows : bool.
Variable normpath : string → string.

(** The loop over the mappings, which both functions share but for the
    direction: [source] is the prefix looked for and [target] the one
    put in its place. *)
Fixpoint replace_mapped_prefix (source target : PathMapping → string)
    (mappings : list PathMapping) (filepath normalized_filepath : string)
    : string :=
  match mappings with
  | [] => filepath
  | mapping :: rest =>
      if bool_decide (source mapping = "") || bool_decide (target mapping = "")
      then replace_mapped_prefix source target rest filepath normalized_filepath
      else if startswith normalized_filepath (lower (source mapping))
      then replace_once filepath (source mapping) (target mapping)
      else replace_mapped_prefix source target rest filepath normalized_filepath
  end.

Definition _convert_unc_path_to_mapped_drive_path
    (mappings : list PathMapping) (filepath : string) : string :=
  if negb is_windows then filepath
  else
    match mappings with
    | [] => filepath
    | _ :: _ =>
        let filepath := normpath filepath in
        let normalized_filepath := lower filepath in
        replace_mapped_prefix unc_prefix mapped_drive_prefix mappings
          filepath normalized_filepath
    end.

Definition _convert_mapped_drive_path_to_unc_path
    (mappings : list PathMapping) (filepath : string) : string :=
  if negb is_windows then filepath
  else
    match mappings with
    | [] => filepath
    | _ :: _ =>
        let filepath := normpath filepath in
        let normalized_filepath := lower filepath in
        replace_mapped_prefix mapped_drive_prefix unc_prefix mappings
          filepath normalized_filepath
    end.

End PathConversion.

(** ** [engine.py]: the commands run at startup *)

(** [d[k] = v]: the value of a key that is there is replaced in place, a
    new key goes to the end. *)
Fixpoint dict_set {K V} `{EqDecision K} (k : K) (v : V) (d : list (K * V))
    : list (K * V) :=
  match d with
  | [] => [(k, v)]
  | (k', v') :: d' =>
      if decide (k' = k) then (k', v) :: d' else (k', v') :: dict_set k v d'
  end.

(** An entry of the setting [run_at_startup]. *)
Record StartupSetting : Type := {
  startup_app_instance : string;
  startup_name : string
}.

(** What [_run_app_instance_commands] does that can be seen: the messages
    it logs and the command functions it calls. *)
Inductive StartupEvent : Type :=
| warning_not_installed (app_instance_name : string)
| debug_running (app_instance_name command_name : string)
| call (command_function : Callback)
| warning_unknown_command (app_instance_name setting_command_name : string)
    (known_commands : string).

(** [", ".join("'%s'" % name for name in command_dict)] *)
Fixpoint join (sep : string) (l : list string) : string :=
  match l with
  | [] => ""
  | [s] => s
  | s :: l' => s +:+ sep +:+ join sep l'
  end.

Definition known_commands_of (command_dict : list (string * Callback))
    : string :=
  join ", " ((λ n, "'" +:+ n +:+ "'") <$> command_dict.*1).

Section Startup.

(** [app.instance_name] *)
Variable instance_name : App → string.

(** The body of the first loop: the command goes in the dictionary of
    its app instance, when it has an app. *)
Definition add_instance_command
    (app_instance_commands : list (string * list (string * Callback)))
    (item : string * CommandDict)
    : list (string * list (string * Callback)) :=
  let '(command_name, value) := item in
  match prop_app (cd_properties value) with
  | Some app_instance =>
      let command_dict :=
        default [] (dict_get (instance_name app_instance) app_instance_commands) in
      dict_set (instance_name app_instance)
        (dict_set command_name (cd_callback value) command_dict)
        app_instance_commands
  | None => app_instance_commands
  end.

Definition app_instance_commands_of (cmds : list (string * CommandDict))
    : list (string * list (string * Callback)) :=
  fold_left add_instance_command cmds [].

(** The body of the second loop. *)
Definition run_startup_setting
    (app_instance_commands : list (string * list (string * Callback)))
    (app_setting_dict : StartupSetting) : list StartupEvent :=
  let app_instance_name := startup_app_instance app_setting_dict in
  let setting_command_name := startup_name app_setting_dict in
  match dict_get app_instance_name app_instance_commands with
  | None => [warning_not_installed app_instance_name]
  | Some command_dict =>
      if decide (setting_command_name = "") then
        command_dict ≫= λ '(command_name, command_function),
          [debug_running app_instance_name command_name; call command_function]
      else
        match dict_get setting_command_name command_dict with
        | Some command_function =>
            [debug_running app_instance_name setting_command_name;
             call command_function]
        | None =>
            [warning_unknown_command app_instance_name setting_command_name
               (known_commands_of command_dict)]
        end
  end.

Definition _run_app_instance_commands (cmds : list (string * CommandDict))
    (run_at_startup : list StartupSetting) : list StartupEvent :=
  run_at_startup ≫= run_startup_setting (app_instance_commands_of cmds).

End Startup.

(** The command functions called, in order. *)
Definition calls (events : list StartupEvent) : list Callback :=
  events ≫= λ e, match e with call f => [f] | _ => [] end.

(** The commands of one app instance, as registered. *)
Definition commands_of_instance (instance_name : App → string) (a : string)
    (cmds : list (string * CommandDict)) : list (string * CommandDict) :=
  filter (λ item, instance_name <$> prop_app (cd_properties item.2) = Some a) cmds.

(** The commands that a startup setting asks for: those of its app
    instance, all of them when it gives no name. *)
Definition startup_requests (instance_name : App → string)
    (app_setting_dict : StartupSetting) (item : string * CommandDict) : Prop :=
  instance_name <$> prop_app (cd_properties item.2)
  = Some (startup_app_instance app_setting_dict)
  ∧ (startup_name app_setting_dict = ""
     ∨ item.1 = startup_name app_setting_dict).

Global Instance startup_requests_dec instance_name app_setting_dict item :
  Decision (startup_requests instance_name app_setting_dict item).
Proof. unfold startup_requests. apply _. Defined.

(** ** The fields that [publish] reads from a file name *)

(** The fragment of [re] that [TEXTURE_FILENAME_REGEX] needs beyond the
    one above: named groups and an optional group. *)
Module ReG.

Inductive regex : Type :=
| Chr (cls : ascii → bool)
| Plus (cls : ascii → bool)
| Cat (r1 r2 : regex)
| Named (name : string) (r : regex)
| Opt (r : regex)
| Eos.

(** The text of the groups that took part in the match, by name. *)
Definition groups : Type := list (string * list ascii).

Definition cont (R : Type) : Type := list ascii → groups → option R.

(** Zero or more characters of the class, longest run first. *)
Fixpoint star {R} (cls : ascii → bool) (s : list ascii)
    (g : groups) (k : cont R) : option R :=
  match s with
  | c :: s' =>
      if cls c then
        match star cls s' g k with
        | Some r => Some r
        | None => k s g
        end
      else k s g
  | [] => k s g
  end.

(** The backtracking matcher: an optional group is tried first with its
    content and then without. *)
Fixpoint rmatch {R} (r : regex) (s : list ascii) (g : groups) (k : cont R)
    : option R :=
  match r with
  | Chr cls =>
      match s with
      | c :: s' => if cls c then k s' g else None
      | [] => None
      end
  | Plus cls =>
      match s with
      | c :: s' => if cls c then star cls s' g k else None
      | [] => None
      end
  | Cat r1 r2 => rmatch r1 s g (λ s1 g1, rmatch r2 s1 g1 k)
  | Named name r1 =>
      rmatch r1 s g
        (λ s1 g1, k s1 (dict_set name (take (length s - length s1) s) g1))
  | Opt r1 =>
      match rmatch r1 s g k with
      | Some res => Some res
      | None => k s g
      end
  | Eos =>
      match s with
      | [] => k s g
      | [c] => if decide (c = newline) then k s g else None
      | _ => None
      end
  end.

(** [re.match(r, s)]: the groups of the match. *)
Definition match_here (r : regex) (s : list ascii) : option groups :=
  rmatch r s [] (λ _ g, Some g).

(** [match.group(name)] *)
Definition group (name : string) (m : groups) : option (list ascii) :=
  dict_get name m.

End ReG.

(** The classes [[^.]], [[^_.]] and a single character. *)
Definition underscore : ascii := "_"%char.

Definition not_dot (c : ascii) : bool := negb (bool_decide (c = dot)).

Definition not_underscore_dot (c : ascii) : bool :=
  negb (bool_decide (c = underscore)) && negb (bool_decide (c = dot)).

Definition is_char (x c : ascii) : bool := bool_decide (c = x).

(** [\d{4}] *)
Definition four_digits : ReG.regex :=
  ReG.Cat (ReG.Chr Re.is_digit)
    (ReG.Cat (ReG.Chr Re.is_digit)
       (ReG.Cat (ReG.Chr Re.is_digit) (ReG.Chr Re.is_digit))).

(** [(?:\.(?P<udim>\d{4}))?] *)
Definition udim_part : ReG.regex :=
  ReG.Opt (ReG.Cat (ReG.Chr (is_char dot)) (ReG.Named "udim" four_digits)).

(** [\.(?P<extension>\w+$)] *)
Definition extension_part : ReG.regex :=
  ReG.Cat (ReG.Chr (is_char dot))
    (ReG.Named "extension" (ReG.Cat (ReG.Plus Re.is_word) ReG.Eos)).

(** [[^.]+_(?P<texture_map>[^_.]+)_(?P<colorspace>[^_.]+)(?:\.(?P<udim>\d{4}))?\.(?P<extension>\w+$)] *)
Definition TEXTURE_FILENAME_REGEX : ReG.regex :=
  ReG.Cat (ReG.Plus not_dot)
    (ReG.Cat (ReG.Chr (is_char underscore))
       (ReG.Cat (ReG.Named "texture_map" (ReG.Plus not_underscore_dot))
          (ReG.Cat (ReG.Chr (is_char underscore))
             (ReG.Cat (ReG.Named "colorspace" (ReG.Plus not_underscore_dot))
                (ReG.Cat udim_part extension_part))))).

(** [int(s)] on decimal digits. *)
Definition int_of_digits (ds : list ascii) : nat :=
  fold_left (λ n d, 10 * n + (nat_of_ascii d - 48)) ds 0.

(** The fields that the loop of [publish] takes from one file name. *)
Record TextureFields : Type := {
  texture_map : string;
  colorspace : string;
  extension : string;
  UDIM : option nat
}.

(** The body of that loop, up to the fields: [None] stands for the
    [AttributeError] that [match.group] raises when the name does not
    match; [UDIM] is set when the group [udim] is there. *)
Definition texture_fields (filename : string) : option TextureFields :=
  match ReG.match_here TEXTURE_FILENAME_REGEX (chars filename) with
  | None => None
  | Some m =>
      Some {| texture_map := str (default [] (ReG.group "texture_map" m));
              colorspace := str (default [] (ReG.group "colorspace" m));
              extension := str (default [] (ReG.group "extension" m));
              UDIM := match ReG.group "udim" m with
                      | Some (d :: ds) => Some (int_of_digits (d :: ds))
                      | _ => None
                      end |}
  end.

(** The text of the tile in a name. *)
Definition tile_text (tile : option (list ascii)) : list ascii :=
  match tile with Some ds => dot :: ds | None => [] end.

(** A file name of the export convention: a texture set name, the map and
    the colour space, set apart by underscores and free of underscores and
    dots themselves; then a tile of four digits after a dot, or none; then
    a dot, an extension of word characters and the end of the name. *)
(** The groups of a match, as the matcher leaves them. *)
Definition fields_groups (map_name space : list ascii)
    (tile : option (list ascii)) (ext : list ascii) : ReG.groups :=
  [("texture_map", map_name); ("colorspace", space)]
  ++ match tile with Some ds => [("udim", ds)] | None => [] end
  ++ [("extension", ext)].

Definition fields_form (s set_name map_name space : list ascii)
    (tile : option (list ascii)) (ext nl : list ascii) : Prop :=
  s = set_name ++ underscore :: map_name ++ underscore :: space
      ++ tile_text tile ++ dot :: ext ++ nl
  ∧ set_name ≠ [] ∧ forallb not_dot set_name = true
  ∧ map_name ≠ [] ∧ forallb not_underscore_dot map_name = true
  ∧ space ≠ [] ∧ forallb not_underscore_dot space = true
  ∧ (∀ ds, tile = Some ds → length ds = 4 ∧ forallb Re.is_digit ds = true)
  ∧ ext ≠ [] ∧ forallb Re.is_word ext = true
  ∧ (nl = [] ∨ nl = [newline]).

(** The text between the colour space and the extension, in a name and in
    a group key: nothing, or a dot and a text without dots. *)
Definition middle_text (mid : list ascii) : Prop :=
  mid = [] ∨ ∃ body, mid = dot :: body ∧ dot ∉ body.

(** The fields of a name of the export convention. *)
Definition fields_of (map_name space : list ascii) (tile : option (list ascii))
    (ext : list ascii) : TextureFields :=
  {| texture_map := str map_name;
     colorspace := str space;
     extension := str ext;
     UDIM := int_of_digits <$> tile |}.

(** ** What stays of a menu while commands are added *)

(** The action at the end of a path of indices: the last index chooses an
    action, the indices before it the sub-menus on the way. *)
Fixpoint entry_at (path : list nat) (acts : list QAction) : option QAction :=
  match path with
  | [] => None
  | i :: path' =>
      match path' with
      | [] => acts !! i
      | _ :: _ =>
          match acts !! i with
          | Some (MenuAction _ sub) => entry_at path' sub
          | _ => None
          end
      end
  end.

(** An action without what is below it. *)
Definition shape (a : QAction) : QAction :=
  match a with
  | MenuAction title _ => MenuAction title []
  | _ => a
  end.

(** Every action of [acts], at any depth, is still at its place in
    [acts']: a plain action or a separator as it was, a sub-menu with its
    title. *)
Definition keeps (acts acts' : list QAction) : Prop :=
  ∀ path a, entry_at path acts = Some a →
            ∃ a', entry_at path acts' = Some a' ∧ shape a' = shape a.

(** A method that takes nothing from the menu, however it ends. *)
Definition preserves {A} (m : Build A) : Prop :=
  ∀ root, keeps root (m root).1.

(** * Properties of the grouper *)

(** ** Sample evaluations *)

Example udim_sub_1 : udim_sub "Base_Color.1001.exr" = "Base_Color.<UDIM>.exr".
Proof. reflexivity. Qed.

Example udim_sub_2 : udim_sub "a.1.2.3" = "a.1.<UDIM>.3".
Proof. reflexivity. Qed.

Example udim_sub_3 : udim_sub "T_Roughness.exr" = "T_Roughness.exr".
Proof. reflexivity. Qed.

Example group_1 :
  _group_texture_sequences posixpath_basename
    ["out/T_Base_Color.1001.exr"; "out/T_Base_Color.1002.exr"; "out/T_Roughness.exr"]
  = [["out/T_Base_Color.1001.exr"; "out/T_Base_Color.1002.exr"]; ["out/T_Roughness.exr"]].
Proof. reflexivity. Qed.

Example key_of_1 : TileSpec.key_of "Base_Color.1001.exr" = "Base_Color.<UDIM>.exr".
Proof. reflexivity. Qed.

Example key_of_2 : TileSpec.has_tile_suffix "T_Roughness.exr" = false.
Proof. reflexivity. Qed.

Example groups_by_key_1 :
  TileSpec.groups_by_key (λ p, TileSpec.key_of (posixpath_basename p))
    ["a/x.1.exr"; "r.exr"; "b/x.2.exr"]
  = [["a/x.1.exr"; "b/x.2.exr"]; ["r.exr"]].
Proof. reflexivity. Qed.

Example udim_sub_4 : udim_sub "a.1.e-x" = "a.1.e-x".
Proof. reflexivity. Qed.

Example udim_sub_5 : udim_sub "a..1.x" = "a..<UDIM>.x".
Proof. reflexivity. Qed.

Example udim_sub_6 : udim_sub "a.1.x." = "a.1.x.".
Proof. reflexivity. Qed.

Example udim_sub_7 :
  udim_sub ("a.1.exr" +:+ String newline "") = "a.<UDIM>.exr" +:+ String newline "".
Proof. reflexivity. Qed.

Example udim_sub_8 :
  udim_sub ("a.1.exr" +:+ String newline (String newline ""))
  = "a.1.exr" +:+ String newline (String newline "").
Proof. reflexivity. Qed.

(** The codes of the word characters. *)
Example is_word_codes :
  filter (λ n, Re.is_word (ascii_of_nat n) = true) (seq 0 256)
  = seq 48 10 ++ seq 65 26 ++ [95] ++ seq 97 26
    ++ [170; 178; 179; 181; 185; 186; 188; 189; 190]
    ++ seq 192 23 ++ seq 216 31 ++ seq 248 8.
Proof. vm_compute. reflexivity. Qed.

Example is_digit_codes :
  filter (λ n, Re.is_digit (ascii_of_nat n) = true) (seq 0 256) = seq 48 10.
Proof. vm_compute. reflexivity. Qed.

Example split_on_1 : split_on slash "Publish/Textures" = ["Publish"; "Textures"].
Proof. reflexivity. Qed.

Example split_on_2 : split_on slash "" = [""].
Proof. reflexivity. Qed.

Example split_on_3 : split_on slash "a/" = ["a"; ""].
Proof. reflexivity. Qed.

Example sort_by_1 :
  sort_by id ["b"; "a/b"; "a"; "B"; "a b"; "a.b"] = ["B"; "a"; "a b"; "a.b"; "a/b"; "b"].
Proof. reflexivity. Qed.

(** ** The matcher on the tile pattern *)

Section ReFacts.
Import Re.

Lemma skip_class_run cls s :
  ∃ run, s = run ++ skip_class cls s ∧ forallb cls run = true.
Proof.
  induction s as [|c s [run [Hs Hrun]]]; simpl.
  - by exists [].
  - destruct (cls c) eqn:Hc.
    + exists (c :: run). simpl. rewrite Hc, Hrun. split; [congruence | done].
    + by exists [].
Qed.

Lemma skip_class_app cls run rest :
  forallb cls run = true →
  (∀ c t, rest = c :: t → cls c = false) →
  skip_class cls (run ++ rest) = rest.
Proof.
  intros Hrun Hrest. induction run as [|c run IH]; simpl in *.
  - destruct rest as [|c t]; [done|]. simpl. by rewrite (Hrest c t).
  - apply andb_true_iff in Hrun as [-> Hrun]. by apply IH.
Qed.

Lemma star_greedy {R} cls (k : cont R) s g :
  (∀ c t g', cls c = true → k (c :: t) g' = None) →
  star cls s g k = k (skip_class cls s) g.
Proof.
  intros Hk. induction s as [|c s IH]; simpl; [done|].
  destruct (cls c) eqn:Hc; [|done].
  rewrite IH. destruct (k (skip_class cls s) g); [done|]. by apply Hk.
Qed.

Lemma is_digit_not_dot c : is_digit c = true → c ≠ dot.
Proof. intros H ->. discriminate H. Qed.

Lemma is_word_not_dot c : is_word c = true → c ≠ dot.
Proof. intros H ->. discriminate H. Qed.

Lemma is_word_not_newline c : is_word c = true → c ≠ newline.
Proof. intros H ->. discriminate H. Qed.

(** What the matcher computes on the tile pattern, without
    continuations. *)
Lemma match_here_udim s :
  match_here udim_pattern s =
    match s with
    | c :: d :: s1 =>
        if decide (c = dot) then
          if is_digit d then
            match skip_class is_digit s1 with
            | c' :: w :: s2 =>
                if decide (c' = dot) then
                  if is_word w then
                    let rest := skip_class is_word s2 in
                    if at_end rest then
                      Some (rest,
                            Some (take (length (c' :: w :: s2) - length rest)
                                    (c' :: w :: s2)))
                    else None
                  else None
                else None
            | _ => None
            end
          else None
        else None
    | _ => None
    end.
Proof.
  unfold match_here, udim_pattern. simpl.
  destruct s as [|c [|d s1]]; simpl; try done.
  { by destruct (decide (c = dot)). }
  destruct (decide (c = dot)); [|done].
  destruct (is_digit d) eqn:Hd; [|done].
  rewrite star_greedy.
  2:{ intros c0 t g' Hc0. simpl. destruct (decide (c0 = dot)) as [->|]; done. }
  simpl. destruct (skip_class is_digit s1) as [|c' [|w s2]]; simpl; try done.
  { by destruct (decide (c' = dot)). }
  destruct (decide (c' = dot)); [|done].
  destruct (is_word w) eqn:Hw; [|done].
  rewrite star_greedy.
  2:{ intros c0 t g' Hc0. destruct t; [|done].
      destruct (decide (c0 = newline)) as [->|]; done. }
  unfold at_end.
  destruct (skip_class is_word s2) as [|x [|y r]] eqn:Hrest; simpl.
  - done.
  - destruct (decide (x = newline)) as [->|Hx].
    + done.
    + rewrite bool_decide_eq_false_2; [done|]. intros [?|?]; congruence.
  - rewrite bool_decide_eq_false_2; [done|]. intros [?|?]; congruence.
Qed.

End ReFacts.

(** ** Names with a tile suffix *)

Section TileForm.
Import Re TileSpec.

Lemma take_length_sub {A} (a r : list A) :
  take (length (a ++ r) - length r) (a ++ r) = a.
Proof. rewrite length_app, Nat.add_sub. apply take_app_length. Qed.

Lemma match_here_form t rest g :
  match_here udim_pattern t = Some (rest, g) →
  ∃ ds ext, tile_form t [] ds ext rest ∧ g = Some (dot :: ext).
Proof.
  rewrite match_here_udim.
  destruct t as [|c [|d s1]]; try done.
  destruct (decide (c = dot)) as [->|]; [|done].
  destruct (is_digit d) eqn:Hd; [|done].
  destruct (skip_class_run is_digit s1) as (run & Hs1 & Hrun).
  destruct (skip_class is_digit s1) as [|c' [|w s2]]; try done.
  destruct (decide (c' = dot)) as [->|]; [|done].
  destruct (is_word w) eqn:Hw; [|done].
  destruct (skip_class_run is_word s2) as (run2 & Hs2 & Hrun2).
  cbv zeta. destruct (at_end (skip_class is_word s2)) eqn:Hend; [|done].
  intros [= <- <-].
  exists (d :: run), (w :: run2). split.
  - repeat split.
    + simpl. by rewrite Hs1 at 1; rewrite Hs2 at 1.
    + done.
    + simpl. by rewrite Hd.
    + done.
    + simpl. by rewrite Hw.
    + by apply bool_decide_eq_true_1 in Hend.
  - f_equal. rewrite Hs2 at 1 3.
    exact (take_length_sub (dot :: w :: run2) _).
Qed.

Lemma form_match_here t ds ext rest :
  tile_form t [] ds ext rest →
  match_here udim_pattern t = Some (rest, Some (dot :: ext)).
Proof.
  intros (-> & Hds & Hdig & Hext & Hword & Hrest).
  rewrite match_here_udim.
  destruct ds as [|d ds]; [done|]. destruct ext as [|w ext]; [done|].
  cbn [forallb] in Hdig, Hword.
  apply andb_true_iff in Hdig as [Hd Hdig].
  apply andb_true_iff in Hword as [Hw Hword].
  cbn [app]. rewrite decide_True by done. rewrite Hd.
  rewrite skip_class_app; [|done|by intros ?? [= <- _]].
  rewrite decide_True by done. rewrite Hw. cbv zeta.
  rewrite skip_class_app; [|done|].
  2:{ intros c t ->. destruct Hrest as [|[= -> _]]; done. }
  unfold at_end. rewrite bool_decide_eq_true_2 by done.
  do 3 f_equal. exact (take_length_sub (dot :: w :: ext) _).
Qed.

Lemma count_dots_app s t : count_dots (s ++ t) = count_dots s + count_dots t.
Proof. unfold count_dots. by rewrite filter_app, length_app. Qed.

Lemma count_dots_class cls s :
  cls dot = false → forallb cls s = true → count_dots s = 0.
Proof.
  intros Hdot. induction s as [|c s IH]; simpl; [done|].
  intros [Hc Hs]%andb_true_iff. unfold count_dots in *.
  rewrite filter_cons_False; [by apply IH|]. intros ->. congruence.
Qed.

Lemma tile_form_dots s pre ds ext nl :
  tile_form s pre ds ext nl → count_dots s = count_dots pre + 2.
Proof.
  intros (-> & _ & Hdig & _ & Hword & Hnl).
  change (dot :: ds ++ dot :: ext ++ nl) with ([dot] ++ ds ++ [dot] ++ ext ++ nl).
  rewrite !count_dots_app.
  rewrite (count_dots_class is_digit ds), (count_dots_class is_word ext) by done.
  assert (count_dots nl = 0) as -> by (by destruct Hnl as [->| ->]).
  change (count_dots [dot]) with 1. lia.
Qed.

Lemma tile_form_cons c s pre ds ext nl :
  tile_form s pre ds ext nl → tile_form (c :: s) (c :: pre) ds ext nl.
Proof. intros (-> & ?). by split. Qed.

Lemma tile_form_cons_inv c s pre ds ext nl :
  tile_form (c :: s) (c :: pre) ds ext nl → tile_form s pre ds ext nl.
Proof. intros (Hs & ?). split; [|done]. by injection Hs. Qed.

(** The pattern matches at the first dot of the suffix and nowhere to
    its left. *)
Lemma tile_form_no_earlier c s pre ds ext nl :
  tile_form (c :: s) (c :: pre) ds ext nl →
  match_here udim_pattern (c :: s) = None.
Proof.
  intros Hform.
  destruct (match_here udim_pattern (c :: s)) as [[rest g]|] eqn:Hm; [|done].
  apply match_here_form in Hm as (ds' & ext' & Hform' & _).
  apply tile_form_dots in Hform as Hn. apply tile_form_dots in Hform' as Hn'.
  destruct Hform' as (Hs & _). injection Hs as -> _.
  unfold count_dots in *. rewrite filter_cons_True in Hn by done.
  simpl in *. lia.
Qed.

End TileForm.

(** ** The substitution rewrites the tile suffix and nothing else *)

Section SubFacts.
Import Re TileSpec.

Lemma sub_from_skip r tmpl a b :
  sub_from r tmpl (length a) (a ++ b) = sub_from r tmpl 0 b.
Proof. induction a as [|c a IH]; [done|]. simpl. apply IH. Qed.

Lemma sub_at_end nl :
  nl = [] ∨ nl = [newline] → sub udim_pattern udim_template nl = nl.
Proof. by intros [-> | ->]. Qed.

Lemma sub_no_tile s :
  (∀ pre ds ext nl, ¬ tile_form s pre ds ext nl) →
  sub udim_pattern udim_template s = s.
Proof.
  unfold sub. induction s as [|c s IH]; intros Hno; [done|].
  cbn [sub_from].
  destruct (match_here udim_pattern (c :: s)) as [[rest g]|] eqn:Hm.
  - apply match_here_form in Hm as (ds & ext & Hform & _).
    by destruct (Hno _ _ _ _ Hform).
  - f_equal. apply IH. intros pre ds ext nl Hform.
    apply (Hno (c :: pre) ds ext nl). by apply tile_form_cons.
Qed.

Lemma sub_tile s pre ds ext nl :
  tile_form s pre ds ext nl →
  sub udim_pattern udim_template s = pre ++ udim_template ++ dot :: ext ++ nl.
Proof.
  unfold sub. revert s. induction pre as [|c pre IH]; intros s Hform.
  - pose proof (form_match_here _ _ _ _ Hform) as Hm.
    destruct Hform as (-> & _ & _ & _ & _ & Hnl).
    cbn [sub_from app]. cbn [app] in Hm. rewrite Hm.
    change (default [] (Some (dot :: ext))) with (dot :: ext).
    replace (length (dot :: ds ++ dot :: ext ++ nl) - length nl)
      with (S (length (ds ++ dot :: ext))).
    2:{ cbn [length]. rewrite !length_app. cbn [length]. rewrite length_app. lia. }
    replace (ds ++ dot :: ext ++ nl) with ((ds ++ dot :: ext) ++ nl)
      by (by rewrite <- (assoc_L (++))).
    rewrite <- (assoc_L (++) udim_template). f_equal.
    change ((dot :: ext) ++ ?x) with (dot :: ext ++ x). do 2 f_equal.
    rewrite sub_from_skip. by apply sub_at_end.
  - destruct s as [|c' s]; [by destruct Hform as ([=] & _)|].
    assert (c' = c) as -> by (by destruct Hform as ([= -> _] & _)).
    cbn [sub_from]. rewrite (tile_form_no_earlier _ _ _ _ _ _ Hform).
    cbn [app]. f_equal. apply IH. by eapply tile_form_cons_inv.
Qed.

(** *** The right-to-left reading agrees with [tile_form] *)

Lemma strip_newline_spec s body nl :
  strip_newline s = (body, nl) → s = body ++ nl ∧ (nl = [] ∨ nl = [newline]).
Proof.
  revert body nl. induction s as [|c s IH]; intros body nl; simpl.
  - intros [= <- <-]. auto.
  - destruct s as [|c' s'].
    + destruct (decide (c = newline)) as [->|]; intros [= <- <-]; auto.
    + destruct (strip_newline (c' :: s')) as [b n].
      intros [= <- <-]. destruct (IH b n eq_refl) as [-> ?]. auto.
Qed.

Lemma strip_newline_app body nl :
  body ≠ [] → last body ≠ Some newline → nl = [] ∨ nl = [newline] →
  strip_newline (body ++ nl) = (body, nl).
Proof.
  intros Hne Hlast Hnl. induction body as [|c body IH]; [done|].
  destruct body as [|c' body].
  - simpl in *. destruct Hnl as [-> | ->]; simpl.
    + rewrite decide_False; [done|congruence].
    + done.
  - cbn [app strip_newline] in *. rewrite IH; done.
Qed.

Lemma split_last_dot_spec s a b :
  split_last_dot s = Some (a, b) → s = a ++ dot :: b.
Proof.
  revert a. induction s as [|c s IH]; intros a; simpl; [done|].
  destruct (split_last_dot s) as [[a' b']|].
  - intros [= <- <-]. by rewrite (IH a' eq_refl).
  - destruct (decide (c = dot)) as [->|]; [|done]. by intros [= <- <-].
Qed.

Lemma split_last_dot_none s : count_dots s = 0 → split_last_dot s = None.
Proof.
  unfold count_dots. induction s as [|c s IH]; simpl; [done|].
  destruct (decide (c = dot)) as [->|Hc].
  - by rewrite filter_cons_True.
  - rewrite filter_cons_False by done. intros H. by rewrite IH.
Qed.

Lemma split_last_dot_app a b :
  count_dots b = 0 → split_last_dot (a ++ dot :: b) = Some (a, b).
Proof.
  intros Hb. induction a as [|c a IH]; simpl.
  - by rewrite split_last_dot_none.
  - by rewrite IH.
Qed.

Lemma nonempty_true {A} (l : list A) : nonempty l = true ↔ l ≠ [].
Proof. by destruct l. Qed.

Lemma last_class cls (l : list ascii) c :
  forallb cls l = true → last l = Some c → cls c = true.
Proof.
  induction l as [|x l IH]; [done|]. simpl.
  intros [Hx Hl]%andb_true_iff. destruct l as [|y l]; [by intros [= <-]|].
  by apply IH.
Qed.

Lemma tile_parts_form s pre ext nl :
  tile_parts s = Some (pre, ext, nl) ↔ ∃ ds, tile_form s pre ds ext nl.
Proof.
  unfold tile_parts. split.
  - destruct (strip_newline s) as [body nl'] eqn:Hstrip.
    apply strip_newline_spec in Hstrip as [-> Hnl].
    destruct (split_last_dot body) as [[stem ext']|] eqn:Hbody; [|done].
    apply split_last_dot_spec in Hbody as ->.
    destruct (split_last_dot stem) as [[pre' ds]|] eqn:Hstem; [|done].
    apply split_last_dot_spec in Hstem as ->.
    destruct (_ && _) eqn:Hcond; [|done]. intros [= <- <- <-].
    apply andb_true_iff in Hcond as [[[?%nonempty_true ?]%andb_true_iff
      ?%nonempty_true]%andb_true_iff ?].
    exists ds. repeat split; try done.
    by rewrite <- !(assoc_L (++)).
  - intros (ds & -> & Hds & Hdig & Hext & Hword & Hnl).
    replace (pre ++ dot :: ds ++ dot :: ext ++ nl)
      with (((pre ++ dot :: ds) ++ dot :: ext) ++ nl)
      by (by rewrite <- !(assoc_L (++))).
    rewrite strip_newline_app; [|by destruct (pre ++ dot :: ds)| |done].
    2:{ rewrite last_app. destruct (last (dot :: ext)) as [c|] eqn:Hl.
        - destruct ext as [|w ext]; [done|]. cbn [last] in Hl.
          intros [= ->]. by pose proof (last_class _ _ _ Hword Hl).
        - by apply last_None in Hl. }
    rewrite split_last_dot_app by (by apply (count_dots_class is_word)).
    rewrite split_last_dot_app by (by apply (count_dots_class is_digit)).
    apply nonempty_true in Hds, Hext. by rewrite Hds, Hdig, Hext, Hword.
Qed.

Lemma str_chars s : str (chars s) = s.
Proof. apply string_of_list_ascii_of_string. Qed.

Lemma chars_str l : chars (str l) = l.
Proof. apply list_ascii_of_string_of_list_ascii. Qed.

(** The regular-expression substitution computes the key of the
    specification. *)
Lemma udim_sub_key_of filename : udim_sub filename = key_of filename.
Proof.
  unfold udim_sub, key_of.
  destruct (tile_parts (chars filename)) as [[[pre ext] nl]|] eqn:Hparts.
  - apply tile_parts_form in Hparts as [ds Hform].
    by rewrite (sub_tile _ _ _ _ _ Hform).
  - rewrite sub_no_tile; [apply str_chars|].
    intros pre ds ext nl Hform.
    assert (tile_parts (chars filename) = Some (pre, ext, nl)) as Heq
      by (apply tile_parts_form; eauto).
    congruence.
Qed.

End SubFacts.

(** ** Grouping with an insertion-ordered dictionary *)

Section GroupBy.
Import TileSpec.
Context {K V : Type} `{EqDecision K} (key : V → K).

Implicit Types (k : K) (x : V) (xs : list V) (ks : list K).

Lemma filter_none {A} (P : A → Prop) `{∀ a, Decision (P a)} (l : list A) :
  (∀ a, a ∈ l → ¬ P a) → filter P l = [].
Proof.
  induction l as [|a l IH]; intros Hl; [done|].
  rewrite filter_cons_False by (apply Hl; left).
  apply IH. intros b Hb. apply Hl. by right.
Qed.

Lemma elem_of_first_seen k ks : k ∈ first_seen ks ↔ k ∈ ks.
Proof.
  induction ks as [|k0 ks IH]; simpl; [done|].
  rewrite !elem_of_cons, list_elem_of_filter, IH.
  destruct (decide (k = k0)); tauto.
Qed.

Lemma NoDup_first_seen ks : NoDup (first_seen ks).
Proof.
  induction ks as [|k0 ks IH]; simpl; constructor.
  - rewrite list_elem_of_filter. by intros [Hc _].
  - by apply NoDup_filter.
Qed.

Lemma first_seen_snoc ks k :
  first_seen (ks ++ [k]) =
    if decide (k ∈ ks) then first_seen ks else first_seen ks ++ [k].
Proof.
  induction ks as [|k0 ks IH]; simpl.
  - done.
  - rewrite IH. destruct (decide (k = k0)) as [->|Hne].
    + rewrite (decide_True (P := k0 ∈ k0 :: ks)) by left.
      destruct (decide (k0 ∈ ks)); [done|].
      rewrite filter_app, filter_cons_False by (intros Hc; by apply Hc).
      by rewrite filter_nil, (right_id_L [] (++)).
    + destruct (decide (k ∈ ks)) as [Hin|Hnin].
      * by rewrite decide_True by (by right).
      * rewrite decide_False by (rewrite elem_of_cons; tauto).
        by rewrite filter_app, filter_cons_True by done.
Qed.

(** Appending under a key of a dictionary whose keys are distinct. *)
Lemma setdefault_append_fmap (g : K → list V) k x ks :
  NoDup ks →
  setdefault_append k x ((λ k', (k', g k')) <$> ks) =
    if decide (k ∈ ks)
    then (λ k', (k', if decide (k' = k) then g k' ++ [x] else g k')) <$> ks
    else ((λ k', (k', g k')) <$> ks) ++ [(k, [x])].
Proof.
  induction 1 as [|k0 ks Hnin Hnd IH]; [done|].
  rewrite !fmap_cons. cbn [setdefault_append].
  destruct (decide (k0 = k)) as [->|Hne].
  - rewrite decide_True by left. f_equal. apply list_fmap_ext. intros i k' Hk'.
    rewrite decide_False; [done|]. intros ->.
    by apply list_elem_of_lookup_2 in Hk'.
  - rewrite IH. destruct (decide (k ∈ ks)) as [Hin|Hnin'].
    + by rewrite decide_True by (by right).
    + by rewrite decide_False by (rewrite elem_of_cons; intros [?|?]; done).
Qed.

Lemma group_dict_keyed xs : group_dict key xs = keyed_groups key xs.
Proof.
  unfold group_dict, keyed_groups.
  induction xs as [|x xs IH] using rev_ind; [done|].
  rewrite fold_left_app. cbn [fold_left]. rewrite IH.
  rewrite setdefault_append_fmap by apply NoDup_first_seen.
  rewrite fmap_app. cbn [fmap list_fmap]. rewrite first_seen_snoc.
  rewrite (decide_ext (key x ∈ first_seen (key <$> xs)) (key x ∈ key <$> xs))
    by apply elem_of_first_seen.
  destruct (decide (key x ∈ key <$> xs)) as [Hin|Hnin].
  - apply list_fmap_ext. intros i k Hk. f_equal.
    rewrite filter_app. destruct (decide (k = key x)) as [->|Hne].
    + by rewrite filter_cons_True.
    + rewrite filter_cons_False by done.
      by rewrite filter_nil, (right_id_L [] (++)).
  - rewrite fmap_app. cbn [fmap list_fmap]. f_equal.
    + apply list_fmap_ext. intros i k Hk. f_equal.
      rewrite filter_app, filter_cons_False.
      * by rewrite filter_nil, (right_id_L [] (++)).
      * intros Heq. apply Hnin. rewrite Heq.
        apply elem_of_first_seen. by eapply list_elem_of_lookup_2.
    + do 2 f_equal. rewrite filter_app, filter_cons_True by done.
      rewrite filter_none; [done|].
      intros y Hy Heq. apply Hnin. rewrite <- Heq.
      by apply list_elem_of_fmap_2.
Qed.

Lemma setdefault_append_concat k x (d : list (K * list V)) :
  concat (setdefault_append k x d).*2 ≡ₚ x :: concat d.*2.
Proof.
  induction d as [|[k0 vs] d IH]; simpl; [done|].
  destruct (decide (k0 = k)); simpl.
  - rewrite <- (assoc_L (++)). simpl. by rewrite Permutation_middle.
  - rewrite IH. by rewrite Permutation_middle.
Qed.

Lemma group_dict_concat xs : concat (group_dict key xs).*2 ≡ₚ xs.
Proof.
  unfold group_dict. induction xs as [|x xs IH] using rev_ind; [done|].
  rewrite fold_left_app. cbn [fold_left].
  rewrite setdefault_append_concat, IH. by rewrite Permutation_cons_append.
Qed.

Lemma group_dict_sublist xs g :
  g ∈ (group_dict key xs).*2 → g `sublist_of` xs.
Proof.
  rewrite group_dict_keyed. unfold keyed_groups.
  rewrite <- list_fmap_compose. intros (k & -> & _)%list_elem_of_fmap.
  apply sublist_filter.
Qed.

(** *** Grouping a list that is already laid out in blocks *)

Lemma setdefault_append_fresh k x (d : list (K * list V)) :
  k ∉ d.*1 → setdefault_append k x d = d ++ [(k, [x])].
Proof.
  induction d as [|[k0 vs] d IH]; simpl; [done|].
  rewrite not_elem_of_cons. intros [Hne Hd].
  rewrite decide_False by done. by rewrite IH.
Qed.

Lemma setdefault_append_last k x vs (d : list (K * list V)) :
  k ∉ d.*1 →
  setdefault_append k x (d ++ [(k, vs)]) = d ++ [(k, vs ++ [x])].
Proof.
  induction d as [|[k0 vs0] d IH]; simpl.
  - intros _. by rewrite decide_True.
  - rewrite not_elem_of_cons. intros [Hne Hd].
    rewrite decide_False by done. by rewrite IH.
Qed.

Lemma fold_block k vs block (d : list (K * list V)) :
  k ∉ d.*1 → Forall (λ x, key x = k) block →
  fold_left (λ d x, setdefault_append (key x) x d) block (d ++ [(k, vs)])
  = d ++ [(k, vs ++ block)].
Proof.
  intros Hk Hblock. revert vs.
  induction Hblock as [|x block Hx _ IH]; intros vs; simpl.
  - by rewrite (right_id_L [] (++)).
  - rewrite Hx, setdefault_append_last, IH by done.
    by rewrite <- (assoc_L (++)).
Qed.

Lemma fold_blocks (B : K → list V) ks (d : list (K * list V)) :
  NoDup (d.*1 ++ ks) →
  (∀ k, k ∈ ks → B k ≠ [] ∧ Forall (λ x, key x = k) (B k)) →
  fold_left (λ d x, setdefault_append (key x) x d) (concat (B <$> ks)) d
  = d ++ ((λ k, (k, B k)) <$> ks).
Proof.
  revert d. induction ks as [|k ks IH]; intros d Hnd HB; simpl.
  - by rewrite (right_id_L [] (++)).
  - destruct (HB k) as [Hne Hall]; [left|].
    destruct (B k) as [|x block] eqn:HBk; [done|].
    apply Forall_cons in Hall as [Hx Hall].
    assert (k ∉ d.*1) as Hk.
    { apply NoDup_app in Hnd as (_ & Hdis & _). intros Hin.
      apply (Hdis k Hin). left. }
    rewrite fold_left_app. simpl.
    rewrite Hx, setdefault_append_fresh by done.
    rewrite (fold_block k [x] block d) by done. simpl.
    rewrite IH.
    + by rewrite <- (assoc_L (++)).
    + rewrite fmap_app. simpl. rewrite <- (assoc_L (++)). simpl.
      by rewrite <- Permutation_middle in Hnd |- *.
    + intros k' Hk'. apply HB. by right.
Qed.

Lemma group_dict_regroup xs :
  group_dict key (concat (group_dict key xs).*2) = group_dict key xs.
Proof.
  rewrite (group_dict_keyed xs). unfold keyed_groups at 1.
  rewrite <- list_fmap_compose. unfold group_dict at 1.
  rewrite (fold_blocks (snd ∘ (λ k, (k, filter (λ x, key x = k) xs)))).
  - done.
  - simpl. apply NoDup_first_seen.
  - intros k [y [-> Hy]]%elem_of_first_seen%list_elem_of_fmap. split.
    + intros Hnil. by apply (filter_nil_not_elem_of _ _ y Hnil).
    + apply Forall_forall. by intros x [? _]%list_elem_of_filter.
Qed.

Lemma group_dict_ext (key' : V → K) xs :
  (∀ x, key x = key' x) → group_dict key xs = group_dict key' xs.
Proof.
  intros Heq. unfold group_dict. generalize (@nil (K * list V)).
  induction xs as [|x xs IH]; intros d; simpl; [done|].
  by rewrite Heq, IH.
Qed.


End GroupBy.

(** ** Keys under [posixpath.basename] *)

Lemma split_on_nonempty sep s : split_on sep s ≠ [].
Proof.
  destruct s as [|c s]; simpl; [done|].
  destruct (decide (c = sep)); [done|]. by destruct (split_on sep s).
Qed.

Lemma key_of_idempotent filename :
  TileSpec.key_of (TileSpec.key_of filename) = TileSpec.key_of filename.
Proof.
  unfold TileSpec.key_of at 2 3.
  destruct (TileSpec.tile_parts (chars filename)) as [[[pre ext] nl]|] eqn:Hparts;
    [|unfold TileSpec.key_of; by rewrite Hparts].
  apply tile_parts_form in Hparts as (ds & _ & _ & _ & Hext & Hword & Hnl).
  unfold TileSpec.key_of. rewrite chars_str.
  replace (TileSpec.tile_parts (pre ++ chars ".<UDIM>." ++ ext ++ nl))
    with (@None (list ascii * list ascii * list ascii)); [done|].
  unfold TileSpec.tile_parts.
  replace (pre ++ chars ".<UDIM>." ++ ext ++ nl)
    with (((pre ++ dot :: chars "<UDIM>") ++ dot :: ext) ++ nl)
    by (by rewrite <- !(assoc_L (++))).
  rewrite strip_newline_app; [|by destruct (pre ++ dot :: chars "<UDIM>")| |done].
  2:{ rewrite last_app. destruct (last (dot :: ext)) as [c|] eqn:Hl.
      - destruct ext as [|w ext]; [done|]. cbn [last] in Hl.
        intros [= ->]. by pose proof (last_class _ _ _ Hword Hl).
      - by apply last_None in Hl. }
  rewrite split_last_dot_app by (by apply (count_dots_class Re.is_word)).
  by rewrite split_last_dot_app.
Qed.

Lemma split_on_no_sep sep s : sep ∉ chars s → split_on sep s = [s].
Proof.
  induction s as [|c s IH]; simpl; [done|].
  rewrite not_elem_of_cons. intros [Hc Hs].
  rewrite decide_False by done. by rewrite IH.
Qed.

Lemma split_on_segments sep s seg : seg ∈ split_on sep s → sep ∉ chars seg.
Proof.
  revert seg. induction s as [|c s IH]; intros seg; simpl.
  { intros ->%list_elem_of_singleton. apply not_elem_of_nil. }
  destruct (decide (c = sep)) as [->|Hc].
  - rewrite elem_of_cons. intros [->|Hseg]; [apply not_elem_of_nil|by apply IH].
  - destruct (split_on sep s) as [|p ps]; simpl.
    + intros ->%list_elem_of_singleton. simpl.
      rewrite not_elem_of_cons. split; [done|apply not_elem_of_nil].
    + rewrite elem_of_cons. intros [->|Hseg].
      * simpl. rewrite not_elem_of_cons. split; [done|]. apply IH. left.
      * apply IH. by right.
Qed.

Lemma posixpath_basename_no_slash p : slash ∉ chars (posixpath_basename p).
Proof.
  apply (split_on_segments slash p). unfold posixpath_basename.
  destruct (split_on slash p) as [|seg segs] eqn:Hsplit.
  { by destruct (split_on_nonempty slash p). }
  generalize seg. clear. induction segs as [|seg' segs IH]; intros seg; simpl.
  - left.
  - right. apply IH.
Qed.

Lemma posixpath_basename_plain s :
  slash ∉ chars s → posixpath_basename s = s.
Proof. intros Hs. unfold posixpath_basename. by rewrite split_on_no_sep. Qed.

Lemma key_of_no_slash filename :
  slash ∉ chars filename → slash ∉ chars (TileSpec.key_of filename).
Proof.
  intros Hs. unfold TileSpec.key_of.
  destruct (TileSpec.tile_parts (chars filename)) as [[[pre ext] nl]|] eqn:Hparts;
    [|done].
  apply tile_parts_form in Hparts as (ds & Hname & _).
  rewrite Hname in Hs. rewrite chars_str.
  rewrite !elem_of_app, !elem_of_cons, !elem_of_app, !elem_of_cons,
    !elem_of_app in Hs.
  assert (slash ∉ chars ".<UDIM>.") as Htmpl.
  { intros Hin%list_elem_of_In. vm_compute in Hin. intuition discriminate. }
  rewrite !elem_of_app. tauto.
Qed.

Lemma udim_key_posix_idempotent path :
  udim_key posixpath_basename (udim_key posixpath_basename path)
  = udim_key posixpath_basename path.
Proof.
  unfold udim_key.
  rewrite (posixpath_basename_plain (udim_sub _)).
  - rewrite !udim_sub_key_of. apply key_of_idempotent.
  - rewrite udim_sub_key_of. apply key_of_no_slash, posixpath_basename_no_slash.
Qed.

(** ** The grouper against the specification *)

Section GrouperFacts.
Import TileSpec.
Variable basename : string → string.

Lemma udim_key_key_of path : udim_key basename path = key_of (basename path).
Proof. apply udim_sub_key_of. Qed.

Lemma texture_groups_keyed paths :
  texture_groups basename paths = keyed_groups (udim_key basename) paths.
Proof. apply (group_dict_keyed (udim_key basename)). Qed.

Lemma elem_of_groups g paths :
  g ∈ _group_texture_sequences basename paths ↔
  ∃ p, p ∈ paths ∧
    g = filter (λ q, udim_key basename q = udim_key basename p) paths.
Proof.
  unfold _group_texture_sequences. rewrite texture_groups_keyed.
  unfold keyed_groups. rewrite <- list_fmap_compose, list_elem_of_fmap.
  split.
  - intros (k & -> & (p & -> & Hp)%elem_of_first_seen%list_elem_of_fmap).
    by exists p.
  - intros (p & Hp & ->). exists (udim_key basename p). split; [done|].
    by apply elem_of_first_seen, list_elem_of_fmap_2.
Qed.

End GrouperFacts.

(** C2.  The key of a path is its final component with the tile suffix — a
    dot, one or more digits, a dot and the extension, at the end of the
    name — rewritten to a dot, the placeholder, a dot and the same
    extension; paths with the same key form one group, the groups come in
    first-seen key order and their members in input order; on the
    specification's example the output is the two groups it gives. *)
Theorem group_texture_sequences_by_key :
  (∀ basename path,
     udim_key basename path = TileSpec.key_of (basename path))
  ∧ (∀ basename paths,
       _group_texture_sequences basename paths
       = TileSpec.groups_by_key (λ p, TileSpec.key_of (basename p)) paths)
  ∧ _group_texture_sequences posixpath_basename
      ["T_Base_Color.1001.exr"; "T_Base_Color.1002.exr"; "T_Roughness.exr"]
    = [["T_Base_Color.1001.exr"; "T_Base_Color.1002.exr"]; ["T_Roughness.exr"]].
Proof.
  split; [|split].
  - intros basename path. apply udim_key_key_of.
  - intros basename paths. unfold _group_texture_sequences, TileSpec.groups_by_key.
    rewrite <- (group_dict_keyed (λ p, TileSpec.key_of (basename p))).
    f_equal. apply (group_dict_ext (udim_key basename)).
    intros p. apply udim_key_key_of.
  - reflexivity.
Qed.

(** C10.  The groups, concatenated in order, are a permutation of the
    input: every path occurs in them as often as in the input, unchanged;
    and every group lists its members in their input order. *)
Theorem group_texture_sequences_permutation basename paths :
  concat (_group_texture_sequences basename paths) ≡ₚ paths
  ∧ (∀ p, length (filter (λ q, q = p)
                    (concat (_group_texture_sequences basename paths)))
          = length (filter (λ q, q = p) paths))
  ∧ Forall (λ g, g `sublist_of` paths) (_group_texture_sequences basename paths).
Proof.
  assert (concat (_group_texture_sequences basename paths) ≡ₚ paths) as Hperm
    by apply (group_dict_concat (udim_key basename)).
  split; [done|split].
  - intros p. by rewrite Hperm.
  - apply Forall_forall. intros g Hg.
    by apply (group_dict_sublist (udim_key basename)).
Qed.

(** C9.  Substituting in an already derived key changes nothing, and so
    does deriving the key of a key (with [posixpath.basename]); grouping
    the same list twice gives the same groups, and so does grouping the
    groups laid end to end. *)
Theorem udim_key_idempotent :
  (∀ filename, udim_sub (udim_sub filename) = udim_sub filename)
  ∧ (∀ path,
       udim_key posixpath_basename (udim_key posixpath_basename path)
       = udim_key posixpath_basename path)
  ∧ (∀ basename paths,
       let first := _group_texture_sequences basename paths in
       let second := _group_texture_sequences basename paths in
       second = first)
  ∧ (∀ basename paths,
       _group_texture_sequences basename
         (concat (_group_texture_sequences basename paths))
       = _group_texture_sequences basename paths).
Proof.
  split; [|split; [|split]].
  - intros filename. rewrite !udim_sub_key_of. apply key_of_idempotent.
  - apply udim_key_posix_idempotent.
  - done.
  - intros basename paths. unfold _group_texture_sequences. f_equal.
    apply (group_dict_regroup (udim_key basename)).
Qed.

(** C8, as the code has it.  A path whose final component has no tile
    suffix keeps that component as its key, and its group is made of all
    the input paths with that key, in input order: it is the only group
    that holds the path, and it is the singleton of the path exactly when
    no other entry of the input has that key. *)
Theorem plain_name_group basename paths p :
  p ∈ paths →
  TileSpec.has_tile_suffix (basename p) = false →
  udim_key basename p = basename p
  ∧ (let g := filter (λ q, udim_key basename q = basename p) paths in
     g ∈ _group_texture_sequences basename paths
     ∧ p ∈ g
     ∧ (∀ g', g' ∈ _group_texture_sequences basename paths → p ∈ g' → g' = g)
     ∧ (length g = 1 ↔ [p] ∈ _group_texture_sequences basename paths)).
Proof.
  intros Hp Hplain.
  assert (udim_key basename p = basename p) as Hkey.
  { rewrite udim_key_key_of. unfold TileSpec.key_of.
    unfold TileSpec.has_tile_suffix in Hplain.
    apply bool_decide_eq_false_1 in Hplain.
    destruct (TileSpec.tile_parts (chars (basename p))); [|done].
    by destruct Hplain. }
  split; [done|]. cbv zeta. rewrite <- Hkey.
  set (g := filter (λ q, udim_key basename q = udim_key basename p) paths).
  assert (p ∈ g) as Hpg by (by apply list_elem_of_filter).
  assert (∀ g', g' ∈ _group_texture_sequences basename paths → p ∈ g' → g' = g)
    as Honly.
  { intros g' (p' & Hp' & ->)%elem_of_groups [Heq _]%list_elem_of_filter.
    unfold g. by rewrite Heq. }
  assert (g ∈ _group_texture_sequences basename paths) as Hg.
  { apply elem_of_groups. by exists p. }
  repeat split; try done.
  - intros Hlen. destruct g as [|x [|y g0]] eqn:Hgeq; try done.
    by apply list_elem_of_singleton in Hpg as ->.
  - intros Hin. rewrite <- (Honly [p] Hin); [done|]. apply list_elem_of_here.
Qed.

Lemma plain_name_group_witness :
  "T_Roughness.exr" ∈ ["T_Base_Color.1001.exr"; "T_Roughness.exr"]
  ∧ TileSpec.has_tile_suffix (posixpath_basename "T_Roughness.exr") = false
  ∧ udim_key posixpath_basename "T_Roughness.exr" = "T_Roughness.exr".
Proof.
  assert ("T_Roughness.exr" ∈ ["T_Base_Color.1001.exr"; "T_Roughness.exr"])
    as Hin by (apply list_elem_of_further, list_elem_of_here).
  split; [exact Hin|]. split; [reflexivity|].
  exact (proj1 (plain_name_group posixpath_basename _ _ Hin eq_refl)).
Defined.

(** C8 as stated fails: two exports of the same map in different folders
    have no tile suffix, yet they share one group. *)
Lemma plain_name_not_singleton :
  let paths := ["maps/T_Roughness.exr"; "backup/T_Roughness.exr"] in
  "maps/T_Roughness.exr" ∈ paths
  ∧ TileSpec.has_tile_suffix (posixpath_basename "maps/T_Roughness.exr") = false
  ∧ _group_texture_sequences posixpath_basename paths = [paths]
  ∧ ["maps/T_Roughness.exr"] ∉ _group_texture_sequences posixpath_basename paths.
Proof.
  cbv zeta. split; [apply list_elem_of_here|]. split; [reflexivity|].
  split; [reflexivity|].
  change (_group_texture_sequences posixpath_basename
            ["maps/T_Roughness.exr"; "backup/T_Roughness.exr"])
    with [["maps/T_Roughness.exr"; "backup/T_Roughness.exr"]].
  by intros [=]%list_elem_of_singleton.
Qed.

(** * Properties of the menu builder *)

(** ** Sample menus *)

Example menu_paths :
  setup_menu_items
    {| commands := [("Publish/Textures", sample_command 1 None None);
                    ("Publish/Model", sample_command 2 None None);
                    ("Reload", sample_command 3 None None)];
       menu_favourites := [];
       context := sample_context |}
  = ([MenuAction "Asset Hero"
        [Action "Jump to ShotGrid" jump_to_sg None true; Separator];
      Separator; Separator;
      MenuAction "Other Items"
        [MenuAction "Publish"
           [Action "Model" (engine_callback 2) None true;
            Action "Textures" (engine_callback 1) None true];
         Action "Reload" (engine_callback 3) None true]],
     Returned ()).
Proof. reflexivity. Qed.

(** A command with a tooltip stops the building of the menu: its action is
    the last one added, and the commands after it are left out. *)
Example menu_tooltip :
  setup_menu_items
    {| commands := [("Publish...",
                     {| cd_callback := engine_callback 1;
                        cd_properties :=
                          {| prop_app := None; prop_type := None;
                             prop_tooltip := Some "Publish the scene";
                             prop_enable_callback := Some false |} |});
                    ("Reload", sample_command 3 None None)];
       menu_favourites := [];
       context := sample_context |}
  = ([MenuAction "Asset Hero"
        [Action "Jump to ShotGrid" jump_to_sg None true; Separator];
      Separator; Separator;
      MenuAction "Other Items"
        [Action "Publish..." (engine_callback 1) None true]],
     Raised AttributeError).
Proof. reflexivity. Qed.

(** ** Sequencing *)

Lemma bind_Returned {A B} (m : Build A) (f : A → Build B) root root' a :
  m root = (root', Returned a) → (m ≫= f) root = f a root'.
Proof. intros Hm. unfold mbind, Build_bind. by rewrite Hm. Qed.

Lemma bind_Raised {A B} (m : Build A) (f : A → Build B) root root' e :
  m root = (root', Raised e) → (m ≫= f) root = (root', Raised e).
Proof. intros Hm. unfold mbind, Build_bind. by rewrite Hm. Qed.

Lemma for_each_nil {A} (body : A → Build ()) root :
  for_each body [] root = (root, Returned ()).
Proof. done. Qed.

Lemma for_each_cons {A} (body : A → Build ()) x l root :
  for_each body (x :: l) root
  = match body x root with
    | (root', Returned _) => for_each body l root'
    | (root', Raised e) => (root', Raised e)
    end.
Proof. done. Qed.

Lemma for_fold_cons {A B} (body : B → A → Build B) x l b root :
  for_fold body (x :: l) b root
  = match body b x root with
    | (root', Returned b') => for_fold body l b' root'
    | (root', Raised e) => (root', Raised e)
    end.
Proof. done. Qed.


(** ** Sorting *)

Section Sorting.
Context {A : Type} (key : A → string).

Lemma insert_by_perm x l : insert_by key x l ≡ₚ x :: l.
Proof.
  induction l as [|y l IH]; simpl; [done|].
  destruct (String.leb (key x) (key y)); [done|].
  by rewrite IH, Permutation_swap.
Qed.

Lemma sort_by_perm l : sort_by key l ≡ₚ l.
Proof.
  induction l as [|x l IH]; simpl; [done|].
  by rewrite insert_by_perm, IH.
Qed.

Lemma insert_by_sorted x l :
  StronglySorted (key_le key) l → StronglySorted (key_le key) (insert_by key x l).
Proof.
  induction 1 as [|y l Hl IH Hy]; simpl.
  - repeat constructor.
  - destruct (String.leb (key x) (key y)) eqn:Hxy.
    + apply Is_true_true in Hxy. constructor; [by constructor|].
      constructor; [done|].
      eapply Forall_impl; [exact Hy|]. intros z Hz. unfold key_le in *.
      by etrans.
    + constructor; [done|].
      rewrite insert_by_perm. constructor; [|done].
      unfold key_le. destruct (total String.le (key y) (key x)) as [|Hc]; [done|].
      apply Is_true_true in Hc. congruence.
Qed.

Lemma sort_by_sorted l : StronglySorted (key_le key) (sort_by key l).
Proof.
  induction l as [|x l IH]; simpl; [constructor|]. by apply insert_by_sorted.
Qed.

Lemma length_filter_fmap {B} (f : B → A) (P : A → Prop)
    `{∀ a, Decision (P a)} (l : list B) :
  length (filter P (f <$> l)) = length (filter (λ b, P (f b)) l).
Proof.
  induction l as [|b l IH]; [done|]. rewrite fmap_cons.
  destruct (decide (P (f b))).
  - rewrite !filter_cons_True by done. simpl. by rewrite IH.
  - by rewrite !filter_cons_False by done.
Qed.

End Sorting.

(** C4.  The commands built from [engine.commands] are sorted by name, and
    they are the input entries, each wrapped once: a permutation of the
    wrapped entries, in which every name occurs as often as among the keys
    of the input.  The input is only read; nothing in the model writes to
    it. *)
Theorem build_menu_items_sorted_bijection (cmds : list (string * CommandDict)) :
  StronglySorted (λ a b, String.le (name a) (name b)) (build_menu_items cmds)
  ∧ build_menu_items cmds ≡ₚ (λ e, new_AppCommand e.1 e.2) <$> cmds
  ∧ (∀ n, length (filter (λ c, name c = n) (build_menu_items cmds))
          = length (filter (λ e, e.1 = n) cmds)).
Proof.
  assert (build_menu_items cmds ≡ₚ (λ e, new_AppCommand e.1 e.2) <$> cmds)
    as Hperm.
  { unfold build_menu_items. rewrite sort_by_perm.
    rewrite (list_fmap_ext _ (λ e, new_AppCommand e.1 e.2) cmds); [done|].
    by intros i [n d] _. }
  split; [apply (sort_by_sorted name)|]. split; [done|].
  intros n. rewrite Hperm.
  exact (length_filter_fmap (λ e, new_AppCommand e.1 e.2) (λ c, name c = n) cmds).
Qed.

(** ** One favourite *)

Lemma add_favourite_no_match fav menu_items root :
  Forall (λ cmd, is_favourite fav cmd = false) menu_items →
  _add_favourite fav menu_items root = (root, Returned menu_items).
Proof.
  induction 1 as [|cmd rest Hcmd _ IH]; cbn [_add_favourite]; [done|].
  rewrite Hcmd. by rewrite (bind_Returned _ _ _ _ _ IH).
Qed.

Lemma is_favourite_name fav cmd :
  is_favourite fav cmd = true → name cmd = fav_name fav.
Proof. by intros [_ ?]%bool_decide_eq_true_1. Qed.


(** ** Menu references and the tree *)

Lemma menu_actions_app h i root :
  menu_actions (h ++ [i]) root =
    match menu_actions h root with
    | Some acts =>
        match acts !! i with
        | Some (MenuAction _ sub) => Some sub
        | _ => None
        end
    | None => None
    end.
Proof.
  revert root. induction h as [|j h IH]; intros root; simpl.
  - by destruct (root !! i) as [[]|].
  - destruct (root !! j) as [[| |title acts]|]; [done|done|apply IH|done].
Qed.

Lemma addAction_replace_at h a root acts :
  menu_actions h root = Some acts →
  addAction h a root = replace_at h (acts ++ [a]) root.
Proof.
  revert root. induction h as [|j h IH]; intros root; simpl.
  - by intros [= ->].
  - intros Hacts. apply list_alter_ext; [|done]. intros x Hx.
    rewrite Hx in Hacts. destruct x; try done. f_equal. by apply IH.
Qed.

Lemma replace_at_app h i title sub new root acts :
  menu_actions h root = Some acts →
  acts !! i = Some (MenuAction title sub) →
  replace_at (h ++ [i]) new root
  = replace_at h (<[i := MenuAction title new]> acts) root.
Proof.
  revert root. induction h as [|j h IH]; intros root; simpl.
  - intros [= ->] Hi. apply list_eq. intros k.
    destruct (decide (i = k)) as [<-|Hne].
    + rewrite list_lookup_alter_eq, Hi. simpl.
      rewrite list_lookup_insert_eq; [done|]. by eapply lookup_lt_Some.
    + by rewrite list_lookup_alter_ne, list_lookup_insert_ne.
  - intros Hacts Hi. apply list_alter_ext; [|done]. intros x Hx.
    rewrite Hx in Hacts. destruct x; try done. f_equal. by apply IH.
Qed.

Lemma replace_at_replace_at h new new' root :
  replace_at h new (replace_at h new' root) = replace_at h new root.
Proof.
  revert root. induction h as [|j h IH]; intros root; simpl; [done|].
  rewrite list_alter_alter_eq. apply list_alter_ext; [|done].
  intros x _. destruct x; simpl; try done. by rewrite IH.
Qed.

Lemma menu_actions_replace_at h new root acts :
  menu_actions h root = Some acts →
  menu_actions h (replace_at h new root) = Some new.
Proof.
  revert root. induction h as [|j h IH]; intros root; simpl; [done|].
  rewrite list_lookup_alter_eq.
  destruct (root !! j) as [[| |title acts']|]; simpl; [done|done|apply IH|done].
Qed.

Lemma replace_at_same h root acts :
  menu_actions h root = Some acts → replace_at h acts root = root.
Proof.
  revert root. induction h as [|j h IH]; intros root; simpl.
  - by intros [= ->].
  - intros Hacts. apply list_eq. intros k.
    destruct (decide (j = k)) as [<-|Hne].
    + rewrite list_lookup_alter_eq.
      destruct (root !! j) as [[]|]; simpl; try done. by rewrite IH.
    + by rewrite list_lookup_alter_ne.
Qed.

(** A menu reference that is not in the tree: nothing is added through
    it. *)
Lemma addAction_invalid h a root :
  menu_actions h root = None → addAction h a root = root.
Proof.
  revert root. induction h as [|j h IH]; intros root; simpl; [done|].
  intros Hacts. apply list_eq. intros k.
  destruct (decide (j = k)) as [<-|Hne]; [|by rewrite list_lookup_alter_ne].
  rewrite list_lookup_alter_eq.
  destruct (root !! j) as [[| |title acts]|]; simpl; try done.
  by rewrite IH.
Qed.

Lemma menu_actions_app_invalid h i root :
  menu_actions h root = None → menu_actions (h ++ [i]) root = None.
Proof. intros Hacts. by rewrite menu_actions_app, Hacts. Qed.

(** The loop over the labels always returns; it ends at a menu whose
    actions, with the leaf added, are those that [add_path] computes. *)
Lemma for_fold_sub_menu_for labels root h acts :
  menu_actions h root = Some acts →
  ∃ root' h' acts',
    for_fold sub_menu_for labels h root = (root', Returned h')
    ∧ menu_actions h' root' = Some acts'
    ∧ ∀ leaf, replace_at h' (acts' ++ [leaf]) root'
              = replace_at h (add_path labels leaf acts) root.
Proof.
  revert root h acts.
  induction labels as [|label labels IH]; intros root h acts Hacts.
  { exists root, h, acts. by repeat split. }
  rewrite for_fold_cons. cbn [add_path].
  unfold sub_menu_for, _find_sub_menu_item, mbind, Build_bind.
  rewrite Hacts.
  destruct (list_find (λ a, action_text a = label) acts) as [[i a]|] eqn:Hfind.
  - destruct a as [| |title sub].
    1, 2: shelve.
    apply list_find_Some in Hfind as (Hi & _ & _).
    destruct (IH root (h ++ [i]) sub) as (root' & h' & acts' & Hfold & Hacts' & Hleaf).
    { by rewrite menu_actions_app, Hacts, Hi. }
    exists root', h', acts'. repeat split; try done.
    intros leaf. rewrite Hleaf. apply (replace_at_app _ _ _ _ _ _ _ Hacts Hi).
  - shelve.
  Unshelve.
  all: unfold _add_sub_menu; rewrite Hacts;
    change (default [] (Some acts)) with acts;
    rewrite (addAction_replace_at _ _ _ _ Hacts);
    set (root1 := replace_at h (acts ++ [MenuAction label []]) root);
    assert (menu_actions h root1 = Some (acts ++ [MenuAction label []]))
      as Hacts1 by (by eapply menu_actions_replace_at);
    assert ((acts ++ [MenuAction label []]) !! length acts
            = Some (MenuAction label [])) as Hlast
      by (by rewrite lookup_app_r, Nat.sub_diag);
    destruct (IH root1 (h ++ [length acts]) [])
      as (root' & h' & acts' & Hfold & Hacts' & Hleaf);
    [by rewrite menu_actions_app, Hacts1, Hlast|];
    exists root', h', acts'; repeat split; try done;
    intros leaf; rewrite Hleaf;
    rewrite (replace_at_app _ _ _ _ _ _ _ Hacts1 Hlast);
    unfold root1; rewrite replace_at_replace_at; f_equal;
    by rewrite insert_app_r_alt, Nat.sub_diag.
Qed.

Lemma for_fold_sub_menu_for_invalid labels root h :
  menu_actions h root = None →
  ∃ h', for_fold sub_menu_for labels h root = (root, Returned h')
        ∧ menu_actions h' root = None.
Proof.
  revert h. induction labels as [|label labels IH]; intros h Hacts.
  { by exists h. }
  rewrite for_fold_cons.
  unfold sub_menu_for, _find_sub_menu_item, mbind, Build_bind, _add_sub_menu.
  rewrite Hacts, (addAction_invalid _ _ _ Hacts).
  apply IH. by apply menu_actions_app_invalid.
Qed.

Lemma add_menu_item_at item_name h cb props root :
  _add_menu_item item_name h cb props root
  = (addAction h
       (Action item_name cb None
          (if decide (is_Some (props ≫= prop_tooltip)) then true
           else default true (props ≫= prop_enable_callback)))
       root,
     if decide (is_Some (props ≫= prop_tooltip)) then Raised AttributeError
     else Returned ()).
Proof.
  unfold _add_menu_item. destruct (props ≫= prop_tooltip) as [t|].
  - by rewrite !decide_True by (by eexists).
  - by rewrite !decide_False by (by intros [? ?]).
Qed.

(** [add_command_to_menu] on a menu of the tree is [attach] on the actions
    of that menu; it raises exactly when the command has a tooltip. *)
Lemma add_command_to_menu_at cmd h root acts :
  menu_actions h root = Some acts →
  add_command_to_menu cmd h root
  = (replace_at h (attach cmd acts) root, add_outcome cmd).
Proof.
  intros Hacts. unfold add_command_to_menu, attach.
  destruct (for_fold_sub_menu_for (removelast (split_on slash (name cmd)))
              root h acts Hacts) as (root' & h' & acts' & Hfold & Hacts' & Hleaf).
  rewrite (bind_Returned _ _ _ _ _ Hfold), add_menu_item_at.
  rewrite (addAction_replace_at _ _ _ _ Hacts'). by rewrite Hleaf.
Qed.

Lemma add_command_to_menu_root cmd root :
  add_command_to_menu cmd [] root = (attach cmd root, add_outcome cmd).
Proof. exact (add_command_to_menu_at cmd [] root root eq_refl). Qed.

(** Through a reference that is not in the tree nothing is added. *)
Lemma add_command_to_menu_invalid cmd h root :
  menu_actions h root = None →
  add_command_to_menu cmd h root = (root, add_outcome cmd).
Proof.
  intros Hacts. unfold add_command_to_menu.
  destruct (for_fold_sub_menu_for_invalid
              (removelast (split_on slash (name cmd))) root h Hacts)
    as (h' & Hfold & Hacts').
  rewrite (bind_Returned _ _ _ _ _ Hfold), add_menu_item_at.
  by rewrite (addAction_invalid _ _ _ Hacts').
Qed.

Lemma add_command_to_menu_outcome cmd h root :
  (add_command_to_menu cmd h root).2 = add_outcome cmd.
Proof.
  destruct (menu_actions h root) as [acts|] eqn:Hacts.
  - by rewrite (add_command_to_menu_at _ _ _ _ Hacts).
  - by rewrite (add_command_to_menu_invalid _ _ _ Hacts).
Qed.


(** ** Counting the actions connected to a callback *)

Section Count.
Variable cb : Callback.

Lemma count_action_menu title acts :
  count_action cb (MenuAction title acts) = count_menu cb acts.
Proof.
  unfold count_menu. simpl. induction acts as [|a acts IH]; simpl; [done|].
  by rewrite IH.
Qed.

Lemma count_menu_app acts1 acts2 :
  count_menu cb (acts1 ++ acts2) = count_menu cb acts1 + count_menu cb acts2.
Proof. apply sum_list_with_app. Qed.

Lemma count_menu_singleton a : count_menu cb [a] = count_action cb a.
Proof. unfold count_menu. simpl. lia. Qed.

Lemma count_menu_insert acts i x y :
  acts !! i = Some x →
  count_menu cb (<[i := y]> acts) + count_action cb x
  = count_menu cb acts + count_action cb y.
Proof.
  intros Hi. rewrite insert_take_drop by (by eapply lookup_lt_Some).
  rewrite <- (take_drop_middle acts i x Hi) at 3.
  rewrite !count_menu_app. unfold count_menu. simpl. lia.
Qed.

Lemma count_menu_alter acts i f x :
  acts !! i = Some x →
  count_menu cb (alter f i acts) + count_action cb x
  = count_menu cb acts + count_action cb (f x).
Proof.
  intros Hi. rewrite <- (count_menu_insert acts i x (f x) Hi). f_equal. f_equal.
  apply list_eq. intros k. destruct (decide (i = k)) as [<-|].
  - rewrite list_lookup_alter_eq, Hi, list_lookup_insert_eq; [done|].
    by eapply lookup_lt_Some.
  - by rewrite list_lookup_alter_ne, list_lookup_insert_ne.
Qed.

Lemma count_add_path labels leaf acts :
  count_menu cb (add_path labels leaf acts)
  = count_menu cb acts + count_action cb leaf.
Proof.
  revert acts. induction labels as [|label labels IH]; intros acts; simpl.
  { by rewrite count_menu_app, count_menu_singleton. }
  assert (count_menu cb (acts ++ [MenuAction label (add_path labels leaf [])])
          = count_menu cb acts + count_action cb leaf) as Hnew.
  { rewrite count_menu_app, count_menu_singleton, count_action_menu, IH. done. }
  destruct (list_find (λ a, action_text a = label) acts) as [[i a]|] eqn:Hfind;
    [|done].
  destruct a as [| |title sub]; [done|done|].
  apply list_find_Some in Hfind as (Hi & _ & _).
  pose proof (count_menu_insert acts i _
                (MenuAction title (add_path labels leaf sub)) Hi) as Hins.
  rewrite !count_action_menu, IH in Hins. lia.
Qed.

Lemma count_replace_at h new root acts :
  menu_actions h root = Some acts →
  count_menu cb (replace_at h new root) + count_menu cb acts
  = count_menu cb root + count_menu cb new.
Proof.
  revert root. induction h as [|j h IH]; intros root; simpl.
  - intros [= ->]. lia.
  - destruct (root !! j) as [x|] eqn:Hj; [|done].
    destruct x as [| |title sub]; [done|done|]. intros Hacts.
    pose proof (count_menu_alter root j
      (λ x, match x with
            | MenuAction title acts => MenuAction title (replace_at h new acts)
            | _ => x
            end) _ Hj) as Halter.
    cbv beta iota in Halter. rewrite !count_action_menu in Halter.
    specialize (IH sub Hacts). lia.
Qed.

Lemma count_attach cmd acts :
  count_menu cb (attach cmd acts) = count_menu cb acts + connected cb [cmd].
Proof.
  unfold attach. rewrite count_add_path. unfold connected, leaf_of. simpl.
  destruct (decide (callback cmd = cb)).
  - by rewrite filter_cons_True.
  - by rewrite filter_cons_False.
Qed.

Lemma count_add_command_to_menu cmd h root :
  is_Some (menu_actions h root) →
  count_menu cb (add_command_to_menu cmd h root).1
  = count_menu cb root + connected cb [cmd].
Proof.
  intros [acts Hacts]. rewrite (add_command_to_menu_at _ _ _ _ Hacts).
  cbn [fst]. pose proof (count_replace_at h (attach cmd acts) root acts Hacts) as H.
  rewrite count_attach in H. lia.
Qed.

End Count.

(** ** References stay good *)

Lemma extends_refl acts : extends acts acts.
Proof. by intros h. Qed.

Lemma extends_trans acts1 acts2 acts3 :
  extends acts1 acts2 → extends acts2 acts3 → extends acts1 acts3.
Proof. intros H12 H23 h Hh. by apply H23, H12. Qed.

Lemma extends_app acts l : extends acts (acts ++ l).
Proof.
  intros [|i h]; simpl; [done|].
  destruct (acts !! i) as [x|] eqn:Hi; [|by intros []].
  by rewrite (lookup_app_l_Some _ _ _ _ Hi).
Qed.

Lemma extends_insert acts i title sub sub' :
  acts !! i = Some (MenuAction title sub) → extends sub sub' →
  extends acts (<[i := MenuAction title sub']> acts).
Proof.
  intros Hi Hsub [|j h]; simpl; [done|].
  destruct (decide (i = j)) as [<-|Hne].
  - rewrite Hi, list_lookup_insert_eq by (by eapply lookup_lt_Some). apply Hsub.
  - by rewrite list_lookup_insert_ne.
Qed.

Lemma extends_add_path labels leaf acts :
  extends acts (add_path labels leaf acts).
Proof.
  revert acts. induction labels as [|label labels IH]; intros acts; simpl.
  { apply extends_app. }
  destruct (list_find (λ a, action_text a = label) acts) as [[i a]|] eqn:Hfind;
    [|apply extends_app].
  destruct a as [| |title sub]; [apply extends_app|apply extends_app|].
  apply list_find_Some in Hfind as (Hi & _ & _).
  by apply (extends_insert _ _ _ sub).
Qed.

Lemma extends_replace_at h new root acts :
  menu_actions h root = Some acts → extends acts new →
  extends root (replace_at h new root).
Proof.
  revert root. induction h as [|j h IH]; intros root; simpl.
  { by intros [= ->]. }
  destruct (root !! j) as [x|] eqn:Hj; [|done].
  destruct x as [| |title sub]; [done|done|]. intros Hacts Hnew [|k h0]; simpl.
  { done. }
  destruct (decide (j = k)) as [<-|Hne].
  - rewrite list_lookup_alter_eq, Hj. simpl. by apply IH.
  - by rewrite list_lookup_alter_ne.
Qed.

Lemma extends_attach cmd acts : extends acts (attach cmd acts).
Proof. apply extends_add_path. Qed.

Lemma extends_add_command_to_menu cmd h root :
  extends root (add_command_to_menu cmd h root).1.
Proof.
  destruct (menu_actions h root) as [acts|] eqn:Hacts.
  - rewrite (add_command_to_menu_at _ _ _ _ Hacts).
    eapply extends_replace_at; [done|]. apply extends_add_path.
  - rewrite (add_command_to_menu_invalid _ _ _ Hacts). apply extends_refl.
Qed.

(** ** Attaching a list of commands to one menu *)

Lemma connected_cons cb c cmds :
  connected cb (c :: cmds) = connected cb [c] + connected cb cmds.
Proof.
  unfold connected. destruct (decide (callback c = cb)).
  - by rewrite !filter_cons_True by done.
  - by rewrite !filter_cons_False by done.
Qed.

Lemma connected_app cb cmds1 cmds2 :
  connected cb (cmds1 ++ cmds2) = connected cb cmds1 + connected cb cmds2.
Proof. unfold connected. by rewrite filter_app, length_app. Qed.

Lemma fold_attach cb cmds acts :
  let acts' := fold_left (λ a c, attach c a) cmds acts in
  extends acts acts'
  ∧ count_menu cb acts' = count_menu cb acts + connected cb cmds.
Proof.
  revert acts. induction cmds as [|c cmds IH]; intros acts; simpl.
  { split; [apply extends_refl|]. unfold connected. simpl. lia. }
  destruct (IH (attach c acts)) as [Hext Hcount].
  split; [eapply extends_trans; [apply extends_attach|done]|].
  rewrite Hcount, count_attach, (connected_cons cb c cmds). lia.
Qed.

(** The commands a loop gets to. *)
Lemma reached_all cmds :
  Forall (λ c, ¬ has_tooltip c) cmds → reached cmds = cmds.
Proof.
  induction 1 as [|c cmds Hc _ IH]; simpl; [done|].
  by rewrite decide_False, IH.
Qed.

Lemma loop_outcome_Returned cmds :
  Forall (λ c, ¬ has_tooltip c) cmds → loop_outcome cmds = Returned ().
Proof.
  intros Hall. unfold loop_outcome. rewrite decide_False; [done|].
  by apply Forall_Exists_neg.
Qed.

Lemma loop_outcome_cons c cmds :
  ¬ has_tooltip c → loop_outcome (c :: cmds) = loop_outcome cmds.
Proof.
  intros Hc. unfold loop_outcome. apply decide_ext.
  rewrite Exists_cons. tauto.
Qed.

Lemma loop_outcome_Raised c cmds :
  has_tooltip c → loop_outcome (c :: cmds) = Raised AttributeError.
Proof. intros Hc. unfold loop_outcome. rewrite decide_True; [done|]. by left. Qed.

(** A loop of [add_command_to_menu] over commands, on a menu of the tree:
    the commands it gets to are attached to that menu, in order. *)
Lemma for_each_add_command_to_menu h cmds root acts :
  menu_actions h root = Some acts →
  for_each (λ cmd, add_command_to_menu cmd h) cmds root
  = (replace_at h (fold_left (λ a c, attach c a) (reached cmds) acts) root,
     loop_outcome cmds).
Proof.
  revert root acts. induction cmds as [|c cmds IH]; intros root acts Hacts.
  { simpl. by rewrite (replace_at_same _ _ _ Hacts). }
  rewrite for_each_cons, (add_command_to_menu_at _ _ _ _ Hacts).
  unfold add_outcome. cbn [reached]. destruct (decide (has_tooltip c)) as [Hc|Hc].
  - by rewrite (loop_outcome_Raised _ _ Hc).
  - rewrite (IH _ (attach c acts));
      [|by eapply menu_actions_replace_at].
    by rewrite replace_at_replace_at, (loop_outcome_cons _ _ Hc).
Qed.

Lemma for_each_add_command_to_menu_root cmds root :
  for_each (λ cmd, add_command_to_menu cmd []) cmds root
  = (fold_left (λ a c, attach c a) (reached cmds) root, loop_outcome cmds).
Proof. exact (for_each_add_command_to_menu [] cmds root root eq_refl). Qed.

(** ** The favourites pass *)

Lemma is_favourite_set_favourite fav cmd :
  is_favourite fav (set_favourite cmd) = is_favourite fav cmd.
Proof. done. Qed.

Lemma is_favourite_mark fav fav' cmd :
  is_favourite fav (mark fav' cmd) = is_favourite fav cmd.
Proof. unfold mark. by destruct (is_favourite fav' cmd). Qed.

Lemma has_tooltip_mark fav cmd : has_tooltip (mark fav cmd) ↔ has_tooltip cmd.
Proof. unfold mark. by destruct (is_favourite fav cmd). Qed.

Lemma attach_mark fav cmd : attach (mark fav cmd) = attach cmd.
Proof. unfold mark. by destruct (is_favourite fav cmd). Qed.

Lemma mark_all_cons fav favs cmd :
  mark_all favs (mark fav cmd) = mark_all (fav :: favs) cmd.
Proof.
  unfold mark_all, mark. simpl.
  destruct (is_favourite fav cmd) eqn:Hfav; simpl; [|done].
  by destruct (existsb _ favs).
Qed.

Lemma sum_list_with_eq {A} (f g : A → nat) (l : list A) :
  (∀ x, x ∈ l → f x = g x) → sum_list_with f l = sum_list_with g l.
Proof.
  induction l as [|x l IH]; intros Hfg; simpl; [done|].
  rewrite Hfg by left. rewrite IH; [done|]. intros y Hy. apply Hfg. by right.
Qed.

(** One favourite: its matches are attached to the ShotGrid menu itself,
    in order, up to the first whose menu item raises; the pass returns the
    commands with the matches marked when none raises. *)
Lemma add_favourite_fold fav menu_items root :
  _add_favourite fav menu_items root
  = (fold_left (λ a c, attach c a)
       (reached (filter (λ c, is_favourite fav c = true) menu_items)) root,
     if decide (Exists has_tooltip
                  (filter (λ c, is_favourite fav c = true) menu_items))
     then Raised AttributeError
     else Returned (mark fav <$> menu_items)).
Proof.
  revert root. induction menu_items as [|cmd rest IH]; intros root.
  { cbn. by rewrite decide_False by (by intros ?%Exists_nil). }
  cbn [_add_favourite]. rewrite fmap_cons. unfold mark at 1.
  destruct (is_favourite fav cmd) eqn:Hfav.
  - rewrite filter_cons_True by done. cbn [reached].
    unfold mbind at 1, Build_bind at 1. rewrite add_command_to_menu_root.
    unfold add_outcome. destruct (decide (has_tooltip cmd)) as [Hc|Hc].
    + by rewrite decide_True by (by left).
    + unfold mbind, Build_bind. rewrite IH. cbn [fold_left].
      destruct (decide (Exists has_tooltip
                          (filter (λ c, is_favourite fav c = true) rest)))
        as [Hex|Hex].
      * by rewrite decide_True by (by right).
      * rewrite decide_False; [done|]. rewrite Exists_cons. tauto.
  - rewrite filter_cons_False by congruence.
    unfold mbind, Build_bind. rewrite IH.
    by destruct (decide (Exists has_tooltip _)).
Qed.

Lemma list_bind_fmap_comm {A B C} (g : B → C) (h : A → list B) (l : list A) :
  (l ≫= λ x, g <$> h x) = g <$> (l ≫= h).
Proof.
  induction l as [|x l IH]; [done|]. cbn [mbind list_bind].
  change ((g <$> h x) ++ (l ≫= λ x, g <$> h x) = g <$> (h x ++ (l ≫= h))).
  by rewrite IH, fmap_app.
Qed.

Lemma fold_attach_fmap_mark fav cmds acts :
  fold_left (λ a c, attach c a) (mark fav <$> cmds) acts
  = fold_left (λ a c, attach c a) cmds acts.
Proof.
  revert acts. induction cmds as [|c cmds IH]; intros acts; [done|].
  rewrite fmap_cons. cbn [fold_left]. by rewrite attach_mark, IH.
Qed.

Lemma list_filter_fmap_eq {A B} (f : A → B) (P : B → Prop)
    `{∀ b, Decision (P b)} (l : list A) :
  filter P (f <$> l) = f <$> filter (λ a, P (f a)) l.
Proof.
  induction l as [|a l IH]; [done|]. rewrite fmap_cons.
  destruct (decide (P (f a))).
  - rewrite !filter_cons_True by done. by rewrite fmap_cons, IH.
  - by rewrite !filter_cons_False by done.
Qed.

Lemma favourite_matches_mark fav favs menu_items :
  favourite_matches favs (mark fav <$> menu_items)
  = mark fav <$> favourite_matches favs menu_items.
Proof.
  unfold favourite_matches. rewrite <- list_bind_fmap_comm.
  apply Forall_bind_ext, Forall_forall. intros fav' _.
  rewrite list_filter_fmap_eq.
  f_equal. apply list_filter_iff. intros c. by rewrite is_favourite_mark.
Qed.

(** All favourites, when no match has a tooltip: every match of every
    favourite is attached to the ShotGrid menu itself. *)
Lemma add_favourites_fold favs menu_items root :
  Forall (λ c, ¬ has_tooltip c) (favourite_matches favs menu_items) →
  add_favourites favs menu_items root
  = (fold_left (λ a c, attach c a) (favourite_matches favs menu_items) root,
     Returned (mark_all favs <$> menu_items)).
Proof.
  unfold add_favourites. revert menu_items root.
  induction favs as [|fav favs IH]; intros menu_items root Hall.
  { cbn [for_fold favourite_matches mbind list_bind fold_left].
    unfold mret, Build_ret. f_equal. f_equal.
    rewrite <- (list_fmap_id menu_items) at 1. done. }
  rewrite for_fold_cons, add_favourite_fold.
  change (favourite_matches (fav :: favs) menu_items)
    with (filter (λ c, is_favourite fav c = true) menu_items
          ++ favourite_matches favs menu_items) in *.
  apply Forall_app in Hall as [Hfav Hrest].
  rewrite decide_False by (by apply Forall_Exists_neg).
  rewrite (reached_all _ Hfav), IH.
  - rewrite favourite_matches_mark, fold_attach_fmap_mark, fold_left_app.
    f_equal. f_equal. rewrite <- list_fmap_compose. apply list_fmap_ext.
    intros i c _. apply mark_all_cons.
  - rewrite favourite_matches_mark. apply Forall_fmap.
    eapply Forall_impl; [exact Hrest|]. intros c Hc. cbn.
    by rewrite has_tooltip_mark.
Qed.

(** The favourites pass returns only when no match has a tooltip. *)
Lemma add_favourites_Returned favs menu_items root root' menu_items' :
  add_favourites favs menu_items root = (root', Returned menu_items') →
  Forall (λ c, ¬ has_tooltip c) (favourite_matches favs menu_items).
Proof.
  unfold add_favourites. revert menu_items root.
  induction favs as [|fav favs IH]; intros menu_items root; [by constructor|].
  rewrite for_fold_cons, add_favourite_fold.
  change (favourite_matches (fav :: favs) menu_items)
    with (filter (λ c, is_favourite fav c = true) menu_items
          ++ favourite_matches favs menu_items).
  destruct (decide (Exists has_tooltip _)) as [Hex|Hex]; [done|].
  intros Hrest%IH. apply Forall_app. split.
  - by apply Forall_Exists_neg.
  - rewrite favourite_matches_mark in Hrest.
    rewrite Forall_forall in Hrest. apply Forall_forall. intros c Hc.
    rewrite <- (has_tooltip_mark fav). apply Hrest.
    by apply list_elem_of_fmap_2.
Qed.

Lemma connected_favourite_matches cb favs menu_items :
  connected cb (favourite_matches favs menu_items)
  = sum_list_with
      (λ fav, connected cb (filter (λ c, is_favourite fav c = true) menu_items))
      favs.
Proof.
  unfold favourite_matches. induction favs as [|fav favs IH]; [done|].
  cbn [sum_list_with]. rewrite <- IH, <- connected_app. done.
Qed.

(** ** Loops that return *)

Lemma for_each_returned {A} (body : A → Build ())
    (f : list QAction → A → list QAction) l root :
  (∀ x r, x ∈ l → body x r = (f r x, Returned ())) →
  for_each body l root = (fold_left f l root, Returned ()).
Proof.
  revert root. induction l as [|x l IH]; intros root Hbody; [done|].
  rewrite for_each_cons, Hbody by left. cbn [fold_left].
  apply IH. intros y r Hy. apply Hbody. by right.
Qed.

Lemma for_each_Returned_inv {A} (body : A → Build ()) l root root' :
  for_each body l root = (root', Returned ()) →
  Forall (λ x, ∃ r, (body x r).2 = Returned ()) l.
Proof.
  revert root. induction l as [|x l IH]; intros root; [by constructor|].
  rewrite for_each_cons.
  destruct (body x root) as [r1 [[]|e]] eqn:Hx; [|done].
  intros Hl%IH. constructor; [|done]. exists root. by rewrite Hx.
Qed.

(** ** The pass over the apps *)

(** The loop of [_add_app_menus] attaches the commands of the context
    menu and files the others by app. *)
Lemma add_app_menus_fold menu_items context_menu root acts commands_by_app :
  menu_actions context_menu root = Some acts →
  for_fold (add_app_menu_step context_menu) menu_items commands_by_app root
  = (replace_at context_menu
       (fold_left (λ a c, attach c a)
          (reached (filter is_context_command menu_items)) acts) root,
     if decide (Exists has_tooltip (filter is_context_command menu_items))
     then Raised AttributeError
     else Returned
            (fold_left (λ d c, setdefault_append (app_key c) c d)
               (filter (λ c, ¬ is_context_command c) menu_items)
               commands_by_app)).
Proof.
  revert root acts commands_by_app.
  induction menu_items as [|cmd rest IH]; intros root acts commands_by_app Hacts.
  { cbn. rewrite decide_False by (by intros ?%Exists_nil).
    by rewrite (replace_at_same _ _ _ Hacts). }
  rewrite for_fold_cons. unfold add_app_menu_step at 1.
  destruct (decide (get_type cmd = "context_menu")) as [Hctx|Hctx].
  - rewrite filter_cons_True, filter_cons_False by (by try intros []).
    unfold mbind at 1, Build_bind at 1.
    rewrite (add_command_to_menu_at _ _ _ _ Hacts). unfold add_outcome.
    cbn [reached]. destruct (decide (has_tooltip cmd)) as [Hc|Hc].
    + by rewrite decide_True by (by left).
    + cbn [mret Build_ret]. unfold mret, Build_ret.
      rewrite (IH _ (attach cmd acts)); [|by eapply menu_actions_replace_at].
      rewrite replace_at_replace_at. cbn [fold_left]. f_equal.
      apply decide_ext. rewrite Exists_cons. tauto.
  - rewrite filter_cons_False, filter_cons_True by done.
    unfold mret, Build_ret. rewrite (IH _ acts) by done. done.
Qed.

Lemma add_app_menus_split menu_items context_menu root acts :
  menu_actions context_menu root = Some acts →
  Forall (λ c, ¬ has_tooltip c) (filter is_context_command menu_items) →
  _add_app_menus menu_items context_menu root
  = _add_commands_by_app_to_menu
      (group_dict app_key (filter (λ c, ¬ is_context_command c) menu_items))
      (replace_at context_menu
         (fold_left (λ a c, attach c a)
            (filter is_context_command menu_items) acts) root).
Proof.
  intros Hacts Hall. unfold _add_app_menus, mbind, Build_bind.
  rewrite (add_app_menus_fold _ _ _ _ _ Hacts).
  rewrite decide_False by (by apply Forall_Exists_neg).
  by rewrite reached_all.
Qed.

(** What one app adds to the menu, and how its step ends. *)
Lemma add_app_commands_at commands_by_app app_name root :
  add_app_commands commands_by_app app_name root
  = let cmds := default [] (dict_get app_name commands_by_app) in
    if bool_decide (1 < length cmds) then
      (root ++ [MenuAction app_name
                  (fold_left (λ a c, attach c a)
                     (reached (sort_by name cmds)) [])],
       loop_outcome (sort_by name cmds))
    else
      match cmds with
      | cmd_obj :: _ =>
          if favourite cmd_obj then (root, Returned ())
          else (attach cmd_obj root, add_outcome cmd_obj)
      | [] => (root, Returned ())
      end.
Proof.
  unfold add_app_commands. cbv zeta.
  destruct (bool_decide _).
  - unfold mbind, Build_bind, _add_sub_menu.
    cbn [menu_actions default addAction].
    rewrite (for_each_add_command_to_menu [length root] _ _ []).
    2:{ simpl. by rewrite lookup_app_r, Nat.sub_diag. }
    simpl. by rewrite alter_app_r_alt, Nat.sub_diag by done.
  - destruct (default [] (dict_get app_name commands_by_app)) as [|c rest];
      [done|].
    destruct (favourite c); [done|]. apply add_command_to_menu_root.
Qed.

Lemma add_app_commands_tree commands_by_app app_name root :
  Forall (λ c, ¬ has_tooltip c)
    (default [] (dict_get app_name commands_by_app)) →
  add_app_commands commands_by_app app_name root
  = (app_tree app_name (default [] (dict_get app_name commands_by_app)) root,
     Returned ()).
Proof.
  intros Hall. rewrite add_app_commands_at. cbv zeta. unfold app_tree.
  destruct (bool_decide _).
  - assert (Forall (λ c, ¬ has_tooltip c)
              (sort_by name (default [] (dict_get app_name commands_by_app))))
      as Hsorted by (by rewrite sort_by_perm).
    by rewrite (reached_all _ Hsorted), (loop_outcome_Returned _ Hsorted).
  - destruct (default [] (dict_get app_name commands_by_app)) as [|c rest];
      [done|].
    destruct (favourite c); [done|].
    apply Forall_cons_1 in Hall as [Hc _].
    unfold add_outcome. by rewrite decide_False.
Qed.

Lemma add_commands_by_app_fold commands_by_app root :
  (∀ k, Forall (λ c, ¬ has_tooltip c)
          (default [] (dict_get k commands_by_app))) →
  _add_commands_by_app_to_menu commands_by_app root
  = (fold_left (λ r k, app_tree k (default [] (dict_get k commands_by_app)) r)
       (sort_by id commands_by_app.*1) root,
     Returned ()).
Proof.
  intros Hall. unfold _add_commands_by_app_to_menu.
  apply for_each_returned. intros k r _. by apply add_app_commands_tree.
Qed.

(** ** Counting through the pass over the apps *)

Section AppCount.
Variable cb : Callback.

Lemma connected_perm cmds cmds' :
  cmds ≡ₚ cmds' → connected cb cmds = connected cb cmds'.
Proof. unfold connected. by intros ->. Qed.

Lemma count_app_tree app_name cmds root :
  count_menu cb (app_tree app_name cmds root)
  = count_menu cb root + group_count cb cmds.
Proof.
  unfold app_tree, group_count.
  destruct (bool_decide _).
  - rewrite count_menu_app, count_menu_singleton, count_action_menu.
    destruct (fold_attach cb (sort_by name cmds) []) as [_ ->].
    by rewrite (connected_perm _ _ (sort_by_perm name _)).
  - destruct cmds as [|c0 tl]; [lia|].
    destruct (favourite c0); [lia|]. apply count_attach.
Qed.

Lemma count_fold_app_tree commands_by_app app_names root :
  count_menu cb
    (fold_left (λ r k, app_tree k (default [] (dict_get k commands_by_app)) r)
       app_names root)
  = count_menu cb root
    + sum_list_with
        (λ k, group_count cb (default [] (dict_get k commands_by_app))) app_names.
Proof.
  revert root. induction app_names as [|k ks IH]; intros root; simpl; [lia|].
  rewrite IH, count_app_tree. lia.
Qed.

End AppCount.

Lemma dict_get_fmap {K V} `{EqDecision K} (g : K → V) k ks :
  dict_get k ((λ k', (k', g k')) <$> ks)
  = if decide (k ∈ ks) then Some (g k) else None.
Proof.
  induction ks as [|k0 ks IH]; [done|].
  rewrite fmap_cons. cbn [dict_get].
  destruct (decide (k0 = k)) as [->|Hne].
  - by rewrite decide_True by left.
  - rewrite IH. apply decide_ext. rewrite elem_of_cons.
    split; [tauto|]. by intros [->|].
Qed.

Lemma sum_list_with_single {A} (f : A → nat) (l : list A) x :
  NoDup l → x ∈ l → (∀ y, y ∈ l → y ≠ x → f y = 0) →
  sum_list_with f l = f x.
Proof.
  induction 1 as [|y l Hy Hnd IH]; intros Hx Hf; [by apply elem_of_nil in Hx|].
  simpl. apply elem_of_cons in Hx as [->|Hx].
  - rewrite (sum_list_with_eq f (λ _, 0) l).
    + clear. induction l; simpl; lia.
    + intros z Hz. apply Hf; [by right|]. by intros ->.
  - rewrite IH; [|done|].
    + rewrite Hf; [done|left|]. by intros ->.
    + intros z Hz. apply Hf. by right.
Qed.

(** The groups add one command connected to [cb] when that command is the
    only one connected to [cb]. *)
Lemma sum_group_count_single cb (cmds : list AppCommand) c :
  filter (λ c', callback c' = cb) cmds = [c] →
  sum_list_with
    (λ k, group_count cb (default [] (dict_get k (group_dict app_key cmds))))
    (group_dict app_key cmds).*1
  = group_count cb (filter (λ c', app_key c' = app_key c) cmds).
Proof.
  intros Honly. rewrite group_dict_keyed. unfold TileSpec.keyed_groups.
  rewrite <- list_fmap_compose, list_fmap_id.
  assert (c ∈ cmds ∧ callback c = cb) as [Hc Hcb].
  { assert (c ∈ filter (λ c', callback c' = cb) cmds) as Hin
      by (rewrite Honly; left).
    apply list_elem_of_filter in Hin. tauto. }
  assert (∀ k, connected cb (filter (λ c', app_key c' = k) cmds)
               = if decide (app_key c = k) then 1 else 0) as Hconn.
  { intros k. unfold connected.
    rewrite list_filter_filter.
    rewrite (list_filter_iff _ (λ c', app_key c' = k ∧ callback c' = cb))
      by (intros; tauto).
    rewrite <- list_filter_filter, Honly.
    destruct (decide (app_key c = k)).
    - by rewrite filter_cons_True.
    - by rewrite filter_cons_False. }
  rewrite (sum_list_with_single _ _ (app_key c)).
  - rewrite dict_get_fmap, decide_True; [done|].
    by apply elem_of_first_seen, list_elem_of_fmap_2.
  - apply NoDup_first_seen.
  - by apply elem_of_first_seen, list_elem_of_fmap_2.
  - intros k Hk Hne. rewrite dict_get_fmap, decide_True by done.
    change (default [] (Some ?x)) with x.
    unfold group_count. specialize (Hconn k).
    rewrite decide_False in Hconn by done.
    destruct (bool_decide _); [done|].
    destruct (filter (λ c', app_key c' = k) cmds) as [|c0 tl] eqn:Hcmds; [done|].
    destruct (favourite c0); [done|].
    unfold connected in *. destruct (decide (callback c0 = cb)).
    + by rewrite filter_cons_True in Hconn.
    + by rewrite filter_cons_False.
Qed.

(** ** The whole menu *)

Lemma add_context_menu_tree ctx :
  _add_context_menu ctx []
  = ([MenuAction (ctx_name ctx) (context_actions ctx)], Returned [0]).
Proof.
  unfold _add_context_menu, context_actions.
  by destruct (filesystem_locations ctx).
Qed.

Lemma count_context_actions ctx id :
  count_menu (engine_callback id) (context_actions ctx) = 0.
Proof. unfold context_actions. by destruct (filesystem_locations ctx). Qed.

Lemma list_filter_comm {A} (P Q : A → Prop)
    `{∀ a, Decision (P a)} `{∀ a, Decision (Q a)} (l : list A) :
  filter P (filter Q l) = filter Q (filter P l).
Proof. rewrite !list_filter_filter. apply list_filter_iff. intros; tauto. Qed.

Lemma sum_indicators {A} (P : A → Prop) `{∀ a, Decision (P a)} (l : list A) :
  sum_list_with (λ a, if decide (P a) then 1 else 0) l = length (filter P l).
Proof.
  induction l as [|a l IH]; simpl; [done|]. destruct (decide (P a)).
  - rewrite filter_cons_True by done. simpl. by rewrite IH.
  - by rewrite filter_cons_False by done.
Qed.

Lemma mark_all_props favs cmd :
  name (mark_all favs cmd) = name cmd
  ∧ properties (mark_all favs cmd) = properties cmd
  ∧ callback (mark_all favs cmd) = callback cmd.
Proof. unfold mark_all. by destruct (existsb _ favs). Qed.

Lemma build_menu_items_favourite cmds c :
  c ∈ build_menu_items cmds → favourite c = false.
Proof.
  unfold build_menu_items. rewrite sort_by_perm.
  by intros ([n d] & -> & _)%list_elem_of_fmap.
Qed.

Lemma favourite_mark_all favs cmd :
  favourite cmd = false →
  favourite (mark_all favs cmd)
  = bool_decide (filter (λ fav, is_favourite fav cmd = true) favs ≠ []).
Proof.
  intros Hfalse. unfold mark_all.
  induction favs as [|fav favs IH]; simpl; [by rewrite Hfalse|].
  destruct (is_favourite fav cmd) eqn:Hfav; simpl.
  - rewrite filter_cons_True by done. by rewrite bool_decide_eq_true_2.
  - rewrite filter_cons_False by congruence. apply IH.
Qed.

(** The group of the only command connected to [cb]. *)
Lemma group_count_single cb (cmds : list AppCommand) c :
  filter (λ c', callback c' = cb) cmds = [c] →
  group_count cb (filter (λ c', app_key c' = app_key c) cmds)
  = if decide (1 < length (filter (λ c', app_key c' = app_key c) cmds)) then 1
    else if favourite c then 0 else 1.
Proof.
  intros Honly.
  assert (c ∈ cmds ∧ callback c = cb) as [Hc Hcb].
  { assert (c ∈ filter (λ c', callback c' = cb) cmds) as Hin
      by (rewrite Honly; left).
    apply list_elem_of_filter in Hin. tauto. }
  assert (connected cb (filter (λ c', app_key c' = app_key c) cmds) = 1) as Hconn.
  { unfold connected. rewrite list_filter_comm, Honly.
    by rewrite filter_cons_True. }
  assert (c ∈ filter (λ c', app_key c' = app_key c) cmds) as Hin
    by (by apply list_elem_of_filter).
  unfold group_count.
  destruct (decide (1 < length _)) as [Hlen|Hlen].
  - by rewrite bool_decide_eq_true_2.
  - rewrite bool_decide_eq_false_2 by done.
    destruct (filter (λ c', app_key c' = app_key c) cmds) as [|c0 [|c1 tl]];
      [by apply elem_of_nil in Hin| |simpl in Hlen; lia].
    apply list_elem_of_singleton in Hin as ->.
    by destruct (favourite c0).
Qed.

Lemma has_tooltip_mark_all favs cmd :
  has_tooltip (mark_all favs cmd) ↔ has_tooltip cmd.
Proof. unfold mark_all. by destruct (existsb _ favs). Qed.

Lemma elem_of_favourite_matches favs menu_items c :
  c ∈ favourite_matches favs menu_items
  ↔ ∃ fav, fav ∈ favs ∧ c ∈ menu_items ∧ is_favourite fav c = true.
Proof.
  unfold favourite_matches. rewrite list_elem_of_bind. split.
  - intros (fav & [Hfav Hc]%list_elem_of_filter & Hin). by exists fav.
  - intros (fav & Hin & Hc & Hfav). exists fav. split; [|done].
    by apply list_elem_of_filter.
Qed.

Lemma build_menu_items_no_tooltip cmds :
  no_tooltips cmds →
  Forall (λ c, ¬ has_tooltip c) (build_menu_items cmds).
Proof.
  unfold no_tooltips. rewrite !Forall_forall. intros Hall c.
  unfold build_menu_items. rewrite sort_by_perm.
  intros ([n d] & -> & Hin)%list_elem_of_fmap.
  specialize (Hall _ Hin). unfold has_tooltip. cbn in *. rewrite Hall.
  by intros [? ?].
Qed.

Lemma add_divider_root root :
  _add_divider [] root = (root ++ [Separator], Returned ()).
Proof. done. Qed.

(** The first step of [setup_menu_items] and the head of the menu after
    the favourites. *)
Lemma favourites_head favs menu_items ctx :
  ∃ acts rest,
    fold_left (λ a c, attach c a) (favourite_matches favs menu_items)
      [MenuAction (ctx_name ctx) (context_actions ctx); Separator]
    = MenuAction (ctx_name ctx) acts :: rest.
Proof.
  generalize (favourite_matches favs menu_items) as cmds.
  generalize (context_actions ctx) as acts.
  generalize [Separator] as rest.
  intros rest acts cmds. revert acts rest.
  induction cmds as [|c cmds IH]; intros acts rest; [by eexists _, _|].
  cbn [fold_left]. unfold attach at 2.
  destruct (removelast (split_on slash (name c))) as [|label labels];
    cbn [add_path]; [apply IH|].
  destruct (list_find _ _) as [[i a]|] eqn:Hfind; [|apply IH].
  destruct a as [| |title sub]; [apply IH|apply IH|].
  destruct i as [|i]; [|apply IH].
  apply list_find_Some in Hfind as (Hi & _ & _). injection Hi as <- <-.
  apply IH.
Qed.

(** When no command has a tooltip the menu is built to the end. *)
Lemma setup_menu_items_returns engine :
  Forall (λ c, ¬ has_tooltip c) (build_menu_items (commands engine)) →
  setup_menu_items engine = (menu_tree engine, Returned ()).
Proof.
  intros Hall. unfold setup_menu_items, menu_tree.
  set (menu_items := build_menu_items (commands engine)) in *.
  set (favs := menu_favourites engine).
  assert (Forall (λ c, ¬ has_tooltip c) (favourite_matches favs menu_items))
    as Hmatches.
  { rewrite Forall_forall in Hall. apply Forall_forall.
    intros c (fav & _ & Hc & _)%elem_of_favourite_matches. by apply Hall. }
  assert (Forall (λ c, ¬ has_tooltip c) (mark_all favs <$> menu_items))
    as Hmarked.
  { rewrite Forall_forall in Hall. apply Forall_forall.
    intros c' (c & -> & Hc)%list_elem_of_fmap.
    rewrite has_tooltip_mark_all. by apply Hall. }
  rewrite (bind_Returned _ _ _ _ _ (add_context_menu_tree (context engine))).
  rewrite (bind_Returned _ _ _ _ _ (add_divider_root _)). cbn [app].
  rewrite (bind_Returned _ _ _ _ _ (add_favourites_fold favs menu_items _ Hmatches)).
  rewrite (bind_Returned _ _ _ _ _ (add_divider_root _)).
  destruct (favourites_head favs menu_items (context engine))
    as (acts & rest & Hhead).
  rewrite Hhead. cbn [app menu_actions lookup list_lookup default].
  rewrite (add_app_menus_split _ [0] _ acts); [|done|].
  2:{ rewrite Forall_forall in Hmarked. apply Forall_forall.
      intros c [_ Hc]%list_elem_of_filter. by apply Hmarked. }
  apply add_commands_by_app_fold. intros k.
  rewrite group_dict_keyed. unfold TileSpec.keyed_groups.
  rewrite (dict_get_fmap (λ k', filter (λ c, app_key c = k') _)).
  destruct (decide _); [|constructor].
  rewrite Forall_forall in Hmarked. apply Forall_forall.
  intros c [_ [_ Hc]%list_elem_of_filter]%list_elem_of_filter. by apply Hmarked.
Qed.

(** The actions connected to a callback in the finished menu, pass by
    pass. *)
Lemma count_menu_tree cb engine :
  let menu_items := build_menu_items (commands engine) in
  let marked := mark_all (menu_favourites engine) <$> menu_items in
  let commands_by_app :=
    group_dict app_key (filter (λ c, ¬ is_context_command c) marked) in
  count_menu cb (menu_tree engine)
  = count_menu cb (context_actions (context engine))
    + connected cb (favourite_matches (menu_favourites engine) menu_items)
    + connected cb (filter is_context_command marked)
    + sum_list_with
        (λ k, group_count cb (default [] (dict_get k commands_by_app)))
        commands_by_app.*1.
Proof.
  intros menu_items marked commands_by_app. unfold menu_tree.
  fold menu_items. fold marked. fold commands_by_app.
  rewrite count_fold_app_tree, (sort_by_perm id).
  set (root1 := [MenuAction (ctx_name (context engine))
                   (context_actions (context engine)); Separator]).
  assert (count_menu cb root1 = count_menu cb (context_actions (context engine)))
    as Hroot1.
  { change root1 with ([MenuAction (ctx_name (context engine))
                          (context_actions (context engine))] ++ [Separator]).
    rewrite count_menu_app, !count_menu_singleton, count_action_menu.
    simpl. lia. }
  destruct (favourites_head (menu_favourites engine) menu_items (context engine))
    as (acts & rest & Hhead).
  destruct (fold_attach cb
              (favourite_matches (menu_favourites engine) menu_items) root1)
    as [_ Hcount2].
  fold root1 in Hhead. rewrite Hhead in *.
  cbn [app menu_actions lookup list_lookup default].
  destruct (fold_attach cb (filter is_context_command marked) acts)
    as [_ Hcount3].
  pose proof (count_replace_at cb [0]
    (fold_left (λ a c, attach c a) (filter is_context_command marked) acts)
    ((MenuAction (ctx_name (context engine)) acts :: rest) ++ [Separator])
    acts eq_refl) as Hcount.
  rewrite count_menu_app in Hcount.
  change (count_menu cb [Separator]) with 0 in Hcount.
  cbn [app] in Hcount. unfold id. lia.
Qed.
(** ** Where the pass over the apps leaves a command *)

(** Attaching a command leaves the sub-menus of the top level in place,
    and adds nothing connected to another callback. *)
Lemma attach_keeps_entry cb c' root i title acts :
  callback c' ≠ cb →
  root !! i = Some (MenuAction title acts) →
  ∃ acts', attach c' root !! i = Some (MenuAction title acts')
           ∧ count_menu cb acts' = count_menu cb acts.
Proof.
  intros Hcb Hi. unfold attach.
  assert (count_action cb (leaf_of c') = 0) as Hleaf.
  { unfold leaf_of. simpl. by rewrite decide_False. }
  destruct (removelast _) as [|label labels]; cbn [add_path].
  { exists acts. split; [by apply lookup_app_l_Some|done]. }
  destruct (list_find _ root) as [[j a]|] eqn:Hfind.
  2:{ exists acts. split; [by apply lookup_app_l_Some|done]. }
  destruct a as [| |title' sub].
  1, 2: exists acts; split; [by apply lookup_app_l_Some|done].
  apply list_find_Some in Hfind as (Hj & _ & _).
  destruct (decide (i = j)) as [->|Hne].
  - rewrite Hi in Hj. injection Hj as <- <-.
    exists (add_path labels (leaf_of c') acts). split.
    + apply list_lookup_insert_eq. by eapply lookup_lt_Some.
    + rewrite count_add_path. lia.
  - exists acts. split; [|done]. by rewrite list_lookup_insert_ne.
Qed.

Lemma app_tree_keeps_entry cb k cmds root i title acts :
  (∀ c', c' ∈ cmds → callback c' ≠ cb) →
  root !! i = Some (MenuAction title acts) →
  ∃ acts', app_tree k cmds root !! i = Some (MenuAction title acts')
           ∧ count_menu cb acts' = count_menu cb acts.
Proof.
  intros Hcb Hi. unfold app_tree. destruct (bool_decide _).
  { exists acts. split; [by apply lookup_app_l_Some|done]. }
  destruct cmds as [|c0 tl]; [by exists acts|].
  destruct (favourite c0); [by exists acts|].
  apply attach_keeps_entry; [|done]. apply Hcb. left.
Qed.

Lemma fold_app_tree_keeps_entry cb (groups : string → list AppCommand)
    ks root i title acts :
  (∀ k c', k ∈ ks → c' ∈ groups k → callback c' ≠ cb) →
  root !! i = Some (MenuAction title acts) →
  ∃ acts', fold_left (λ r k, app_tree k (groups k) r) ks root !! i
           = Some (MenuAction title acts')
           ∧ count_menu cb acts' = count_menu cb acts.
Proof.
  revert root acts. induction ks as [|k ks IH]; intros root acts Hcb Hi.
  { by exists acts. }
  cbn [fold_left].
  destruct (app_tree_keeps_entry cb k (groups k) root i title acts)
    as (acts1 & Hi1 & Hcount1); [|done|].
  { intros c' Hc'. apply (Hcb k); [left|done]. }
  destruct (IH (app_tree k (groups k) root) acts1) as (acts2 & Hi2 & Hcount2);
    [|done|].
  { intros k' c' Hk'. apply Hcb. by right. }
  exists acts2. split; [done|lia].
Qed.

(** The group of an app with several commands is a sub-menu of the top
    level titled by the key of the group; a command of the group that
    alone has its callback is connected to one action in it. *)
Lemma group_sub_menu cb (cmds : list AppCommand) c root :
  filter (λ c', callback c' = cb) cmds = [c] →
  1 < length (filter (λ c', app_key c' = app_key c) cmds) →
  ∃ i acts,
    fold_left
      (λ r k, app_tree k (default [] (dict_get k (group_dict app_key cmds))) r)
      (sort_by id (group_dict app_key cmds).*1) root !! i
    = Some (MenuAction (app_key c) acts)
    ∧ count_menu cb acts = 1.
Proof.
  intros Honly Hlen.
  assert (c ∈ cmds ∧ callback c = cb) as [Hc Hcb].
  { assert (c ∈ filter (λ c', callback c' = cb) cmds) as Hin
      by (rewrite Honly; left).
    apply list_elem_of_filter in Hin. tauto. }
  rewrite group_dict_keyed. unfold TileSpec.keyed_groups.
  rewrite <- list_fmap_compose, list_fmap_id.
  set (keys := sort_by id (TileSpec.first_seen (app_key <$> cmds))).
  set (groups := λ k, default []
    (dict_get k ((λ k', (k', filter (λ c', app_key c' = k') cmds))
                 <$> TileSpec.first_seen (app_key <$> cmds)))).
  change (∃ i acts,
    fold_left (λ r k, app_tree k (groups k) r) keys root !! i
    = Some (MenuAction (app_key c) acts) ∧ count_menu cb acts = 1).
  assert (∀ k, k ∈ keys → groups k = filter (λ c', app_key c' = k) cmds)
    as Hget.
  { intros k Hk. unfold groups, keys in *. rewrite sort_by_perm in Hk.
    by rewrite dict_get_fmap, decide_True. }
  assert (app_key c ∈ keys) as Hkey.
  { unfold keys. rewrite sort_by_perm.
    by apply elem_of_first_seen, list_elem_of_fmap_2. }
  assert (NoDup keys) as Hnodup.
  { unfold keys. rewrite sort_by_perm. apply NoDup_first_seen. }
  apply list_elem_of_split in Hkey as (ks1 & ks2 & Hsplit).
  rewrite Hsplit in Hnodup. apply NoDup_app in Hnodup as (_ & _ & Hnodup).
  apply NoDup_cons in Hnodup as [Hnotin _].
  assert (∀ k, k ∈ ks2 → k ∈ keys) as Hks2.
  { intros k Hk. rewrite Hsplit. apply elem_of_app. right. by right. }
  assert (app_key c ∈ keys) as Hkey.
  { rewrite Hsplit. apply elem_of_app. right. left. }
  rewrite Hsplit, fold_left_app. cbn [fold_left].
  set (root1 := fold_left _ ks1 root).
  assert (app_tree (app_key c) (groups (app_key c)) root1
          = root1 ++ [MenuAction (app_key c)
                        (fold_left (λ a c', attach c' a)
                           (sort_by name
                              (filter (λ c', app_key c' = app_key c) cmds)) [])])
    as ->.
  { rewrite Hget by done. unfold app_tree.
    by rewrite bool_decide_eq_true_2. }
  set (sub := fold_left (λ a c', attach c' a)
                (sort_by name (filter (λ c', app_key c' = app_key c) cmds)) []).
  destruct (fold_app_tree_keeps_entry cb groups ks2
              (root1 ++ [MenuAction (app_key c) sub])
              (length root1) (app_key c) sub)
    as (acts & Hi & Hcount).
  - intros k c' Hk Hc' Hcb'. rewrite Hget in Hc' by auto.
    apply list_elem_of_filter in Hc' as [Hk' Hc'].
    assert (c' ∈ filter (λ c', callback c' = cb) cmds) as Hin
      by (by apply list_elem_of_filter).
    rewrite Honly in Hin. apply list_elem_of_singleton in Hin as ->.
    apply Hnotin. by rewrite Hk'.
  - by rewrite lookup_app_r, Nat.sub_diag.
  - exists (length root1), acts. split; [done|]. rewrite Hcount.
    unfold sub. destruct (fold_attach cb
                (sort_by name (filter (λ c', app_key c' = app_key c) cmds)) [])
      as [_ ->].
    rewrite (connected_perm _ _ _ (sort_by_perm name _)).
    unfold connected. rewrite list_filter_comm, Honly.
    by rewrite filter_cons_True.
Qed.

(** ** The favourites and the groups of the apps *)

(** C1, as the code has it, for an engine none of whose commands has a
    tooltip (with one the build raises).  Take a command of the default
    type that is the only one connected to its callback, and let [n] be
    the number of favourite descriptors that match it.  The favourites
    pass attaches its matches, in the order of the setting, to the
    ShotGrid menu itself, [n] of them connected to the callback.  The
    build returns, and in the finished menu the number of actions
    connected to the callback is [n] plus what the pass over the apps
    adds: one action when the group of the command has several commands,
    whether or not the command is a favourite, and then a sub-menu of the
    top level titled by the app holds one action connected to the
    callback; and, when the command is alone in its group, one action if
    it is no favourite and none if it is. *)
Theorem favourite_leaf_count engine c :
  let menu_items := build_menu_items (commands engine) in
  let favs := menu_favourites engine in
  let cb := callback c in
  let n := length (filter (λ fav, is_favourite fav c = true) favs) in
  let g := length (filter (λ c', ¬ is_context_command c'
                                 ∧ app_key c' = app_key c) menu_items) in
  no_tooltips (commands engine) →
  filter (λ c', callback c' = cb) menu_items = [c] →
  (∃ id, cb = engine_callback id) →
  ¬ is_context_command c →
  (∀ root,
     add_favourites favs menu_items root
     = (fold_left (λ a c', attach c' a) (favourite_matches favs menu_items) root,
        Returned (mark_all favs <$> menu_items)))
  ∧ connected cb (favourite_matches favs menu_items) = n
  ∧ ∃ menu,
      setup_menu_items engine = (menu, Returned ())
      ∧ count_menu cb menu
        = n + (if decide (1 < g) then 1 else if decide (n = 0) then 1 else 0)
      ∧ (1 < g →
         ∃ i acts, menu !! i = Some (MenuAction (app_key c) acts)
                   ∧ count_menu cb acts = 1).
Proof.
  intros menu_items favs cb n g Hplain Honly [id Hid] Hdefault.
  pose proof (build_menu_items_no_tooltip _ Hplain) as Hall. fold menu_items in Hall.
  assert (c ∈ menu_items) as Hc.
  { assert (c ∈ filter (λ c', callback c' = cb) menu_items) as Hin
      by (rewrite Honly; left).
    apply list_elem_of_filter in Hin. tauto. }
  assert (Forall (λ c, ¬ has_tooltip c) (favourite_matches favs menu_items))
    as Hmatches.
  { rewrite Forall_forall in Hall. apply Forall_forall.
    intros c' (fav & _ & Hc' & _)%elem_of_favourite_matches. by apply Hall. }
  (* the favourites pass *)
  assert (connected cb (favourite_matches favs menu_items) = n) as Hn.
  { rewrite connected_favourite_matches. unfold n.
    rewrite <- sum_indicators. apply sum_list_with_eq.
    intros fav _. unfold connected. rewrite list_filter_comm, Honly.
    destruct (decide (is_favourite fav c = true)).
    - by rewrite filter_cons_True.
    - by rewrite filter_cons_False. }
  split; [intros root; by apply add_favourites_fold|]. split; [done|].
  exists (menu_tree engine). split; [by apply setup_menu_items_returns|].
  set (marked := mark_all favs) in *.
  (* the pass over the apps *)
  assert (filter (λ c', callback c' = cb) (marked <$> menu_items) = [marked c])
    as Honly'.
  { rewrite list_filter_fmap_eq.
    rewrite (list_filter_iff _ (λ c', callback c' = cb)), Honly; [done|].
    intros c'. unfold marked. by rewrite (proj2 (proj2 (mark_all_props _ c'))). }
  assert (∀ c', is_context_command (marked c') ↔ is_context_command c') as Htype.
  { intros c'. unfold is_context_command, get_type, marked.
    by rewrite (proj1 (proj2 (mark_all_props _ c'))). }
  assert (∀ c', app_key (marked c') = app_key c') as Hkey.
  { intros c'. unfold app_key, get_app_name, marked.
    by rewrite (proj1 (proj2 (mark_all_props _ c'))). }
  assert (filter (λ c', callback c' = cb)
            (filter (λ c', ¬ is_context_command c') (marked <$> menu_items))
          = [marked c]) as Honly''.
  { rewrite list_filter_comm, Honly'.
    rewrite filter_cons_True; [done|]. by rewrite Htype. }
  assert (length (filter (λ c', app_key c' = app_key (marked c))
                    (filter (λ c', ¬ is_context_command c') (marked <$> menu_items)))
          = g) as Hg.
  { unfold g. rewrite list_filter_filter.
    rewrite (length_filter_fmap marked
               (λ c', app_key c' = app_key (marked c) ∧ ¬ is_context_command c')).
    f_equal. apply list_filter_iff. intros c'. rewrite !Hkey, Htype. tauto. }
  split.
  - rewrite count_menu_tree. fold menu_items. fold favs. fold marked.
    rewrite Hn, Hid, count_context_actions, <- Hid.
    assert (connected cb (filter is_context_command (marked <$> menu_items)) = 0)
      as ->.
    { unfold connected. rewrite list_filter_comm, Honly'.
      rewrite filter_cons_False; [done|]. by rewrite Htype. }
    rewrite (sum_group_count_single cb _ _ Honly'').
    rewrite (group_count_single cb _ _ Honly''), Hg.
    unfold marked at 1.
    rewrite favourite_mark_all by (by eapply build_menu_items_favourite).
    fold favs. fold n.
    destruct (decide (1 < g)); [lia|].
    destruct (decide (n = 0)) as [Hn0|Hn0].
    + rewrite bool_decide_eq_false_2; [lia|].
      intros Hne. apply Hne. by apply length_zero_iff_nil.
    + rewrite bool_decide_eq_true_2; [lia|].
      intros Hnil. apply Hn0. unfold n. by rewrite Hnil.
  - intros Hseveral. rewrite <- Hg in Hseveral.
    rewrite <- (Hkey c). unfold menu_tree. fold menu_items. fold favs.
    by apply group_sub_menu.
Qed.
Lemma favourite_leaf_count_witness :
  no_tooltips (commands workfiles_engine)
  ∧ filter (λ c', callback c' = callback sample_open)
      (build_menu_items (commands workfiles_engine)) = [sample_open]
  ∧ (∃ id, callback sample_open = engine_callback id)
  ∧ ¬ is_context_command sample_open
  ∧ ∃ menu,
      setup_menu_items workfiles_engine = (menu, Returned ())
      ∧ count_menu (callback sample_open) menu = 2
      ∧ ∃ i acts, menu !! i = Some (MenuAction "Workfiles" acts)
                  ∧ count_menu (callback sample_open) acts = 1.
Proof.
  assert (no_tooltips (commands workfiles_engine)) as H0
    by (repeat constructor).
  assert (filter (λ c', callback c' = callback sample_open)
            (build_menu_items (commands workfiles_engine)) = [sample_open])
    as H1 by reflexivity.
  assert (∃ id, callback sample_open = engine_callback id)
    as H2 by (by exists 3).
  assert (¬ is_context_command sample_open) as H3 by (intros H; discriminate H).
  split; [exact H0|]. split; [exact H1|]. split; [exact H2|]. split; [exact H3|].
  destruct (favourite_leaf_count workfiles_engine sample_open H0 H1 H2 H3)
    as (_ & _ & menu & Hmenu & Hcount & Hsub).
  exists menu. split; [exact Hmenu|]. split; [exact Hcount|].
  apply Hsub. apply le_n.
Defined.

(** C1 as stated fails: a favourite whose app registered two commands is
    attached under the root by the favourites pass and once more, in the
    sub-menu of its app, by the pass over the apps. *)
Lemma favourite_added_twice :
  setup_menu_items workfiles_engine
  = ([MenuAction "Asset Hero"
        [Action "Jump to ShotGrid" jump_to_sg None true; Separator];
      Separator;
      Action "File Open..." (engine_callback 3) None true;
      Separator;
      MenuAction "Workfiles"
        [Action "File Open..." (engine_callback 3) None true;
         Action "File Save..." (engine_callback 4) None true]],
     Returned ())
  ∧ count_menu (callback sample_open) (setup_menu_items workfiles_engine).1 = 2.
Proof. split; reflexivity. Qed.



(** C5 fails on the code: the lookup of a sub-menu stops at the first
    action with the label, here the plain action "Publish", whose [menu()]
    is [None]; each of the two commands below "Publish" gets a sub-menu of
    its own. *)
Theorem leaf_label_hides_sub_menu :
  setup_menu_items nested_engine
  = ([MenuAction "Asset Hero"
        [Action "Jump to ShotGrid" jump_to_sg None true; Separator];
      Separator; Separator;
      MenuAction "Publish"
        [Action "Publish" (engine_callback 1) None true;
         MenuAction "Publish" [Action "Model" (engine_callback 2) None true];
         MenuAction "Publish" [Action "Textures" (engine_callback 3) None true]]],
     Returned ()).
Proof. reflexivity. Qed.

(** C6 fails on the code when the matched command has a tooltip.  For one
    favourite descriptor and commands with distinct names (the keys of a
    dictionary): when no command matches, the menu and the commands are
    left as they were and the pass returns.  Otherwise the first match is
    the only one, and its action, labelled by the last segment of its
    name and connected to its callback, is added below the ShotGrid menu
    along the path of its name.  Without a tooltip the pass returns, with
    the [favourite] flag of that command set and the other commands as
    they were; with a tooltip the pass raises [AttributeError], the action
    added and no flag set. *)
Theorem add_favourite_first_match fav menu_items root :
  NoDup (name <$> menu_items) →
  match List.find (is_favourite fav) menu_items with
  | None => _add_favourite fav menu_items root = (root, Returned menu_items)
  | Some cmd =>
      ∃ before after,
        menu_items = before ++ cmd :: after
        ∧ Forall (λ c, is_favourite fav c = false) (before ++ after)
        ∧ _add_favourite fav menu_items root
          = (add_path (removelast (split_on slash (name cmd)))
               (Action (List.last (split_on slash (name cmd)) "")
                  (callback cmd) None
                  (if decide (has_tooltip cmd) then true
                   else default true (prop_enable_callback (properties cmd))))
               root,
             if decide (has_tooltip cmd) then Raised AttributeError
             else Returned
                    (before
                     ++ {| name := name cmd; properties := properties cmd;
                           callback := callback cmd; favourite := true |}
                     :: after))
  end.
Proof.
  induction menu_items as [|cmd rest IH]; intros Hnd;
    cbn [List.find _add_favourite]; [done|].
  cbn [fmap list_fmap] in Hnd. apply NoDup_cons in Hnd as [Hcmd Hnd].
  destruct (is_favourite fav cmd) eqn:Hfav.
  - assert (Forall (λ c, is_favourite fav c = false) rest) as Hrest.
    { apply Forall_forall. intros c Hc.
      destruct (is_favourite fav c) eqn:Hc'; [|done].
      destruct Hcmd. apply is_favourite_name in Hfav, Hc'.
      rewrite Hfav, <- Hc'. by apply list_elem_of_fmap_2. }
    exists [], rest. split; [done|]. split; [done|].
    pose proof (add_command_to_menu_root cmd root) as Hadd.
    unfold attach, leaf_of, add_outcome in Hadd.
    destruct (decide (has_tooltip cmd)).
    + by rewrite (bind_Raised _ _ _ _ _ Hadd).
    + rewrite (bind_Returned _ _ _ _ _ Hadd).
      by rewrite (bind_Returned _ _ _ _ _ (add_favourite_no_match _ _ _ Hrest)).
  - specialize (IH Hnd).
    destruct (List.find (is_favourite fav) rest) as [c|].
    + destruct IH as (before & after & -> & Hothers & Hrun).
      exists (cmd :: before), after. split; [done|].
      split; [by constructor|].
      destruct (decide (has_tooltip c)).
      * by rewrite (bind_Raised _ _ _ _ _ Hrun).
      * by rewrite (bind_Returned _ _ _ _ _ Hrun).
    + by rewrite (bind_Returned _ _ _ _ _ IH).
Qed.

Lemma add_favourite_first_match_witness :
  NoDup (name <$> tooltip_items)
  ∧ _add_favourite sample_favourite tooltip_items []
    = ([Action "Publish..." (engine_callback 1) None true],
       Raised AttributeError).
Proof.
  assert (NoDup (name <$> tooltip_items)) as Hnd.
  { apply NoDup_cons. split; [by intros [=]%list_elem_of_singleton|].
    apply NoDup_singleton. }
  split; [exact Hnd|].
  destruct (add_favourite_first_match sample_favourite tooltip_items [] Hnd)
    as (before & after & _ & _ & Hrun).
  exact Hrun.
Defined.

(** The same favourite and a command without a tooltip: the action is
    added and the command comes back marked. *)
Example add_favourite_marks :
  _add_favourite sample_favourite sample_items []
  = ([Action "Publish..." (engine_callback 1) None true],
     Returned [sample_load; set_favourite sample_publish])
  ∧ favourite (set_favourite sample_publish) = true.
Proof. split; reflexivity. Qed.

(** C7, as the code has it.  Splitting a name always gives at least one
    segment, and a command without a name is not rejected: the builder
    adds to the menu one plain action with an empty text, and no
    sub-menu; the call ends as for any other name, that is, it returns
    unless the properties have a tooltip. *)
Theorem empty_name_leaf cmd menu root :
  name cmd = "" →
  split_on slash (name cmd) = [""]
  ∧ (∀ s, split_on slash s ≠ [])
  ∧ add_command_to_menu cmd menu root
    = (addAction menu
         (Action "" (callback cmd) None
            (if decide (has_tooltip cmd) then true
             else default true (prop_enable_callback (properties cmd))))
         root,
       if decide (has_tooltip cmd) then Raised AttributeError
       else Returned ()).
Proof.
  intros Hname. split; [by rewrite Hname|]. split; [apply split_on_nonempty|].
  unfold add_command_to_menu. rewrite Hname.
  change (split_on slash "") with [""]. cbn [removelast List.last for_fold].
  unfold mbind, Build_bind, mret, Build_ret.
  apply (add_menu_item_at "" menu (callback cmd) (Some (properties cmd)) root).
Qed.

Lemma empty_name_leaf_witness :
  name unnamed_command = ""
  ∧ add_command_to_menu unnamed_command [] []
    = ([Action "" (engine_callback 6) None true], Returned ()).
Proof.
  split; [reflexivity|].
  exact (proj2 (proj2 (empty_name_leaf unnamed_command [] [] eq_refl))).
Defined.

(** C7 as stated fails: the builder returns, and leaves a menu with an
    action whose text is empty; nothing is raised. *)
Lemma empty_name_accepted :
  add_command_to_menu unnamed_command [] []
  = ([Action "" (engine_callback 6) None true], Returned ())
  ∧ action_text (Action "" (engine_callback 6) None true) = "".
Proof. split; reflexivity. Qed.

(** ** Paths in command names *)

(** A name of N segments puts its action below N-1 sub-menus, one inside
    the other, titled by the first N-1 segments. *)
Lemma add_path_leaf_below labels leaf acts :
  leaf_below labels leaf (add_path labels leaf acts).
Proof.
  revert acts. induction labels as [|label labels IH]; intros acts; simpl.
  { constructor. apply last_snoc. }
  destruct (list_find (λ a, action_text a = label) acts) as [[i a]|] eqn:Hfind.
  - destruct a as [| |title sub].
    1, 2: eapply (leaf_in_sub_menu _ _ _ _ (length acts));
      [by rewrite lookup_app_r, Nat.sub_diag|apply IH].
    apply list_find_Some in Hfind as (Hi & Htext & _). simpl in Htext. subst title.
    eapply (leaf_in_sub_menu _ _ _ _ i); [|apply IH].
    apply list_lookup_insert_eq. by eapply lookup_lt_Some.
  - eapply (leaf_in_sub_menu _ _ _ _ (length acts));
      [by rewrite lookup_app_r, Nat.sub_diag|apply IH].
Qed.

Lemma attach_leaf_below cmd acts :
  leaf_below (removelast (split_on slash (name cmd))) (leaf_of cmd)
    (attach cmd acts).
Proof. apply add_path_leaf_below. Qed.

Lemma sub_menus_named_app label acts1 acts2 :
  sub_menus_named label (acts1 ++ acts2)
  = sub_menus_named label acts1 + sub_menus_named label acts2.
Proof. unfold sub_menus_named. by rewrite filter_app, length_app. Qed.

Lemma sub_menus_named_insert label acts i title sub sub' :
  acts !! i = Some (MenuAction title sub) →
  sub_menus_named label (<[i := MenuAction title sub']> acts)
  = sub_menus_named label acts.
Proof.
  intros Hi. rewrite insert_take_drop by (by eapply lookup_lt_Some).
  rewrite <- (take_drop_middle acts i _ Hi) at 3.
  rewrite !sub_menus_named_app. f_equal. unfold sub_menus_named.
  destruct (decide (is_sub_menu_named label (MenuAction title sub) = true)) as [H|H].
  - by rewrite !filter_cons_True.
  - by rewrite !filter_cons_False.
Qed.

(** The first action with the label is a sub-menu: it is used again. *)
Lemma add_path_reuses label labels leaf acts i title sub :
  list_find (λ a, action_text a = label) acts = Some (i, MenuAction title sub) →
  sub_menus_named label (add_path (label :: labels) leaf acts)
  = sub_menus_named label acts
  ∧ length (add_path (label :: labels) leaf acts) = length acts.
Proof.
  intros Hfind. simpl. rewrite Hfind.
  apply list_find_Some in Hfind as (Hi & _ & _).
  split; [by eapply sub_menus_named_insert|apply length_insert].
Qed.

(** No action has the label: one sub-menu is created, and the next command
    with the label finds it. *)
Lemma add_path_creates label labels leaf acts :
  list_find (λ a, action_text a = label) acts = None →
  sub_menus_named label (add_path (label :: labels) leaf acts)
  = S (sub_menus_named label acts)
  ∧ list_find (λ a, action_text a = label) (add_path (label :: labels) leaf acts)
    = Some (length acts, MenuAction label (add_path labels leaf [])).
Proof.
  intros Hfind. simpl. rewrite Hfind. split.
  - rewrite sub_menus_named_app. unfold sub_menus_named at 2.
    rewrite filter_cons_True by (simpl; by rewrite bool_decide_eq_true_2).
    simpl. lia.
  - rewrite list_find_app_r by done. simpl.
    by rewrite decide_True by done.
Qed.

(** The first action with the label is not a sub-menu: a sub-menu is
    created, and the next command with the label meets the same action
    again and creates one more. *)
Lemma add_path_hidden label labels leaf acts i a :
  list_find (λ a, action_text a = label) acts = Some (i, a) →
  (∀ title sub, a ≠ MenuAction title sub) →
  sub_menus_named label (add_path (label :: labels) leaf acts)
  = S (sub_menus_named label acts)
  ∧ list_find (λ a, action_text a = label) (add_path (label :: labels) leaf acts)
    = Some (i, a).
Proof.
  intros Hfind Ha. simpl. rewrite Hfind.
  assert (add_path (label :: labels) leaf acts
          = acts ++ [MenuAction label (add_path labels leaf [])]) as Hadd.
  { simpl. rewrite Hfind. destruct a as [| |title sub]; [done|done|].
    by destruct (Ha title sub). }
  simpl in Hadd. rewrite Hfind in Hadd. rewrite Hadd. split.
  - rewrite sub_menus_named_app. unfold sub_menus_named at 2.
    rewrite filter_cons_True by (simpl; by rewrite bool_decide_eq_true_2).
    simpl. lia.
  - by apply list_find_app_l.
Qed.

(** * Further properties *)

(** ** The groups handed to the publish loop *)

Lemma length_first_seen {K} `{EqDecision K} (ks : list K) :
  (length (TileSpec.first_seen ks) ≤ length ks)%nat.
Proof.
  induction ks as [|k ks IH]; simpl; [done|].
  pose proof (length_filter (λ k', k' ≠ k) (TileSpec.first_seen ks)). lia.
Qed.

(** X1.  No group is empty, so [grouped_texture_path[0]] in [publish] is
    always there; there are no more groups than paths, and there is no
    group at all exactly when there is no path. *)
Theorem groups_nonempty basename paths :
  Forall (λ g, g ≠ []) (_group_texture_sequences basename paths)
  ∧ (length (_group_texture_sequences basename paths) ≤ length paths)%nat
  ∧ (_group_texture_sequences basename paths = [] ↔ paths = []).
Proof.
  split; [|split].
  - apply Forall_forall. intros g (p & Hp & ->)%elem_of_groups Hnil.
    by apply (filter_nil_not_elem_of _ _ p Hnil).
  - unfold _group_texture_sequences. rewrite texture_groups_keyed.
    unfold TileSpec.keyed_groups. rewrite !length_fmap.
    etrans; [apply length_first_seen|]. by rewrite length_fmap.
  - split; [|by intros ->].
    destruct paths as [|p paths]; [done|]. intros Hnil.
    assert (filter (λ q, udim_key basename q = udim_key basename p) (p :: paths)
            ∈ _group_texture_sequences basename (p :: paths)) as Hin.
    { apply elem_of_groups. exists p. split; [left|done]. }
    rewrite Hnil in Hin. by apply elem_of_nil in Hin.
Qed.

Lemma key_of_tile_parts filename pre ext nl :
  TileSpec.tile_parts (chars filename) = Some (pre, ext, nl) →
  TileSpec.key_of filename = str (pre ++ chars ".<UDIM>." ++ ext ++ nl).
Proof. intros H. unfold TileSpec.key_of. by rewrite H. Qed.

Lemma str_inj l1 l2 : str l1 = str l2 → l1 = l2.
Proof. intros H. by rewrite <- (chars_str l1), <- (chars_str l2), H. Qed.

(** The prefix, the extension and the final newline can be read back from
    a key. *)
Lemma key_parts_inj pre ext nl pre' ext' nl' :
  ext ≠ [] → forallb Re.is_word ext = true → nl = [] ∨ nl = [newline] →
  ext' ≠ [] → forallb Re.is_word ext' = true → nl' = [] ∨ nl' = [newline] →
  pre ++ chars ".<UDIM>." ++ ext ++ nl = pre' ++ chars ".<UDIM>." ++ ext' ++ nl' →
  pre = pre' ∧ ext = ext' ∧ nl = nl'.
Proof.
  intros Hext Hword Hnl Hext' Hword' Hnl' Heq.
  assert (∀ p e n, e ≠ [] → forallb Re.is_word e = true →
            n = [] ∨ n = [newline] →
            TileSpec.strip_newline (p ++ chars ".<UDIM>." ++ e ++ n)
            = ((p ++ chars ".<UDIM>") ++ dot :: e, n)) as Hstrip.
  { intros p e n He Hw Hn.
    replace (p ++ chars ".<UDIM>." ++ e ++ n)
      with (((p ++ chars ".<UDIM>") ++ dot :: e) ++ n)
      by (by rewrite <- !(assoc_L (++))).
    apply strip_newline_app; [by destruct (p ++ chars ".<UDIM>")| |done].
    rewrite last_app. destruct (last (dot :: e)) as [c|] eqn:Hl.
    - destruct e as [|w e]; [done|]. cbn [last] in Hl.
      intros [= ->]. by pose proof (last_class _ _ _ Hw Hl).
    - by apply last_None in Hl. }
  pose proof (Hstrip pre ext nl Hext Hword Hnl) as H1.
  pose proof (Hstrip pre' ext' nl' Hext' Hword' Hnl') as H2.
  rewrite Heq, H2 in H1. injection H1 as Hbody ->.
  pose proof (split_last_dot_app (pre ++ chars ".<UDIM>") ext
                (count_dots_class Re.is_word ext eq_refl Hword)) as H3.
  pose proof (split_last_dot_app (pre' ++ chars ".<UDIM>") ext'
                (count_dots_class Re.is_word ext' eq_refl Hword')) as H4.
  assert (Some (pre ++ chars ".<UDIM>", ext) = Some (pre' ++ chars ".<UDIM>", ext'))
    as Hsame by (rewrite <- H3, <- H4; f_equal; symmetry; exact Hbody).
  injection Hsame as Hpre ->.
  apply app_inv_tail in Hpre. by subst.
Qed.

(** X2.  Two paths of the input whose final components have a tile suffix
    lie in one group exactly when the components agree on everything but
    the digits of the tile: the tiles of one map are grouped together, and
    the tiles of different maps, or of different extensions, never are. *)
Theorem tiles_share_group basename paths p q pre ext nl pre' ext' nl' :
  p ∈ paths → q ∈ paths →
  TileSpec.tile_parts (chars (basename p)) = Some (pre, ext, nl) →
  TileSpec.tile_parts (chars (basename q)) = Some (pre', ext', nl') →
  (∃ g, g ∈ _group_texture_sequences basename paths ∧ p ∈ g ∧ q ∈ g)
  ↔ pre = pre' ∧ ext = ext' ∧ nl = nl'.
Proof.
  intros Hp Hq Hparts Hparts'.
  pose proof (udim_key_key_of basename p) as Hkp.
  pose proof (udim_key_key_of basename q) as Hkq.
  rewrite (key_of_tile_parts _ _ _ _ Hparts) in Hkp.
  rewrite (key_of_tile_parts _ _ _ _ Hparts') in Hkq.
  apply tile_parts_form in Hparts as (ds & _ & _ & _ & Hext & Hword & Hnl).
  apply tile_parts_form in Hparts' as (ds' & _ & _ & _ & Hext' & Hword' & Hnl').
  split.
  - intros (g & (r & _ & ->)%elem_of_groups & [Hpr _]%list_elem_of_filter
              & [Hqr _]%list_elem_of_filter).
    rewrite <- Hqr, Hkp, Hkq in Hpr. apply str_inj in Hpr.
    by apply key_parts_inj.
  - intros (<- & <- & <-).
    exists (filter (λ r, udim_key basename r = udim_key basename p) paths).
    split; [apply elem_of_groups; by exists p|].
    split; apply list_elem_of_filter; split; try done. by rewrite Hkp, Hkq.
Qed.

Lemma tiles_share_group_witness :
  ∃ g, g ∈ _group_texture_sequences posixpath_basename
             ["out/Set_Base_sRGB.1001.exr"; "out/Set_Height_Raw.1001.exr";
              "out/Set_Base_sRGB.1002.exr"]
       ∧ "out/Set_Base_sRGB.1001.exr" ∈ g ∧ "out/Set_Base_sRGB.1002.exr" ∈ g.
Proof.
  apply (tiles_share_group posixpath_basename
           ["out/Set_Base_sRGB.1001.exr"; "out/Set_Height_Raw.1001.exr";
            "out/Set_Base_sRGB.1002.exr"]
           "out/Set_Base_sRGB.1001.exr" "out/Set_Base_sRGB.1002.exr"
           (chars "Set_Base_sRGB") (chars "exr") []
           (chars "Set_Base_sRGB") (chars "exr") []).
  - apply list_elem_of_here.
  - apply list_elem_of_further, list_elem_of_further, list_elem_of_here.
  - reflexivity.
  - reflexivity.
  - done.
Defined.

(** ** Every command reaches the menu *)

Lemma connected_pos cb (cmds : list AppCommand) c :
  c ∈ cmds → callback c = cb → (1 ≤ connected cb cmds)%nat.
Proof.
  intros Hc Hcb. unfold connected.
  assert (c ∈ filter (λ c', callback c' = cb) cmds) as Hin
    by (by apply list_elem_of_filter).
  destruct (filter _ cmds); [by apply elem_of_nil in Hin|simpl; lia].
Qed.

Lemma favourite_mark_all_matched favs cmd :
  favourite cmd = false → favourite (mark_all favs cmd) = true →
  ∃ fav, fav ∈ favs ∧ is_favourite fav cmd = true.
Proof.
  intros Hfalse. unfold mark_all.
  destruct (existsb _ favs) eqn:Hex; [|congruence]. intros _.
  apply existsb_exists in Hex as (fav & Hin & Hfav).
  exists fav. split; [by apply list_elem_of_In|done].
Qed.

(** X3.  When no command of [engine.commands] has a tooltip, the build
    returns and no command is left out of the menu: for each of them the
    finished menu holds at least one action connected to its callback,
    whatever its type, its app and the favourites. *)
Theorem every_command_in_menu engine :
  no_tooltips (commands engine) →
  ∃ menu,
    setup_menu_items engine = (menu, Returned ())
    ∧ ∀ c, c ∈ build_menu_items (commands engine) →
           (1 ≤ count_menu (callback c) menu)%nat.
Proof.
  intros Hplain. exists (menu_tree engine).
  split; [by apply setup_menu_items_returns, build_menu_items_no_tooltip|].
  intros c Hc. rewrite count_menu_tree, connected_favourite_matches. cbv zeta.
  set (favs := menu_favourites engine).
  set (menu_items := build_menu_items (commands engine)) in *.
  set (marked := mark_all favs <$> menu_items).
  set (cb := callback c).
  assert (mark_all favs c ∈ marked) as Hc' by (by apply list_elem_of_fmap_2).
  assert (callback (mark_all favs c) = cb) as Hcb
    by apply (mark_all_props favs c).
  destruct (decide (is_context_command (mark_all favs c))) as [Hctx|Hctx].
  { pose proof (connected_pos cb (filter is_context_command marked) _
                  (proj2 (list_elem_of_filter _ _ _) (conj Hctx Hc')) Hcb). lia. }
  set (others := filter (λ c', ¬ is_context_command c') marked).
  assert (mark_all favs c ∈ others) as Hin by (by apply list_elem_of_filter).
  set (k := app_key (mark_all favs c)).
  assert (k ∈ (group_dict app_key others).*1) as Hk.
  { rewrite group_dict_keyed. unfold TileSpec.keyed_groups.
    rewrite <- list_fmap_compose, list_fmap_id.
    by apply elem_of_first_seen, list_elem_of_fmap_2. }
  pose proof (sum_list_with_in k
    (λ k, group_count cb (default [] (dict_get k (group_dict app_key others))))
    _ Hk) as Hsum. cbv beta in Hsum.
  assert (dict_get k (group_dict app_key others)
          = Some (filter (λ c', app_key c' = k) others)) as Hget.
  { rewrite group_dict_keyed. unfold TileSpec.keyed_groups.
    rewrite dict_get_fmap, decide_True; [done|].
    by apply elem_of_first_seen, list_elem_of_fmap_2. }
  rewrite Hget in Hsum. change (default [] (Some ?x)) with x in Hsum.
  assert (mark_all favs c ∈ filter (λ c', app_key c' = k) others) as Hgroup
    by (by apply list_elem_of_filter).
  set (by_app := sum_list_with _ (group_dict app_key others).*1) in *.
  clearbody by_app. unfold group_count in Hsum.
  destruct (bool_decide (1 < length (filter (λ c', app_key c' = k) others)))
    eqn:Hlen.
  { pose proof (connected_pos cb _ _ Hgroup Hcb). lia. }
  apply bool_decide_eq_false_1 in Hlen.
  destruct (filter (λ c', app_key c' = k) others) as [|c0 [|c1 tl]];
    [by apply elem_of_nil in Hgroup| |simpl in Hlen; lia].
  apply list_elem_of_singleton in Hgroup as <-.
  destruct (favourite (mark_all favs c)) eqn:Hflag.
  - destruct (favourite_mark_all_matched favs c) as (fav & Hfav & Hmatch);
      [by eapply build_menu_items_favourite|done|].
    pose proof (sum_list_with_in fav
      (λ fav, connected cb (filter (λ c0, is_favourite fav c0 = true) menu_items))
      _ Hfav) as Hsum'. cbv beta in Hsum'.
    pose proof (connected_pos cb
      (filter (λ c0, is_favourite fav c0 = true) menu_items) c
      (proj2 (list_elem_of_filter _ _ _) (conj Hmatch Hc)) eq_refl). lia.
  - pose proof (connected_pos cb [mark_all favs c] _ (list_elem_of_here _ _) Hcb).
    lia.
Qed.

Lemma every_command_in_menu_witness :
  no_tooltips (commands sample_engine)
  ∧ ∃ menu,
      setup_menu_items sample_engine = (menu, Returned ())
      ∧ ∀ c, c ∈ build_menu_items (commands sample_engine) →
             (1 ≤ count_menu (callback c) menu)%nat.
Proof.
  assert (no_tooltips (commands sample_engine)) as Hplain
    by (repeat constructor).
  split; [exact Hplain|].
  exact (every_command_in_menu sample_engine Hplain).
Defined.

(** ** When the build returns *)

Lemma build_menu_items_tooltips cmds :
  Forall (λ c, ¬ has_tooltip c) (build_menu_items cmds) → no_tooltips cmds.
Proof.
  unfold build_menu_items, no_tooltips. rewrite sort_by_perm.
  rewrite !Forall_forall. intros Hall [n d] Hin. cbn [snd].
  specialize (Hall (new_AppCommand n d)).
  destruct (prop_tooltip (cd_properties d)) as [tip|] eqn:Htip; [|done].
  destruct Hall.
  - apply list_elem_of_fmap. by exists (n, d).
  - unfold has_tooltip. cbn. by rewrite Htip.
Qed.

(** X17.  The build returns exactly when no command of [engine.commands]
    has a tooltip: every command reaches [_add_menu_item] in one pass or
    another, and one tooltip is enough to make the call raise. *)
Theorem setup_menu_items_returns_iff engine :
  (setup_menu_items engine).2 = Returned () ↔ no_tooltips (commands engine).
Proof.
  split.
  2:{ intros Hplain.
      by rewrite setup_menu_items_returns
        by (by apply build_menu_items_no_tooltip). }
  intros Hret. apply build_menu_items_tooltips.
  unfold setup_menu_items in Hret.
  rewrite (bind_Returned _ _ _ _ _ (add_context_menu_tree (context engine)))
    in Hret.
  rewrite (bind_Returned _ _ _ _ _ (add_divider_root _)) in Hret.
  cbn [app] in Hret.
  set (menu_items := build_menu_items (commands engine)) in *.
  set (favs := menu_favourites engine) in *.
  set (root1 := [MenuAction (ctx_name (context engine))
                   (context_actions (context engine)); Separator]) in *.
  (* the favourites pass *)
  destruct (add_favourites favs menu_items root1) as [root2 [marked|e]] eqn:Hfavs.
  2:{ by rewrite (bind_Raised _ _ _ _ _ Hfavs) in Hret. }
  pose proof (add_favourites_Returned _ _ _ _ _ Hfavs) as Hmatches.
  rewrite (add_favourites_fold _ _ _ Hmatches) in Hfavs.
  rewrite (bind_Returned _ _ _ _ _ (add_favourites_fold _ _ _ Hmatches)) in Hret.
  clear Hfavs root2 marked.
  rewrite (bind_Returned _ _ _ _ _ (add_divider_root _)) in Hret.
  destruct (favourites_head favs menu_items (context engine))
    as (acts & rest & Hhead).
  fold root1 in Hhead. rewrite Hhead in Hret. cbn [app] in Hret.
  set (marked := mark_all favs <$> menu_items) in *.
  (* the commands of the context menu *)
  unfold _add_app_menus in Hret.
  pose proof (add_app_menus_fold marked [0]
                (MenuAction (ctx_name (context engine)) acts
                 :: rest ++ [Separator]) acts [] eq_refl) as Hfold.
  destruct (decide (Exists has_tooltip (filter is_context_command marked)))
    as [Hex|Hctx].
  { by rewrite (bind_Raised _ _ _ _ _ Hfold) in Hret. }
  rewrite (bind_Returned _ _ _ _ _ Hfold) in Hret. clear Hfold.
  set (others := filter (λ c, ¬ is_context_command c) marked) in *.
  change (fold_left (λ d c, setdefault_append (app_key c) c d) others [])
    with (group_dict app_key others) in Hret.
  (* the groups of the apps *)
  unfold _add_commands_by_app_to_menu in Hret.
  destruct (for_each (add_app_commands (group_dict app_key others)) _ _)
    as [root5 [[]|e]] eqn:Hloop; [|done].
  apply for_each_Returned_inv in Hloop. rewrite sort_by_perm in Hloop.
  rewrite Forall_forall in Hloop.
  apply Forall_forall. intros c Hc Htip.
  assert (mark_all favs c ∈ marked) as Hc' by (by apply list_elem_of_fmap_2).
  assert (has_tooltip (mark_all favs c)) as Htip'
    by (by apply has_tooltip_mark_all).
  destruct (decide (is_context_command (mark_all favs c))) as [Htype|Htype].
  { apply Hctx. apply Exists_exists. exists (mark_all favs c).
    split; [by apply list_elem_of_filter|done]. }
  assert (mark_all favs c ∈ others) as Hin by (by apply list_elem_of_filter).
  set (k := app_key (mark_all favs c)).
  assert (k ∈ (group_dict app_key others).*1) as Hk.
  { rewrite group_dict_keyed. unfold TileSpec.keyed_groups.
    rewrite <- list_fmap_compose, list_fmap_id.
    by apply elem_of_first_seen, list_elem_of_fmap_2. }
  destruct (Hloop k Hk) as [r Hk'].
  rewrite add_app_commands_at in Hk'. cbv zeta in Hk'.
  assert (dict_get k (group_dict app_key others)
          = Some (filter (λ c', app_key c' = k) others)) as Hget.
  { rewrite group_dict_keyed. unfold TileSpec.keyed_groups.
    rewrite dict_get_fmap, decide_True; [done|].
    by apply elem_of_first_seen, list_elem_of_fmap_2. }
  rewrite Hget in Hk'. change (default [] (Some ?x)) with x in Hk'.
  assert (mark_all favs c ∈ filter (λ c', app_key c' = k) others) as Hgroup
    by (by apply list_elem_of_filter).
  destruct (bool_decide (1 < length (filter (λ c', app_key c' = k) others)))
    eqn:Hlen.
  { cbn [snd] in Hk'. unfold loop_outcome in Hk'.
    rewrite decide_True in Hk'; [done|].
    apply Exists_exists. exists (mark_all favs c).
    split; [by rewrite sort_by_perm|done]. }
  apply bool_decide_eq_false_1 in Hlen.
  destruct (filter (λ c', app_key c' = k) others) as [|c0 [|c1 tl]];
    [by apply elem_of_nil in Hgroup| |simpl in Hlen; lia].
  apply list_elem_of_singleton in Hgroup as <-.
  destruct (favourite (mark_all favs c)) eqn:Hflag.
  - destruct (favourite_mark_all_matched favs c) as (fav & Hfav & Hmatch);
      [by eapply build_menu_items_favourite|done|].
    rewrite Forall_forall in Hmatches. apply (Hmatches c); [|done].
    apply elem_of_favourite_matches. by exists fav.
  - cbn [snd] in Hk'. unfold add_outcome in Hk'.
    by rewrite decide_True in Hk'.
Qed.

(** ** The layout of the menu *)

Lemma attach_plain cmd acts :
  slash ∉ chars (name cmd) → attach cmd acts = acts ++ [leaf_of cmd].
Proof.
  intros Hplain. unfold attach. by rewrite split_on_no_sep.
Qed.

Lemma fold_attach_plain cmds acts :
  Forall (λ c, slash ∉ chars (name c)) cmds →
  fold_left (λ a c, attach c a) cmds acts = acts ++ (leaf_of <$> cmds).
Proof.
  intros Hplain. revert acts.
  induction Hplain as [|c cmds Hc _ IH]; intros acts; simpl.
  { by rewrite app_nil_r. }
  rewrite attach_plain, IH by done.
  by rewrite <- app_assoc.
Qed.

Lemma leaf_of_mark_all favs cmd : leaf_of (mark_all favs cmd) = leaf_of cmd.
Proof. unfold mark_all. by destruct (existsb _ favs). Qed.

Lemma Forall_filter_keep {A} (P Q : A → Prop) `{∀ a, Decision (Q a)}
    (l : list A) :
  Forall P l → Forall P (filter Q l).
Proof.
  rewrite !Forall_forall. intros HP x [_ Hx]%list_elem_of_filter. by apply HP.
Qed.

Lemma list_bind_ext_in {A B} (f g : A → list B) (l : list A) :
  (∀ x, x ∈ l → f x = g x) → l ≫= f = l ≫= g.
Proof.
  induction l as [|x l IH]; intros Hfg; [done|]. cbn [mbind list_bind].
  change (f x ++ (l ≫= f) = g x ++ (l ≫= g)).
  rewrite Hfg by left. rewrite IH; [done|]. intros y Hy. apply Hfg. by right.
Qed.

(** The pass over the groups on plain names: one entry per app, after what
    the menu has. *)
Lemma fold_app_tree_plain (groups : string → list AppCommand) keys root :
  (∀ k, Forall (λ c, slash ∉ chars (name c)) (groups k)) →
  fold_left (λ r k, app_tree k (groups k) r) keys root
  = root ++ (keys ≫= λ k, app_entry k (groups k)).
Proof.
  intros Hplain. revert root.
  induction keys as [|k keys IH]; intros root.
  { cbn [fold_left mbind list_bind]. by rewrite app_nil_r. }
  cbn [fold_left mbind list_bind]. rewrite IH.
  unfold app_tree, app_entry. specialize (Hplain k).
  destruct (bool_decide (1 < length (groups k))).
  - rewrite fold_attach_plain.
    2:{ by rewrite sort_by_perm. }
    by rewrite <- app_assoc.
  - destruct (groups k) as [|cmd_obj rest]; [done|].
    destruct (favourite cmd_obj); [done|].
    apply Forall_cons_1 in Hplain as [Hc _].
    rewrite attach_plain by done.
    by rewrite <- app_assoc.
Qed.

Lemma build_menu_items_plain cmds :
  Forall (λ n, slash ∉ chars n) cmds.*1 →
  Forall (λ c, slash ∉ chars (name c)) (build_menu_items cmds).
Proof.
  intros Hplain. unfold build_menu_items. rewrite sort_by_perm.
  rewrite Forall_forall in Hplain. apply Forall_forall.
  intros c ([n d] & -> & Hin)%list_elem_of_fmap. simpl.
  apply Hplain. by apply (list_elem_of_fmap_2 fst) in Hin.
Qed.

Lemma is_context_command_mark_all favs cmd :
  is_context_command (mark_all favs cmd) ↔ is_context_command cmd.
Proof.
  unfold is_context_command, get_type.
  by destruct (mark_all_props favs cmd) as (_ & -> & _).
Qed.

(** X4.  When no command has a tooltip and no command name has a slash,
    the build returns and the whole menu is known: the context menu with
    its own actions and then the commands of type [context_menu], a
    separator, the matches of each favourite in the order of the setting,
    a separator, and one entry per app in the order of the app names. *)
Theorem setup_menu_items_layout engine :
  no_tooltips (commands engine) →
  Forall (λ n, slash ∉ chars n) (commands engine).*1 →
  setup_menu_items engine = (menu_layout engine, Returned ()).
Proof.
  intros Htips%build_menu_items_no_tooltip Hplain%build_menu_items_plain.
  rewrite setup_menu_items_returns by done. f_equal.
  unfold menu_tree, menu_layout.
  set (menu_items := build_menu_items (commands engine)) in *.
  set (favs := menu_favourites engine).
  set (marked := mark_all favs <$> menu_items).
  assert (Forall (λ c, slash ∉ chars (name c)) marked) as Hmarked.
  { rewrite Forall_forall in Hplain. apply Forall_forall.
    intros c' (c & -> & Hin)%list_elem_of_fmap.
    destruct (mark_all_props favs c) as (-> & _). by apply Hplain. }
  rewrite (fold_attach_plain (favourite_matches favs menu_items)).
  2:{ rewrite Forall_forall in Hplain. apply Forall_forall.
      intros c (fav & _ & Hc & _)%elem_of_favourite_matches. by apply Hplain. }
  cbn [app menu_actions lookup list_lookup default replace_at alter list_alter].
  unfold id.
  rewrite fold_attach_plain by (by apply Forall_filter_keep).
  set (others := filter (λ c, ¬ is_context_command c) marked).
  assert (∀ k, dict_get k (group_dict app_key others)
               = if decide (k ∈ TileSpec.first_seen (app_key <$> others))
                 then Some (filter (λ c, app_key c = k) others) else None)
    as Hget.
  { intros k. rewrite group_dict_keyed. unfold TileSpec.keyed_groups.
    apply (dict_get_fmap (λ k', filter (λ c, app_key c = k') others)). }
  rewrite (fold_app_tree_plain
             (λ k, default [] (dict_get k (group_dict app_key others)))).
  2:{ intros k. rewrite Hget. destruct (decide _); [|constructor].
      by do 2 apply Forall_filter_keep. }
  assert ((group_dict app_key others).*1
          = TileSpec.first_seen (app_key <$> others)) as ->.
  { rewrite group_dict_keyed. unfold TileSpec.keyed_groups.
    rewrite <- list_fmap_compose. apply list_fmap_id. }
  cbn [app]. f_equal.
  { f_equal. f_equal. unfold marked.
    rewrite list_filter_fmap_eq, <- list_fmap_compose.
    rewrite (list_filter_iff _ is_context_command)
      by (intros c; apply is_context_command_mark_all).
    apply list_fmap_ext. intros i c _. apply leaf_of_mark_all. }
  f_equal. rewrite <- app_assoc. f_equal.
  { unfold favourite_matches. symmetry. apply list_bind_fmap_comm. }
  cbn [app]. f_equal.
  apply list_bind_ext_in. intros k Hk. rewrite sort_by_perm in Hk.
  by rewrite Hget, decide_True.
Qed.

Lemma setup_menu_items_layout_witness :
  no_tooltips (commands workfiles_engine)
  ∧ Forall (λ n, slash ∉ chars n) (commands workfiles_engine).*1
  ∧ setup_menu_items workfiles_engine
    = (menu_layout workfiles_engine, Returned ()).
Proof.
  assert (no_tooltips (commands workfiles_engine)) as Htips
    by (repeat constructor).
  assert (Forall (λ n, slash ∉ chars n) (commands workfiles_engine).*1)
    as Hplain.
  { repeat constructor; intros Hin%list_elem_of_In; vm_compute in Hin;
      intuition discriminate. }
  split; [exact Htips|]. split; [exact Hplain|].
  exact (setup_menu_items_layout workfiles_engine Htips Hplain).
Defined.

(** ** One command in one menu *)

(** X5.  A call of [add_command_to_menu] on a menu of the tree adds one
    action connected to the command's callback, wherever the name sends
    it, and no action connected to any other callback; so it is of the
    menu the call leaves when it raises. *)
Theorem add_command_to_menu_one_action cb cmd menu root :
  is_Some (menu_actions menu root) →
  count_menu cb (add_command_to_menu cmd menu root).1
  = count_menu cb root + (if decide (callback cmd = cb) then 1 else 0).
Proof.
  intros Hmenu. rewrite count_add_command_to_menu by done.
  unfold connected. rewrite filter_cons, filter_nil.
  by destruct (decide (callback cmd = cb)).
Qed.

Lemma add_command_to_menu_one_action_witness :
  count_menu (engine_callback 1)
    (add_command_to_menu sample_publish [0]
       [MenuAction "Publish" [Action "Publish" (engine_callback 1) None true]]).1
  = 2.
Proof.
  exact (add_command_to_menu_one_action (engine_callback 1) sample_publish [0]
           [MenuAction "Publish" [Action "Publish" (engine_callback 1) None true]]
           (mk_is_Some _ _ eq_refl)).
Defined.

(** X6.  A name of N segments puts the command's action, named by the last
    segment and connected to the command's callback, at the end of a chain
    of N-1 sub-menus below the menu it is added to, titled by the segments
    before the last, in order.  No tooltip is ever set on the action.
    Without a tooltip in the properties the call returns and the action
    is enabled as [enable_callback] says; with one the call raises
    [AttributeError] and leaves the action enabled. *)
Theorem add_command_to_menu_nested cmd menu root :
  is_Some (menu_actions menu root) →
  ∃ acts,
    menu_actions menu (add_command_to_menu cmd menu root).1 = Some acts
    ∧ leaf_below (removelast (split_on slash (name cmd)))
        (Action (List.last (split_on slash (name cmd)) "") (callback cmd) None
           (if decide (has_tooltip cmd) then true
            else default true (prop_enable_callback (properties cmd))))
        acts
    ∧ (add_command_to_menu cmd menu root).2
      = if decide (has_tooltip cmd) then Raised AttributeError
        else Returned ().
Proof.
  intros [acts Hacts]. exists (attach cmd acts).
  rewrite (add_command_to_menu_at cmd menu root acts Hacts). cbn [fst snd].
  split; [by eapply menu_actions_replace_at|].
  split; [apply attach_leaf_below|done].
Qed.

Lemma add_command_to_menu_nested_witness :
  ∃ acts,
    menu_actions []
      (add_command_to_menu
         (new_AppCommand "Export/Textures/All" (sample_command 7 None None))
         [] [Separator]).1 = Some acts
    ∧ leaf_below ["Export"; "Textures"]
        (Action "All" (engine_callback 7) None true) acts
    ∧ (add_command_to_menu
         (new_AppCommand "Export/Textures/All" (sample_command 7 None None))
         [] [Separator]).2 = Returned ().
Proof.
  exact (add_command_to_menu_nested
           (new_AppCommand "Export/Textures/All" (sample_command 7 None None))
           [] [Separator] (mk_is_Some _ _ eq_refl)).
Defined.

(** ** Two commands below one label *)

Lemma list_find_insert_same {A} (P : A → Prop) `{∀ x, Decision (P x)}
    (l : list A) i x y :
  list_find P l = Some (i, x) → P y → list_find P (<[i := y]> l) = Some (i, y).
Proof.
  intros (Hi & Hx & Hbefore)%list_find_Some Hy.
  apply list_find_Some. split; [|split; [done|]].
  - apply list_lookup_insert_eq. by eapply lookup_lt_Some.
  - intros j z Hj Hlt. rewrite list_lookup_insert_ne in Hj by lia.
    by eapply Hbefore.
Qed.

(** After a command has gone below [label], the first action with that
    text is the sub-menu it went into, unless a plain action or a
    separator with the text comes first. *)
Lemma add_path_first_sub_menu label labels leaf acts :
  (∀ i a, list_find (λ a, action_text a = label) acts = Some (i, a) →
          ∃ sub, a = MenuAction label sub) →
  ∃ i sub,
    list_find (λ a, action_text a = label) (add_path (label :: labels) leaf acts)
    = Some (i, MenuAction label (add_path labels leaf sub)).
Proof.
  intros Hsub.
  destruct (list_find (λ a, action_text a = label) acts) as [[i a]|] eqn:Hfind.
  - destruct (Hsub i a eq_refl) as [sub ->]. exists i, sub.
    cbn [add_path]. rewrite Hfind.
    by eapply list_find_insert_same.
  - exists (length acts), [].
    by destruct (add_path_creates label labels leaf acts Hfind) as [_ ->].
Qed.

(** X7.  Two commands whose names start with the same segment end in the
    same sub-menu: the second call finds the sub-menu the first one used
    and changes nothing else at the top level.  The condition is that the
    first action with that text, if there is one, is a sub-menu. *)
Theorem sub_menu_shared c1 c2 label rest1 rest2 root :
  split_on slash (name c1) = label :: rest1 → rest1 ≠ [] →
  split_on slash (name c2) = label :: rest2 → rest2 ≠ [] →
  (∀ i a, list_find (λ a, action_text a = label) root = Some (i, a) →
          ∃ sub, a = MenuAction label sub) →
  ∃ i sub1 sub2,
    (add_command_to_menu c1 [] root).1 !! i = Some (MenuAction label sub1)
    ∧ (add_command_to_menu c2 [] (add_command_to_menu c1 [] root).1).1
      = <[i := MenuAction label sub2]> (add_command_to_menu c1 [] root).1
    ∧ (1 ≤ count_menu (callback c1) sub2)%nat
    ∧ (1 ≤ count_menu (callback c2) sub2)%nat.
Proof.
  intros Hname1 Hrest1 Hname2 Hrest2 Hsub.
  rewrite !add_command_to_menu_root. cbn [fst]. unfold attach.
  rewrite Hname1, Hname2.
  replace (removelast (label :: rest1)) with (label :: removelast rest1)
    by (by destruct rest1).
  replace (removelast (label :: rest2)) with (label :: removelast rest2)
    by (by destruct rest2).
  destruct (add_path_first_sub_menu label (removelast rest1) (leaf_of c1) root Hsub)
    as (i & sub & Hfind).
  set (root1 := add_path (label :: removelast rest1) (leaf_of c1) root) in *.
  set (sub1 := add_path (removelast rest1) (leaf_of c1) sub) in *.
  exists i, sub1, (add_path (removelast rest2) (leaf_of c2) sub1).
  split; [by apply list_find_Some in Hfind as (? & _)|].
  split; [cbn [add_path]; by rewrite Hfind|].
  rewrite !count_add_path. unfold sub1. rewrite !count_add_path.
  unfold leaf_of. cbn [count_action].
  rewrite (decide_True (P := callback c1 = callback c1)) by done.
  rewrite (decide_True (P := callback c2 = callback c2)) by done. lia.
Qed.

Lemma sub_menu_shared_witness :
  ∃ i sub1 sub2,
    (add_command_to_menu
       (new_AppCommand "Publish/Model" (sample_command 2 None None)) [] []).1
    !! i = Some (MenuAction "Publish" sub1)
    ∧ (add_command_to_menu
         (new_AppCommand "Publish/Textures" (sample_command 3 None None)) []
         (add_command_to_menu
            (new_AppCommand "Publish/Model" (sample_command 2 None None)) [] []).1).1
      = <[i := MenuAction "Publish" sub2]>
          (add_command_to_menu
             (new_AppCommand "Publish/Model" (sample_command 2 None None)) [] []).1
    ∧ (1 ≤ count_menu (engine_callback 2) sub2)%nat
    ∧ (1 ≤ count_menu (engine_callback 3) sub2)%nat.
Proof.
  refine (sub_menu_shared
            (new_AppCommand "Publish/Model" (sample_command 2 None None))
            (new_AppCommand "Publish/Textures" (sample_command 3 None None))
            "Publish" ["Model"] ["Textures"] [] eq_refl _ eq_refl _ _).
  - discriminate.
  - discriminate.
  - intros i a Hfind. discriminate Hfind.
Defined.

(** ** The export preset that [validate] checks *)

Lemma choose_export_preset_from counter resource_presets index export_preset :
  choose_export_preset (shotgrid_presets_from counter resource_presets) index
    export_preset
  = if decide (Z.of_nat counter ≤ index)%Z then
      match filter (λ p, startswith (lower (resource_name p)) "shotgrid" = true)
              resource_presets !! (Z.to_nat index - counter)%nat with
      | Some preset => Some preset
      | None => export_preset
      end
    else export_preset.
Proof.
  revert counter export_preset.
  induction resource_presets as [|p ps IH]; intros counter export_preset.
  { cbn. by destruct (decide _). }
  cbn [shotgrid_presets_from].
  destruct (startswith (lower (resource_name p)) "shotgrid") eqn:Hp.
  - rewrite filter_cons_True by done.
    unfold choose_export_preset. cbn [fold_left entry_index entry_preset].
    fold (choose_export_preset (shotgrid_presets_from (S counter) ps) index
            (if decide (Z.of_nat counter = index) then Some p else export_preset)).
    rewrite IH.
    destruct (decide (Z.of_nat counter = index)) as [<-|Hne].
    + rewrite decide_False by lia. rewrite decide_True by lia.
      by rewrite Nat2Z.id, Nat.sub_diag.
    + destruct (decide (Z.of_nat (S counter) ≤ index)%Z).
      * rewrite decide_True by lia.
        by replace (Z.to_nat index - counter)%nat
          with (S (Z.to_nat index - S counter)) by lia.
      * by rewrite decide_False by lia.
  - rewrite filter_cons_False by (by rewrite Hp). apply IH.
Qed.

(** X8.  The preset that [validate] checks and exports with is the one at
    the chosen index among the resource presets whose name starts with
    "shotgrid" in any case, counted from 0 in the order of the list; an
    index that is negative or too large leaves the item's preset as it
    was. *)
Theorem validate_chooses_preset resource_presets index export_preset :
  choose_export_preset (default [] (accept resource_presets).2) index
    export_preset
  = if decide (0 ≤ index)%Z then
      match filter (λ p, startswith (lower (resource_name p)) "shotgrid" = true)
              resource_presets !! Z.to_nat index with
      | Some preset => Some preset
      | None => export_preset
      end
    else export_preset.
Proof.
  assert (default [] (accept resource_presets).2
          = shotgrid_presets_from 0 resource_presets) as ->.
  { unfold accept. by destruct (shotgrid_presets_from 0 resource_presets). }
  rewrite choose_export_preset_from. by rewrite Nat.sub_0_r.
Qed.

(** ** The file names of the output maps *)

Lemma strip_prefix_Some p s rest :
  strip_prefix p s = Some rest ↔ s = p ++ rest.
Proof.
  revert s. induction p as [|c p IH]; intros s; simpl.
  { split; congruence. }
  destruct s as [|c' s]; [done|].
  destruct (decide (c' = c)) as [->|Hne].
  - rewrite IH. split; congruence.
  - split; [done|]. congruence.
Qed.

Lemma strip_prefix_app p rest : strip_prefix p (p ++ rest) = Some rest.
Proof. by apply strip_prefix_Some. Qed.

Lemma rmatch_lits {R} s r inp g (k : Re.cont R) :
  Re.rmatch (lits s r) inp g k
  = match strip_prefix (chars s) inp with
    | Some rest => Re.rmatch r rest g k
    | None => None
    end.
Proof.
  unfold lits. revert inp.
  induction (chars s) as [|c p IH]; intros inp; [done|].
  cbn [foldr Re.rmatch strip_prefix]. destruct inp as [|c' inp]; [done|].
  destruct (decide (c' = c)); [apply IH|done].
Qed.

(** What the matcher computes on the pattern, without continuations. *)
Lemma match_here_abstract_path inp :
  Re.match_here TEXTURE_ABSTRACT_PATH_REGEX inp
  = match strip_prefix (chars "$textureSet_") inp with
    | Some (c :: s) =>
        if is_ascii_alnum c then
          match strip_prefix (chars "_$colorSpace(.$udim)")
                  (Re.skip_class is_ascii_alnum s) with
          | Some rest => Some (rest, None)
          | None => None
          end
        else None
    | _ => None
    end.
Proof.
  unfold Re.match_here, TEXTURE_ABSTRACT_PATH_REGEX. rewrite rmatch_lits.
  destruct (strip_prefix (chars "$textureSet_") inp) as [[|c s]|]; try done.
  cbn [Re.rmatch]. destruct (is_ascii_alnum c); [|done].
  rewrite star_greedy.
  2:{ intros c0 t g' Hc0. rewrite rmatch_lits. cbn.
      destruct (decide (c0 = "_"%char)) as [->|]; done. }
  rewrite rmatch_lits.
  change (chars "_$colorSpace(.$udim)")
    with (chars "_$colorSpace(.$udim" ++ [")"%char]).
  generalize (Re.skip_class is_ascii_alnum s) as s'.
  generalize (chars "_$colorSpace(.$udim") as p.
  induction p as [|c1 p IH]; intros s'; cbn.
  - destruct s' as [|c' s']; [done|]. by destruct (decide (c' = ")"%char)).
  - destruct s' as [|c' s']; [done|]. destruct (decide (c' = c1)); [apply IH|done].
Qed.

Lemma abstract_path_matches_form map_filename :
  abstract_path_matches map_filename = true ↔ abstract_path_form map_filename.
Proof.
  unfold abstract_path_matches, abstract_path_form.
  rewrite bool_decide_eq_true, match_here_abstract_path. split.
  - destruct (strip_prefix (chars "$textureSet_") (chars map_filename))
      as [[|c s]|] eqn:Hhead; try (by intros [? ?]).
    destruct (is_ascii_alnum c) eqn:Hc; [|by intros [? ?]].
    destruct (strip_prefix (chars "_$colorSpace(.$udim)")
                (Re.skip_class is_ascii_alnum s)) as [rest|] eqn:Htail;
      [|by intros [? ?]].
    intros _. apply strip_prefix_Some in Hhead, Htail.
    destruct (skip_class_run is_ascii_alnum s) as (run & Hs & Hrun).
    exists (c :: run), rest. split; [done|]. split.
    { simpl. by rewrite Hc, Hrun. }
    rewrite Hhead. f_equal. rewrite <- app_comm_cons. f_equal.
    by rewrite <- Htail.
  - intros (map_name & rest & Hne & Halnum & ->).
    rewrite strip_prefix_app.
    destruct map_name as [|c run]; [done|]. simpl in Halnum.
    apply andb_true_iff in Halnum as [Hc Hrun].
    rewrite <- app_comm_cons, Hc.
    rewrite skip_class_app; [|done|].
    + by rewrite strip_prefix_app.
    + intros c0 t Heq. injection Heq as <- _. done.
Qed.

(** X9.  The check of the export preset in [validate] passes exactly when
    the file name of every output map starts with [$textureSet_], one or
    more letters or digits of ASCII and [_$colorSpace(.$udim)]: a map name
    that is empty or has an underscore, or any other character, fails the
    preset, and whatever follows the pattern is not looked at. *)
Theorem output_maps_valid_spec maps :
  output_maps_valid maps = true ↔ Forall abstract_path_form maps.
Proof.
  induction maps as [|map_filename maps IH]; simpl.
  { split; [constructor|done]. }
  rewrite Forall_cons, <- IH, <- abstract_path_matches_form.
  destruct (abstract_path_matches map_filename); [tauto|].
  split; [done|]. by intros [? _].
Qed.

(** ** Paths through the drive mappings *)

Lemma chars_append s1 s2 : chars (s1 +:+ s2) = chars s1 ++ chars s2.
Proof.
  unfold chars. induction s1 as [|c s1 IH]; [done|]. simpl. by rewrite IH.
Qed.

Lemma lower_append s1 s2 : lower (s1 +:+ s2) = lower s1 +:+ lower s2.
Proof.
  unfold lower. rewrite chars_append, fmap_app.
  generalize (lower_char <$> chars s1) as l1.
  generalize (lower_char <$> chars s2) as l2.
  intros l2 l1. induction l1 as [|c l1 IH]; [done|]. simpl. by rewrite IH.
Qed.

Lemma startswith_append prefix rest : startswith (prefix +:+ rest) prefix = true.
Proof.
  unfold startswith. apply bool_decide_eq_true.
  rewrite chars_append, strip_prefix_app. by eexists.
Qed.

Lemma replace_once_prefix old new rest :
  replace_once (old +:+ rest) old new = new +:+ rest.
Proof.
  unfold replace_once. rewrite chars_append.
  destruct (chars old ++ chars rest) as [|c s] eqn:Hs.
  - cbn [replace_first]. rewrite <- Hs, strip_prefix_app.
    by rewrite <- chars_append, str_chars.
  - cbn [replace_first]. rewrite <- Hs, strip_prefix_app.
    by rewrite <- chars_append, str_chars.
Qed.

(** A text without an occurrence of [old] is left as it is. *)
Lemma replace_first_absent old new s :
  (∀ before after, s ≠ before ++ old ++ after) →
  replace_first old new s = s.
Proof.
  induction s as [|c s IH]; intros Habsent.
  - cbn. destruct (strip_prefix old []) as [rest|] eqn:Hstrip; [|done].
    apply strip_prefix_Some in Hstrip. by destruct (Habsent [] rest).
  - cbn [replace_first].
    destruct (strip_prefix old (c :: s)) as [rest|] eqn:Hstrip.
    { apply strip_prefix_Some in Hstrip. by destruct (Habsent [] rest). }
    f_equal. apply IH. intros before after ->.
    by destruct (Habsent (c :: before) after).
Qed.

Section PathConversionFacts.

Variable normpath : string → string.

(** X10.  On Windows, a path that starts with the UNC prefix of the first
    mapping comes back from the two conversions as it was: the first turns
    the prefix into the drive prefix and keeps the rest, the second undoes
    it.  The path and its converted form are taken to be normal already. *)
Theorem unc_path_round_trip mapping others rest :
  unc_prefix mapping ≠ "" → mapped_drive_prefix mapping ≠ "" →
  normpath (unc_prefix mapping +:+ rest) = unc_prefix mapping +:+ rest →
  normpath (mapped_drive_prefix mapping +:+ rest)
  = mapped_drive_prefix mapping +:+ rest →
  _convert_unc_path_to_mapped_drive_path true normpath (mapping :: others)
    (unc_prefix mapping +:+ rest)
  = mapped_drive_prefix mapping +:+ rest
  ∧ _convert_mapped_drive_path_to_unc_path true normpath (mapping :: others)
      (mapped_drive_prefix mapping +:+ rest)
    = unc_prefix mapping +:+ rest.
Proof.
  intros Hunc Hmapped Hnorm1 Hnorm2.
  unfold _convert_unc_path_to_mapped_drive_path,
    _convert_mapped_drive_path_to_unc_path.
  cbn [negb replace_mapped_prefix]. rewrite Hnorm1, Hnorm2.
  rewrite !bool_decide_eq_false_2 by done. cbn [orb].
  rewrite !lower_append, !startswith_append.
  by rewrite !replace_once_prefix.
Qed.

(** X11.  The prefix is looked for without regard to case but replaced
    with regard to it: on Windows, when the normal form of the path starts
    with the UNC prefix of the first mapping up to case and holds the
    prefix nowhere as it is written, the conversion returns the normal
    form of the path, and no later mapping is tried. *)
Theorem unc_path_case_mismatch mapping others filepath :
  unc_prefix mapping ≠ "" → mapped_drive_prefix mapping ≠ "" →
  startswith (lower (normpath filepath)) (lower (unc_prefix mapping)) = true →
  (∀ before after,
     chars (normpath filepath) ≠ before ++ chars (unc_prefix mapping) ++ after) →
  _convert_unc_path_to_mapped_drive_path true normpath (mapping :: others)
    filepath
  = normpath filepath.
Proof.
  intros Hunc Hmapped Hstarts Habsent.
  unfold _convert_unc_path_to_mapped_drive_path.
  cbn [negb replace_mapped_prefix].
  rewrite !bool_decide_eq_false_2 by done. cbn [orb]. rewrite Hstarts.
  unfold replace_once. rewrite replace_first_absent by done.
  apply str_chars.
Qed.

End PathConversionFacts.

Lemma unc_path_round_trip_witness :
  _convert_unc_path_to_mapped_drive_path true id
    [{| unc_prefix := "\\server\projects"; mapped_drive_prefix := "P:" |}]
    "\\server\projects\hero\Set_Base_sRGB.1001.exr"
  = "P:\hero\Set_Base_sRGB.1001.exr"
  ∧ _convert_mapped_drive_path_to_unc_path true id
      [{| unc_prefix := "\\server\projects"; mapped_drive_prefix := "P:" |}]
      "P:\hero\Set_Base_sRGB.1001.exr"
    = "\\server\projects\hero\Set_Base_sRGB.1001.exr".
Proof.
  refine (unc_path_round_trip id
            {| unc_prefix := "\\server\projects"; mapped_drive_prefix := "P:" |}
            [] "\hero\Set_Base_sRGB.1001.exr" _ _ eq_refl eq_refl);
    discriminate.
Defined.

Lemma unc_path_case_mismatch_witness :
  _convert_unc_path_to_mapped_drive_path true id
    [{| unc_prefix := "\\SERVER\p"; mapped_drive_prefix := "P:" |};
     {| unc_prefix := "\\server\p"; mapped_drive_prefix := "P:" |}]
    "\\server\p"
  = "\\server\p".
Proof.
  refine (unc_path_case_mismatch id
            {| unc_prefix := "\\SERVER\p"; mapped_drive_prefix := "P:" |}
            [{| unc_prefix := "\\server\p"; mapped_drive_prefix := "P:" |}]
            "\\server\p" _ _ eq_refl _).
  - discriminate.
  - discriminate.
  - intros before after Heq.
    pose proof (f_equal length Heq) as Hlen.
    rewrite !length_app in Hlen. cbn in Hlen.
    destruct before; [|simpl in Hlen; lia].
    destruct after; [|simpl in Hlen; lia].
    discriminate Heq.
Defined.

(** ** The commands run at startup *)

Lemma dict_get_set_eq {K V} `{EqDecision K} (k : K) (v : V) d :
  dict_get k (dict_set k v d) = Some v.
Proof.
  induction d as [|[k' v'] d IH]; simpl.
  - by rewrite decide_True.
  - destruct (decide (k' = k)) as [->|Hne]; simpl.
    + by rewrite decide_True.
    + by rewrite decide_False.
Qed.

Lemma dict_get_set_ne {K V} `{EqDecision K} (k k0 : K) (v : V) d :
  k0 ≠ k → dict_get k (dict_set k0 v d) = dict_get k d.
Proof.
  intros Hne. induction d as [|[k' v'] d IH]; simpl.
  - by rewrite decide_False.
  - destruct (decide (k' = k0)) as [->|Hne']; simpl.
    + by rewrite !decide_False.
    + destruct (decide (k' = k)); [done|apply IH].
Qed.

Lemma dict_set_fresh {K V} `{EqDecision K} (k : K) (v : V) d :
  k ∉ d.*1 → dict_set k v d = d ++ [(k, v)].
Proof.
  induction d as [|[k' v'] d IH]; simpl; [done|].
  rewrite not_elem_of_cons. intros [Hne Hk].
  rewrite decide_False by done. by rewrite IH.
Qed.

Lemma dict_get_filter {K V} `{EqDecision K} (k : K) (d : list (K * V)) :
  NoDup d.*1 →
  filter (λ item, item.1 = k) d
  = match dict_get k d with Some v => [(k, v)] | None => [] end.
Proof.
  induction d as [|[k' v'] d IH]; [done|].
  rewrite fmap_cons, NoDup_cons. intros [Hk' Hd]. cbn [dict_get].
  destruct (decide (k' = k)) as [->|Hne].
  - rewrite filter_cons_True by done. f_equal.
    apply filter_none. intros [k0 v0] Hin. simpl. intros ->.
    apply Hk'. by apply (list_elem_of_fmap_2 fst) in Hin.
  - rewrite filter_cons_False by done. by apply IH.
Qed.

Lemma dict_get_fmap_value {K V W} `{EqDecision K} (f : V → W) (k : K)
    (d : list (K * V)) :
  dict_get k ((λ item, (item.1, f item.2)) <$> d) = f <$> dict_get k d.
Proof.
  induction d as [|[k' v] d IH]; [done|]. rewrite fmap_cons. cbn [dict_get fst snd].
  destruct (decide (k' = k)); [done|apply IH].
Qed.

Lemma filter_all {A} (P : A → Prop) `{∀ a, Decision (P a)} (l : list A) :
  (∀ x, P x) → filter P l = l.
Proof.
  intros HP. induction l as [|x l IH]; [done|].
  rewrite filter_cons_True by done. by rewrite IH.
Qed.

Lemma calls_app events1 events2 :
  calls (events1 ++ events2) = calls events1 ++ calls events2.
Proof. unfold calls. apply bind_app. Qed.

Section StartupFacts.

Variable instance_name : App → string.

(** The dictionary of an app instance holds its commands, in the order in
    which they were registered. *)
Lemma app_instance_commands_get a cmds :
  NoDup cmds.*1 →
  dict_get a (app_instance_commands_of instance_name cmds)
  = match commands_of_instance instance_name a cmds with
    | [] => None
    | mine => Some ((λ item, (item.1, cd_callback item.2)) <$> mine)
    end.
Proof.
  unfold app_instance_commands_of, commands_of_instance.
  induction cmds as [|[cn v] cmds IH] using rev_ind; [done|].
  rewrite fmap_app, NoDup_app. intros (Hnodup & Hfresh & _).
  specialize (IH Hnodup). rewrite fold_left_app, filter_app. cbn [fold_left].
  set (D := fold_left (add_instance_command instance_name) cmds []) in *.
  unfold add_instance_command.
  destruct (prop_app (cd_properties v)) as [app|] eqn:Happ.
  2:{ rewrite filter_cons_False by (simpl; rewrite Happ; done).
      by rewrite filter_nil, app_nil_r. }
  destruct (decide (instance_name app = a)) as [Ha|Ha].
  - rewrite Ha, dict_get_set_eq, IH.
    rewrite filter_cons_True by (simpl; rewrite Happ; simpl; congruence).
    rewrite filter_nil.
    set (mine := filter _ cmds).
    assert (cn ∉ ((λ item : string * CommandDict, (item.1, cd_callback item.2))
                    <$> mine).*1) as Hcn.
    { rewrite <- list_fmap_compose. intros (item & -> & Hin)%list_elem_of_fmap.
      apply (Hfresh item.1).
      - apply list_elem_of_fmap_2.
        by apply list_elem_of_filter in Hin as [_ Hin].
      - simpl. left. }
    destruct mine as [|item mine'] eqn:Hmine.
    + done.
    + change (default [] (Some ?x)) with x.
      rewrite dict_set_fresh by done.
      rewrite <- app_comm_cons. f_equal.
      by rewrite app_comm_cons, fmap_app.
  - rewrite dict_get_set_ne by done. rewrite IH.
    rewrite filter_cons_False by (simpl; rewrite Happ; simpl; congruence).
    by rewrite filter_nil, app_nil_r.
Qed.

Lemma calls_all a (command_dict : list (string * Callback)) :
  calls (command_dict ≫= λ '(command_name, command_function),
           [debug_running a command_name; call command_function])
  = command_dict.*2.
Proof.
  induction command_dict as [|[n f] d IH]; [done|].
  cbn [mbind list_bind]. rewrite fmap_cons.
  change (calls ([debug_running a n; call f]
                 ++ (d ≫= λ '(command_name, command_function),
                       [debug_running a command_name; call command_function]))
          = f :: d.*2).
  by rewrite calls_app, IH.
Qed.

(** X12.  A startup setting runs the commands that its app instance has
    registered, in the order of registration: all of them when the setting
    gives no name, the one with the name otherwise, and no command of
    another app instance.  The names of [engine.commands] are distinct, as
    the keys of a dictionary are. *)
Theorem startup_calls cmds run_at_startup :
  NoDup cmds.*1 →
  calls (_run_app_instance_commands instance_name cmds run_at_startup)
  = run_at_startup ≫= λ app_setting_dict,
      (λ item, cd_callback item.2)
        <$> filter (startup_requests instance_name app_setting_dict) cmds.
Proof.
  intros Hnodup. unfold _run_app_instance_commands.
  induction run_at_startup as [|setting settings IH]; [done|].
  cbn [mbind list_bind].
  change (calls (run_startup_setting (app_instance_commands_of instance_name cmds)
                   setting
                 ++ (settings ≫= run_startup_setting
                                   (app_instance_commands_of instance_name cmds)))
          = ((λ item, cd_callback item.2)
               <$> filter (startup_requests instance_name setting) cmds)
            ++ (settings ≫= λ app_setting_dict,
                  (λ item, cd_callback item.2)
                    <$> filter (startup_requests instance_name app_setting_dict)
                          cmds)).
  rewrite calls_app, IH. f_equal. clear IH.
  unfold run_startup_setting.
  rewrite app_instance_commands_get by done.
  set (a := startup_app_instance setting).
  set (n := startup_name setting).
  assert (filter (startup_requests instance_name setting) cmds
          = filter (λ item, n = "" ∨ item.1 = n) (commands_of_instance instance_name a cmds))
    as ->.
  { unfold commands_of_instance. rewrite list_filter_filter.
    apply list_filter_iff. intros item. unfold startup_requests. tauto. }
  assert (NoDup (commands_of_instance instance_name a cmds).*1) as Hmine.
  { eapply sublist_NoDup; [exact Hnodup|].
    apply fmap_sublist, sublist_filter. }
  destruct (commands_of_instance instance_name a cmds) as [|item mine] eqn:Hcmds; [done|].
  rewrite <- Hcmds in *. clear Hcmds.
  set (mine' := commands_of_instance instance_name a cmds) in *.
  destruct (decide (n = "")) as [Hn|Hn].
  - rewrite calls_all, <- list_fmap_compose.
    by rewrite filter_all by (intros; by left).
  - rewrite (list_filter_iff _ (λ item, item.1 = n)) by (intros; tauto).
    rewrite dict_get_filter by done.
    rewrite dict_get_fmap_value. by destruct (dict_get n mine').
Qed.

End StartupFacts.

Lemma startup_calls_witness :
  calls (_run_app_instance_commands
           (λ app, if decide (app_object app = 3) then "tk-multi-workfiles2"
                   else "tk-multi-publish2")
           (commands workfiles_engine ++ commands sample_engine)
           [{| startup_app_instance := "tk-multi-workfiles2"; startup_name := "" |};
            {| startup_app_instance := "tk-multi-publish2";
               startup_name := "Publish..." |}])
  = [engine_callback 3; engine_callback 4; engine_callback 1].
Proof.
  refine (startup_calls
            (λ app, if decide (app_object app = 3) then "tk-multi-workfiles2"
                    else "tk-multi-publish2")
            (commands workfiles_engine ++ commands sample_engine)
            [{| startup_app_instance := "tk-multi-workfiles2"; startup_name := "" |};
             {| startup_app_instance := "tk-multi-publish2";
                startup_name := "Publish..." |}] _).
  by apply (bool_decide_unpack _).
Defined.

(** ** The fields of a file name *)

Example texture_fields_tile :
  texture_fields "Hero_BaseColor_sRGB.1001.exr"
  = Some {| texture_map := "BaseColor"; colorspace := "sRGB";
            extension := "exr"; UDIM := Some 1001 |}.
Proof. reflexivity. Qed.

Example texture_fields_plain :
  texture_fields "My_Hero_Height_Raw.png"
  = Some {| texture_map := "Height"; colorspace := "Raw";
            extension := "png"; UDIM := None |}.
Proof. reflexivity. Qed.

Example texture_fields_five_digits :
  texture_fields "Hero_BaseColor_sRGB.10011.exr" = None.
Proof. reflexivity. Qed.

Section ReGFacts.
Import ReG.

(** A match through [star] splits the input in a run of the class and a
    rest on which the continuation succeeds. *)
Lemma gstar_sound {R} cls s g (k : cont R) r :
  star cls s g k = Some r →
  ∃ run rest, s = run ++ rest ∧ forallb cls run = true ∧ k rest g = Some r.
Proof.
  induction s as [|c s IH]; simpl.
  - intros Hk. by exists [], [].
  - destruct (cls c) eqn:Hc.
    + destruct (star cls s g k) as [r'|] eqn:Hstar.
      * intros [= ->]. destruct (IH eq_refl) as (run & rest & -> & Hrun & Hk).
        exists (c :: run), rest. simpl. by rewrite Hc.
      * intros Hk. by exists [], (c :: s).
    + intros Hk. by exists [], (c :: s).
Qed.

(** Where the continuation succeeds after some run, [star] succeeds. *)
Lemma gstar_complete {R} cls run rest g (k : cont R) :
  forallb cls run = true → is_Some (k rest g) →
  is_Some (star cls (run ++ rest) g k).
Proof.
  intros Hrun Hk. induction run as [|c run IH]; simpl.
  - destruct rest as [|c rest]; simpl; [done|].
    destruct (cls c); [|done]. by destruct (star cls rest g k).
  - simpl in Hrun. apply andb_true_iff in Hrun as [-> Hrun].
    by destruct (IH Hrun) as [r ->].
Qed.

Lemma gplus_sound {R} cls s g (k : cont R) r :
  rmatch (Plus cls) s g k = Some r →
  ∃ run rest,
    s = run ++ rest ∧ run ≠ [] ∧ forallb cls run = true ∧ k rest g = Some r.
Proof.
  destruct s as [|c s]; simpl; [done|].
  destruct (cls c) eqn:Hc; [|done].
  intros (run & rest & -> & Hrun & Hk)%gstar_sound.
  exists (c :: run), rest. simpl. by rewrite Hc.
Qed.

Lemma gplus_complete {R} cls run rest g (k : cont R) :
  run ≠ [] → forallb cls run = true → is_Some (k rest g) →
  is_Some (rmatch (Plus cls) (run ++ rest) g k).
Proof.
  destruct run as [|c run]; [done|]. intros _ Hrun Hk. simpl in *.
  apply andb_true_iff in Hrun as [-> Hrun]. by apply gstar_complete.
Qed.

Lemma gchr_sound {R} x s g (k : cont R) r :
  rmatch (Chr (is_char x)) s g k = Some r →
  ∃ s', s = x :: s' ∧ k s' g = Some r.
Proof.
  destruct s as [|c s]; simpl; [done|]. unfold is_char.
  destruct (bool_decide_reflect (c = x)) as [->|]; [|done].
  intros Hk. by exists s.
Qed.

Lemma gchr_here {R} x s g (k : cont R) :
  rmatch (Chr (is_char x)) (x :: s) g k = k s g.
Proof. simpl. unfold is_char. by rewrite bool_decide_eq_true_2. Qed.

Lemma rmatch_Cat {R} r1 r2 s g (k : cont R) :
  rmatch (Cat r1 r2) s g k = rmatch r1 s g (λ s1 g1, rmatch r2 s1 g1 k).
Proof. done. Qed.

Lemma rmatch_Named {R} name r1 s g (k : cont R) :
  rmatch (Named name r1) s g k
  = rmatch r1 s g
      (λ s1 g1, k s1 (dict_set name (take (length s - length s1) s) g1)).
Proof. done. Qed.

Lemma rmatch_Opt {R} r1 s g (k : cont R) :
  rmatch (Opt r1) s g k
  = match rmatch r1 s g k with Some res => Some res | None => k s g end.
Proof. done. Qed.

Lemma geos_sound {R} s g (k : cont R) r :
  rmatch Eos s g k = Some r → (s = [] ∨ s = [newline]) ∧ k s g = Some r.
Proof.
  destruct s as [|c [|c' s]]; simpl; [auto| |done].
  destruct (decide (c = newline)) as [->|]; [auto|done].
Qed.

Lemma geos_here {R} s g (k : cont R) :
  s = [] ∨ s = [newline] → rmatch Eos s g k = k s g.
Proof. by intros [->| ->]. Qed.

Lemma gdigit_sound {R} s g (k : cont R) r :
  rmatch (Chr Re.is_digit) s g k = Some r →
  ∃ d s', s = d :: s' ∧ Re.is_digit d = true ∧ k s' g = Some r.
Proof.
  destruct s as [|c s]; simpl; [done|].
  destruct (Re.is_digit c) eqn:Hc; [|done]. intros Hk. by exists c, s.
Qed.

End ReGFacts.

Section FieldsFacts.
Import ReG.

(** The extension and the end of the name. *)
Lemma extension_part_sound s g m :
  rmatch extension_part s g (λ _ g', Some g') = Some m →
  ∃ ext nl,
    s = dot :: ext ++ nl ∧ ext ≠ [] ∧ forallb Re.is_word ext = true
    ∧ (nl = [] ∨ nl = [newline])
    ∧ m = dict_set "extension" ext g.
Proof.
  unfold extension_part. rewrite rmatch_Cat.
  intros (s' & -> & Hext)%gchr_sound.
  rewrite rmatch_Named, rmatch_Cat in Hext.
  apply gplus_sound in Hext as (ext & nl & -> & Hext & Hword & Hend).
  apply geos_sound in Hend as [Hnl Hend].
  rewrite take_length_sub in Hend. injection Hend as <-.
  exists ext, nl. auto 10.
Qed.

Lemma extension_part_complete ext nl g :
  ext ≠ [] → forallb Re.is_word ext = true → nl = [] ∨ nl = [newline] →
  is_Some (rmatch extension_part (dot :: ext ++ nl) g (λ _ g', Some g')).
Proof.
  intros Hext Hword Hnl. unfold extension_part.
  rewrite rmatch_Cat, gchr_here, rmatch_Named, rmatch_Cat.
  apply gplus_complete; [done..|]. by rewrite geos_here.
Qed.

Lemma four_digits_sound {R} s g (k : cont R) r :
  rmatch four_digits s g k = Some r →
  ∃ ds rest,
    s = ds ++ rest ∧ length ds = 4 ∧ forallb Re.is_digit ds = true
    ∧ k rest g = Some r.
Proof.
  unfold four_digits. rewrite rmatch_Cat. intros H.
  apply gdigit_sound in H as (d1 & s1 & -> & H1 & H). rewrite rmatch_Cat in H.
  apply gdigit_sound in H as (d2 & s2 & -> & H2 & H). rewrite rmatch_Cat in H.
  apply gdigit_sound in H as (d3 & s3 & -> & H3 & H).
  apply gdigit_sound in H as (d4 & s4 & -> & H4 & H).
  exists [d1; d2; d3; d4], s4. simpl. by rewrite H1, H2, H3, H4.
Qed.

Lemma four_digits_here {R} ds rest g (k : cont R) :
  length ds = 4 → forallb Re.is_digit ds = true →
  rmatch four_digits (ds ++ rest) g k = k rest g.
Proof.
  destruct ds as [|d1 [|d2 [|d3 [|d4 [|d5 ds]]]]]; try done. intros _. simpl.
  intros (-> & (-> & (-> & (-> & _)%andb_true_iff)%andb_true_iff)%andb_true_iff)
    %andb_true_iff.
  done.
Qed.

(** The tile, when there is one, and the extension. *)
Lemma tail_sound s g m :
  rmatch (Cat udim_part extension_part) s g (λ _ g', Some g') = Some m →
  ∃ tile ext nl,
    s = tile_text tile ++ dot :: ext ++ nl
    ∧ (∀ ds, tile = Some ds → length ds = 4 ∧ forallb Re.is_digit ds = true)
    ∧ ext ≠ [] ∧ forallb Re.is_word ext = true
    ∧ (nl = [] ∨ nl = [newline])
    ∧ m = dict_set "extension" ext
            match tile with Some ds => dict_set "udim" ds g | None => g end.
Proof.
  rewrite rmatch_Cat. unfold udim_part. rewrite rmatch_Opt.
  destruct (rmatch (Cat (Chr (is_char dot)) (Named "udim" four_digits)) s g _)
    as [m'|] eqn:Hopt.
  - intros [= ->]. rewrite rmatch_Cat in Hopt.
    apply gchr_sound in Hopt as (s1 & -> & Hopt).
    rewrite rmatch_Named in Hopt.
    apply four_digits_sound in Hopt as (ds & rest & -> & Hlen & Hdigits & Hext).
    rewrite take_length_sub in Hext.
    apply extension_part_sound in Hext as (ext & nl & -> & ? & ? & ? & ->).
    exists (Some ds), ext, nl. split; [done|]. split; [|done].
    by intros ? [= <-].
  - intros (ext & nl & -> & ? & ? & ? & ->)%extension_part_sound.
    exists None, ext, nl. by split.
Qed.

Lemma tail_complete tile ext nl g :
  (∀ ds, tile = Some ds → length ds = 4 ∧ forallb Re.is_digit ds = true) →
  ext ≠ [] → forallb Re.is_word ext = true → nl = [] ∨ nl = [newline] →
  is_Some (rmatch (Cat udim_part extension_part)
             (tile_text tile ++ dot :: ext ++ nl) g (λ _ g', Some g')).
Proof.
  intros Htile Hext Hword Hnl. rewrite rmatch_Cat. unfold udim_part.
  rewrite rmatch_Opt. destruct tile as [ds|]; simpl tile_text.
  - destruct (Htile ds eq_refl) as [Hlen Hdigits].
    rewrite rmatch_Cat. rewrite <- app_comm_cons, gchr_here, rmatch_Named.
    rewrite four_digits_here by done.
    by destruct (extension_part_complete ext nl
                   (dict_set "udim"
                      (take (length (ds ++ dot :: ext ++ nl)
                             - length (dot :: ext ++ nl))
                         (ds ++ dot :: ext ++ nl)) g) Hext Hword Hnl) as [m ->].
  - destruct (rmatch (Cat (Chr (is_char dot)) (Named "udim" four_digits)) _ g _);
      [done|]. by apply extension_part_complete.
Qed.

(** What a match says of the name, and the groups it leaves. *)
Lemma match_fields_sound s m :
  match_here TEXTURE_FILENAME_REGEX s = Some m →
  ∃ set_name map_name space tile ext nl,
    fields_form s set_name map_name space tile ext nl
    ∧ m = fields_groups map_name space tile ext.
Proof.
  unfold match_here, TEXTURE_FILENAME_REGEX. rewrite rmatch_Cat.
  intros (A & r1 & -> & HA & HAcls & H)%gplus_sound.
  rewrite rmatch_Cat in H. apply gchr_sound in H as (r2 & -> & H).
  rewrite rmatch_Cat, rmatch_Named in H.
  apply gplus_sound in H as (M & r3 & -> & HM & HMcls & H).
  rewrite take_length_sub, rmatch_Cat in H.
  apply gchr_sound in H as (r4 & -> & H).
  rewrite rmatch_Cat, rmatch_Named in H.
  apply gplus_sound in H as (C & r5 & -> & HC & HCcls & H).
  rewrite take_length_sub in H.
  apply tail_sound in H as (tile & ext & nl & -> & Htile & Hext & Hword & Hnl & ->).
  exists A, M, C, tile, ext, nl. split.
  - done.
  - by destruct tile.
Qed.

Lemma match_fields_complete s set_name map_name space tile ext nl :
  fields_form s set_name map_name space tile ext nl →
  is_Some (match_here TEXTURE_FILENAME_REGEX s).
Proof.
  intros (-> & HA & HAcls & HM & HMcls & HC & HCcls & Htile & Hext & Hword & Hnl).
  unfold match_here, TEXTURE_FILENAME_REGEX. rewrite rmatch_Cat.
  apply gplus_complete; [done..|].
  rewrite rmatch_Cat, gchr_here, rmatch_Cat, rmatch_Named.
  apply gplus_complete; [done..|].
  rewrite rmatch_Cat, gchr_here, rmatch_Cat, rmatch_Named.
  apply gplus_complete; [done..|].
  by apply (tail_complete tile ext nl).
Qed.

End FieldsFacts.

(** ** One name, one reading *)

Lemma forallb_not_elem_of (cls : ascii → bool) (l : list ascii) x :
  cls x = false → forallb cls l = true → x ∉ l.
Proof.
  intros Hx Hl Hin. rewrite forallb_forall in Hl.
  apply list_elem_of_In in Hin. specialize (Hl x Hin). congruence.
Qed.

Lemma first_sep_unique {A} (x : A) h t h' t' :
  x ∉ h → x ∉ h' → h ++ x :: t = h' ++ x :: t' → h = h' ∧ t = t'.
Proof.
  revert h'. induction h as [|c h IH]; intros [|c' h'] Hh Hh' Heq; simpl in Heq.
  - by injection Heq.
  - injection Heq as <- _. apply not_elem_of_cons in Hh'. by destruct Hh'.
  - injection Heq as -> _. apply not_elem_of_cons in Hh. by destruct Hh.
  - injection Heq as <- Heq.
    apply not_elem_of_cons in Hh as [_ Hh]. apply not_elem_of_cons in Hh' as [_ Hh'].
    destruct (IH h' Hh Hh' Heq) as [-> ->]. done.
Qed.

Lemma last_sep_unique {A} (x : A) h t h' t' :
  x ∉ t → x ∉ t' → h ++ x :: t = h' ++ x :: t' → h = h' ∧ t = t'.
Proof.
  intros Ht Ht' Heq. apply (f_equal reverse) in Heq.
  rewrite !reverse_app, !reverse_cons, <- !app_assoc in Heq. simpl in Heq.
  apply first_sep_unique in Heq as [Hrt Hrh].
  - split; by apply (inj reverse).
  - by rewrite elem_of_reverse.
  - by rewrite elem_of_reverse.
Qed.

Lemma ext_unique ext nl ext' nl' :
  forallb Re.is_word ext = true → forallb Re.is_word ext' = true →
  nl = [] ∨ nl = [newline] → nl' = [] ∨ nl' = [newline] →
  ext ++ nl = ext' ++ nl' → ext = ext' ∧ nl = nl'.
Proof.
  intros Hword Hword' Hnl Hnl' Heq.
  assert (∀ w e, forallb Re.is_word w = true → e = [] ∨ e = [newline] →
                 Re.skip_class Re.is_word (w ++ e) = e) as Hskip.
  { intros w e Hw He. apply skip_class_app; [done|].
    intros c t ->. by destruct He as [?|[= -> ->]]. }
  pose proof (Hskip ext nl Hword Hnl) as H1.
  pose proof (Hskip ext' nl' Hword' Hnl') as H2.
  rewrite Heq, H2 in H1. subst nl'. split; [|done]. by apply app_inv_tail in Heq.
Qed.

Lemma name_parts_unique A M C mid W e A' M' C' mid' W' e' :
  forallb not_dot A = true → forallb not_dot A' = true →
  forallb not_underscore_dot M = true → forallb not_underscore_dot M' = true →
  forallb not_underscore_dot C = true → forallb not_underscore_dot C' = true →
  middle_text mid → middle_text mid' →
  forallb Re.is_word W = true → forallb Re.is_word W' = true →
  e = [] ∨ e = [newline] → e' = [] ∨ e' = [newline] →
  A ++ underscore :: M ++ underscore :: C ++ mid ++ dot :: W ++ e
  = A' ++ underscore :: M' ++ underscore :: C' ++ mid' ++ dot :: W' ++ e' →
  A = A' ∧ M = M' ∧ C = C' ∧ mid = mid' ∧ W = W' ∧ e = e'.
Proof.
  intros HA HA' HM HM' HC HC' Hmid Hmid' HW HW' He He' Heq.
  assert (∀ A M C, forallb not_dot A = true →
            forallb not_underscore_dot M = true →
            forallb not_underscore_dot C = true →
            dot ∉ A ++ underscore :: M ++ underscore :: C) as Hhead.
  { intros A0 M0 C0 H1 H2 H3.
    rewrite elem_of_app, elem_of_cons, elem_of_app, elem_of_cons.
    pose proof (forallb_not_elem_of not_dot A0 dot eq_refl H1).
    pose proof (forallb_not_elem_of not_underscore_dot M0 dot eq_refl H2).
    pose proof (forallb_not_elem_of not_underscore_dot C0 dot eq_refl H3).
    intros [?|[?|[?|[?|?]]]]; done. }
  assert (∀ mid W e, middle_text mid →
            ∃ X, mid ++ dot :: W ++ e = dot :: X
                 ∧ (mid = [] → X = W ++ e)
                 ∧ (∀ body, mid = dot :: body → X = body ++ dot :: W ++ e))
    as Htail.
  { intros mid0 W0 e0 [->|(body & -> & _)].
    - exists (W0 ++ e0). by split.
    - exists (body ++ dot :: W0 ++ e0). split; [done|]. split; [done|].
      by intros ? [= <-]. }
  destruct (Htail mid W e Hmid) as (X & HX & HXnil & HXbody).
  destruct (Htail mid' W' e' Hmid') as (X' & HX' & HXnil' & HXbody').
  assert ((A ++ underscore :: M ++ underscore :: C) ++ dot :: X
          = (A' ++ underscore :: M' ++ underscore :: C') ++ dot :: X') as Hsplit.
  { rewrite <- HX, <- HX'. rewrite <- !app_assoc. simpl.
    rewrite <- !app_assoc. simpl. exact Heq. }
  apply first_sep_unique in Hsplit as [Hh Ht]; [|by apply Hhead..].
  change (A ++ underscore :: M ++ underscore :: C)
    with (A ++ [underscore] ++ M ++ underscore :: C) in Hh.
  change (A' ++ underscore :: M' ++ underscore :: C')
    with (A' ++ [underscore] ++ M' ++ underscore :: C') in Hh.
  rewrite !app_assoc in Hh.
  apply last_sep_unique in Hh as [Hh ->];
    [|by apply (forallb_not_elem_of not_underscore_dot)..].
  rewrite <- !app_assoc in Hh. simpl in Hh.
  apply last_sep_unique in Hh as [-> ->];
    [|by apply (forallb_not_elem_of not_underscore_dot)..].
  assert (∀ w e0, forallb Re.is_word w = true → e0 = [] ∨ e0 = [newline] →
                  dot ∉ w ++ e0) as Hnodot.
  { intros w e0 Hw He0. rewrite elem_of_app.
    pose proof (forallb_not_elem_of Re.is_word w dot eq_refl Hw).
    intros [?|Hin]; [done|].
    destruct He0 as [->| ->]; [by apply elem_of_nil in Hin|].
    by apply list_elem_of_singleton in Hin. }
  subst X'.
  destruct Hmid as [->|(body & -> & Hbody)];
    destruct Hmid' as [->|(body' & -> & Hbody')].
  - rewrite (HXnil eq_refl) in HXnil'. specialize (HXnil' eq_refl).
    by destruct (ext_unique W e W' e' HW HW' He He' HXnil') as [-> ->].
  - rewrite (HXnil eq_refl) in HXbody'. specialize (HXbody' body' eq_refl).
    destruct (Hnodot W e HW He). rewrite HXbody'.
    rewrite elem_of_app, elem_of_cons. auto.
  - rewrite (HXbody body eq_refl) in HXnil'. specialize (HXnil' eq_refl).
    destruct (Hnodot W' e' HW' He'). rewrite <- HXnil'.
    rewrite elem_of_app, elem_of_cons. auto.
  - rewrite (HXbody body eq_refl) in HXbody'. specialize (HXbody' body' eq_refl).
    apply first_sep_unique in HXbody' as [-> Hext]; [|done..].
    by destruct (ext_unique W e W' e' HW HW' He He' Hext) as [-> ->].
Qed.

Lemma middle_text_tile tile :
  (∀ ds, tile = Some ds → length ds = 4 ∧ forallb Re.is_digit ds = true) →
  middle_text (tile_text tile).
Proof.
  intros Htile. destruct tile as [ds|]; [|by left]. right. exists ds.
  split; [done|]. destruct (Htile ds eq_refl) as [_ Hdigits].
  by apply (forallb_not_elem_of Re.is_digit).
Qed.

Lemma fields_form_unique s A M C tile W e A' M' C' tile' W' e' :
  fields_form s A M C tile W e → fields_form s A' M' C' tile' W' e' →
  A = A' ∧ M = M' ∧ C = C' ∧ tile = tile' ∧ W = W' ∧ e = e'.
Proof.
  intros (-> & _ & HA & _ & HM & _ & HC & Htile & _ & HW & He)
         (Heq & _ & HA' & _ & HM' & _ & HC' & Htile' & _ & HW' & He').
  destruct (name_parts_unique A M C (tile_text tile) W e
              A' M' C' (tile_text tile') W' e')
    as (-> & -> & -> & Hmid & -> & ->); try done.
  1, 2: by apply middle_text_tile.
  repeat (split; [done|]). split; [|done].
  destruct tile, tile'; simpl in Hmid; congruence.
Qed.

Lemma texture_fields_groups M C tile W :
  (∀ ds, tile = Some ds → length ds = 4 ∧ forallb Re.is_digit ds = true) →
  {| texture_map := str (default [] (ReG.group "texture_map" (fields_groups M C tile W)));
     colorspace := str (default [] (ReG.group "colorspace" (fields_groups M C tile W)));
     extension := str (default [] (ReG.group "extension" (fields_groups M C tile W)));
     UDIM := match ReG.group "udim" (fields_groups M C tile W) with
             | Some (d :: ds) => Some (int_of_digits (d :: ds))
             | _ => None
             end |}
  = fields_of M C tile W.
Proof.
  intros Htile. destruct tile as [ds|]; [|done].
  destruct (Htile ds eq_refl) as [Hlen _]. by destruct ds.
Qed.

Lemma texture_fields_sound filename f :
  texture_fields filename = Some f →
  ∃ set_name map_name space tile ext nl,
    fields_form (chars filename) set_name map_name space tile ext nl
    ∧ f = fields_of map_name space tile ext.
Proof.
  unfold texture_fields.
  destruct (ReG.match_here TEXTURE_FILENAME_REGEX (chars filename)) as [m|] eqn:Hm;
    [|done].
  apply match_fields_sound in Hm as (A & M & C & tile & W & e & Hform & ->).
  intros [= <-]. exists A, M, C, tile, W, e. split; [done|].
  apply texture_fields_groups. by destruct Hform as (_&_&_&_&_&_&_&Htile&_).
Qed.

Lemma texture_fields_complete filename set_name map_name space tile ext nl :
  fields_form (chars filename) set_name map_name space tile ext nl →
  texture_fields filename = Some (fields_of map_name space tile ext).
Proof.
  intros Hform.
  destruct (match_fields_complete _ _ _ _ _ _ _ Hform) as [m Hm].
  destruct (texture_fields filename) as [f|] eqn:Hf.
  - apply texture_fields_sound in Hf as (A & M & C & t & W & e & Hform' & ->).
    by destruct (fields_form_unique _ _ _ _ _ _ _ _ _ _ _ _ _ Hform Hform')
      as (_ & -> & -> & -> & -> & _).
  - unfold texture_fields in Hf. by rewrite Hm in Hf.
Qed.

(** X13.  [publish] can read the fields of a file name exactly when the
    name follows the export convention: a set name without dots, an
    underscore, the map, an underscore, the colour space, both without
    underscores and dots; then a dot and four digits, or nothing; then a
    dot, an extension of word characters and the end of the name.  The
    fields are these parts, and [UDIM] is the number of the four digits.
    Any other name makes [match.group] fail. *)
Theorem texture_fields_spec filename f :
  texture_fields filename = Some f
  ↔ ∃ set_name map_name space tile ext nl,
      fields_form (chars filename) set_name map_name space tile ext nl
      ∧ f = {| texture_map := str map_name;
               colorspace := str space;
               extension := str ext;
               UDIM := int_of_digits <$> tile |}.
Proof.
  split; [apply texture_fields_sound|].
  intros (A & M & C & tile & W & e & Hform & ->).
  by eapply texture_fields_complete.
Qed.

(** The group key of a name of the export convention. *)
Lemma udim_sub_fields_form filename A M C tile W e :
  fields_form (chars filename) A M C tile W e →
  udim_sub filename
  = str (A ++ underscore :: M ++ underscore :: C
         ++ match tile with Some _ => chars ".<UDIM>" | None => [] end
         ++ dot :: W ++ e).
Proof.
  intros (Hs & _ & HA & _ & HM & _ & HC & Htile & HW & HWcls & He).
  unfold udim_sub. f_equal. destruct tile as [ds|]; simpl tile_text in Hs.
  - destruct (Htile ds eq_refl) as [Hlen Hdigits].
    rewrite (sub_tile _ (A ++ underscore :: M ++ underscore :: C) ds W e).
    + rewrite <- !app_assoc. simpl. by rewrite <- !app_assoc.
    + split; [|by destruct ds].
      rewrite Hs, <- !app_assoc. simpl. by rewrite <- !app_assoc.
  - rewrite sub_no_tile; [by rewrite Hs|].
    intros pre ds ext nl Hform. apply tile_form_dots in Hform.
    rewrite Hs in Hform.
    change (A ++ underscore :: M ++ underscore :: C ++ [] ++ dot :: W ++ e)
      with (A ++ [underscore] ++ M ++ [underscore] ++ C ++ [dot] ++ W ++ e)
      in Hform.
    rewrite !count_dots_app in Hform.
    rewrite (count_dots_class not_dot A) in Hform by done.
    rewrite (count_dots_class not_underscore_dot M) in Hform by done.
    rewrite (count_dots_class not_underscore_dot C) in Hform by done.
    rewrite (count_dots_class Re.is_word W) in Hform by done.
    assert (TileSpec.count_dots e = 0) as He0 by (by destruct He as [->| ->]).
    rewrite He0 in Hform.
    change (TileSpec.count_dots [underscore]) with 0 in Hform.
    change (TileSpec.count_dots [dot]) with 1 in Hform. lia.
Qed.

(** X14.  The files of one group agree on the fields that [publish] reads
    from their names, the tile apart: whenever two files of a group both
    have readable names, they have the same map, the same colour space
    and the same extension, and either both have a tile or neither has.
    So the fields left by the last file of a group, from which the publish
    path and name are made, are those of every file of the group. *)
Theorem group_shares_fields basename paths g p q f f' :
  g ∈ _group_texture_sequences basename paths → p ∈ g → q ∈ g →
  texture_fields (basename p) = Some f →
  texture_fields (basename q) = Some f' →
  texture_map f = texture_map f'
  ∧ colorspace f = colorspace f'
  ∧ extension f = extension f'
  ∧ (UDIM f = None ↔ UDIM f' = None).
Proof.
  intros (r & _ & ->)%elem_of_groups [Hp _]%list_elem_of_filter
         [Hq _]%list_elem_of_filter Hf Hf'.
  rewrite <- Hq in Hp. unfold udim_key in Hp. clear Hq.
  apply texture_fields_sound in Hf as (A & M & C & tile & W & e & Hform & ->).
  apply texture_fields_sound in Hf' as (A' & M' & C' & tile' & W' & e' & Hform' & ->).
  rewrite (udim_sub_fields_form _ _ _ _ _ _ _ Hform) in Hp.
  rewrite (udim_sub_fields_form _ _ _ _ _ _ _ Hform') in Hp.
  apply str_inj in Hp.
  destruct Hform as (_ & _ & HA & _ & HM & _ & HC & _ & _ & HW & He).
  destruct Hform' as (_ & _ & HA' & _ & HM' & _ & HC' & _ & _ & HW' & He').
  assert (∀ t : option (list ascii),
            middle_text match t with Some _ => chars ".<UDIM>" | None => [] end)
    as Hmid.
  { intros [ds|]; [|by left]. right. exists (chars "<UDIM>"). split; [done|].
    intros Hin%list_elem_of_In. vm_compute in Hin. intuition discriminate. }
  destruct (name_parts_unique _ _ _ _ _ _ _ _ _ _ _ _
              HA HA' HM HM' HC HC' (Hmid tile) (Hmid tile') HW HW' He He' Hp)
    as (_ & -> & -> & Htiles & -> & _).
  unfold fields_of. cbn [texture_map colorspace extension UDIM].
  repeat (split; [done|]).
  destruct tile, tile'; simpl; try done; discriminate Htiles.
Qed.

Lemma group_shares_fields_witness :
  texture_map (fields_of (chars "Base") (chars "sRGB") (Some (chars "1001"))
                 (chars "exr"))
  = texture_map (fields_of (chars "Base") (chars "sRGB") (Some (chars "1002"))
                   (chars "exr"))
  ∧ colorspace (fields_of (chars "Base") (chars "sRGB") (Some (chars "1001"))
                  (chars "exr"))
    = colorspace (fields_of (chars "Base") (chars "sRGB") (Some (chars "1002"))
                    (chars "exr"))
  ∧ extension (fields_of (chars "Base") (chars "sRGB") (Some (chars "1001"))
                 (chars "exr"))
    = extension (fields_of (chars "Base") (chars "sRGB") (Some (chars "1002"))
                   (chars "exr"))
  ∧ (UDIM (fields_of (chars "Base") (chars "sRGB") (Some (chars "1001"))
             (chars "exr")) = None
     ↔ UDIM (fields_of (chars "Base") (chars "sRGB") (Some (chars "1002"))
               (chars "exr")) = None).
Proof.
  assert (texture_fields (posixpath_basename "out/Set_Base_sRGB.1001.exr")
          = Some (fields_of (chars "Base") (chars "sRGB") (Some (chars "1001"))
                    (chars "exr"))) as Hf by reflexivity.
  assert (texture_fields (posixpath_basename "out/Set_Base_sRGB.1002.exr")
          = Some (fields_of (chars "Base") (chars "sRGB") (Some (chars "1002"))
                    (chars "exr"))) as Hf' by reflexivity.
  assert (_group_texture_sequences posixpath_basename
            ["out/Set_Base_sRGB.1001.exr"; "out/Set_Height_Raw.1001.exr";
             "out/Set_Base_sRGB.1002.exr"]
          = [["out/Set_Base_sRGB.1001.exr"; "out/Set_Base_sRGB.1002.exr"];
             ["out/Set_Height_Raw.1001.exr"]]) as Hgroups by reflexivity.
  assert (["out/Set_Base_sRGB.1001.exr"; "out/Set_Base_sRGB.1002.exr"]
          ∈ _group_texture_sequences posixpath_basename
              ["out/Set_Base_sRGB.1001.exr"; "out/Set_Height_Raw.1001.exr";
               "out/Set_Base_sRGB.1002.exr"]) as Hg.
  { rewrite Hgroups. apply list_elem_of_here. }
  exact (group_shares_fields posixpath_basename
           ["out/Set_Base_sRGB.1001.exr"; "out/Set_Height_Raw.1001.exr";
            "out/Set_Base_sRGB.1002.exr"]
           ["out/Set_Base_sRGB.1001.exr"; "out/Set_Base_sRGB.1002.exr"]
           "out/Set_Base_sRGB.1001.exr" "out/Set_Base_sRGB.1002.exr"
           (fields_of (chars "Base") (chars "sRGB") (Some (chars "1001"))
              (chars "exr"))
           (fields_of (chars "Base") (chars "sRGB") (Some (chars "1002"))
              (chars "exr"))
           Hg (list_elem_of_here _ _)
           (list_elem_of_further _ _ _ (list_elem_of_here _ _)) Hf Hf').
Defined.

(** ** Nothing is taken from the menu *)

Lemma keeps_refl acts : keeps acts acts.
Proof. intros path a Ha. by exists a. Qed.

Lemma keeps_trans acts1 acts2 acts3 :
  keeps acts1 acts2 → keeps acts2 acts3 → keeps acts1 acts3.
Proof.
  intros H12 H23 path a Ha.
  destruct (H12 path a Ha) as (a' & Ha' & Hshape).
  destruct (H23 path a' Ha') as (a'' & Ha'' & Hshape').
  exists a''. split; [done|]. congruence.
Qed.

Lemma keeps_app acts l : keeps acts (acts ++ l).
Proof.
  intros [|i [|j path]] a; simpl; [done| |].
  - intros Hi. exists a. by rewrite (lookup_app_l_Some _ _ _ _ Hi).
  - destruct (acts !! i) as [x|] eqn:Hi; [|done].
    rewrite (lookup_app_l_Some _ _ _ _ Hi). intros Ha. by exists a.
Qed.

Lemma keeps_insert acts i title sub sub' :
  acts !! i = Some (MenuAction title sub) → keeps sub sub' →
  keeps acts (<[i := MenuAction title sub']> acts).
Proof.
  intros Hi Hsub [|k path] a; [done|].
  destruct (decide (i = k)) as [<-|Hne].
  - destruct path as [|j path]; cbn [entry_at].
    + rewrite Hi, list_lookup_insert_eq by (by eapply lookup_lt_Some).
      intros [= <-]. by eexists.
    + rewrite Hi, list_lookup_insert_eq by (by eapply lookup_lt_Some).
      exact (Hsub (j :: path) a).
  - destruct path as [|j path]; cbn [entry_at];
      rewrite list_lookup_insert_ne by done; intros Ha; by exists a.
Qed.

Lemma add_path_keeps labels leaf acts : keeps acts (add_path labels leaf acts).
Proof.
  revert acts. induction labels as [|label labels IH]; intros acts; simpl.
  { apply keeps_app. }
  destruct (list_find (λ a, action_text a = label) acts) as [[i a]|] eqn:Hfind;
    [|apply keeps_app].
  destruct a as [| |title sub]; [apply keeps_app|apply keeps_app|].
  apply list_find_Some in Hfind as (Hi & _ & _).
  by apply (keeps_insert _ _ _ sub).
Qed.

Lemma replace_at_keeps h new root acts :
  menu_actions h root = Some acts → keeps acts new →
  keeps root (replace_at h new root).
Proof.
  revert root. induction h as [|j h IH]; intros root; simpl.
  { by intros [= ->]. }
  destruct (root !! j) as [x|] eqn:Hj; [|done].
  destruct x as [| |title sub]; [done|done|]. intros Hacts Hnew [|k path] a;
    [done|].
  destruct (decide (j = k)) as [<-|Hne].
  - destruct path as [|i path]; cbn [entry_at].
    + rewrite list_lookup_alter_eq, Hj. simpl. intros [= <-]. by eexists.
    + rewrite list_lookup_alter_eq, Hj. simpl.
      exact (IH sub Hacts Hnew (i :: path) a).
  - destruct path as [|i path]; cbn [entry_at];
      rewrite list_lookup_alter_ne by done; intros Ha; by exists a.
Qed.

Lemma addAction_keeps h a root : keeps root (addAction h a root).
Proof.
  destruct (menu_actions h root) as [acts|] eqn:Hacts.
  - rewrite (addAction_replace_at _ _ _ _ Hacts).
    eapply replace_at_keeps; [done|]. apply keeps_app.
  - rewrite addAction_invalid by done. apply keeps_refl.
Qed.

(** ** Methods that take nothing from the menu *)

Lemma preserves_ret {A} (a : A) : preserves (mret a).
Proof. intros root. apply keeps_refl. Qed.

Lemma preserves_bind {A B} (m : Build A) (f : A → Build B) :
  preserves m → (∀ a, preserves (f a)) → preserves (m ≫= f).
Proof.
  intros Hm Hf root. specialize (Hm root). unfold mbind, Build_bind.
  destruct (m root) as [root' [a|e]]; [|done].
  eapply keeps_trans; [exact Hm|apply Hf].
Qed.

Lemma preserves_for_each {A} (body : A → Build ()) l :
  (∀ x, preserves (body x)) → preserves (for_each body l).
Proof.
  intros Hbody. induction l as [|x l IH]; cbn [for_each].
  - apply preserves_ret.
  - apply preserves_bind; [apply Hbody|by intros _].
Qed.

Lemma preserves_for_fold {A B} (body : B → A → Build B) l b :
  (∀ b x, preserves (body b x)) → preserves (for_fold body l b).
Proof.
  intros Hbody. revert b. induction l as [|x l IH]; intros b; cbn [for_fold].
  - apply preserves_ret.
  - apply preserves_bind; [apply Hbody|apply IH].
Qed.

Lemma add_divider_preserves h : preserves (_add_divider h).
Proof. intros root. apply addAction_keeps. Qed.

Lemma add_sub_menu_preserves menu_name h : preserves (_add_sub_menu menu_name h).
Proof. intros root. apply addAction_keeps. Qed.

Lemma add_command_to_menu_preserves cmd h :
  preserves (add_command_to_menu cmd h).
Proof.
  intros root. destruct (menu_actions h root) as [acts|] eqn:Hacts.
  - rewrite (add_command_to_menu_at _ _ _ _ Hacts).
    eapply replace_at_keeps; [done|]. apply add_path_keeps.
  - rewrite add_command_to_menu_invalid by done. apply keeps_refl.
Qed.

(** X15.  Adding a command takes nothing from the menu: every action that
    was in the tree, at any depth, is still at the same place afterwards,
    a plain action or a separator unchanged and a sub-menu under the same
    title.  New actions only come behind the ones that were there.  This
    holds of the menu the call leaves, also when it raises. *)
Theorem add_command_to_menu_keeps cmd menu root :
  is_Some (menu_actions menu root) →
  keeps root (add_command_to_menu cmd menu root).1.
Proof.
  intros [acts Hacts]. rewrite (add_command_to_menu_at _ _ _ _ Hacts).
  intros path a Ha.
  destruct (replace_at_keeps menu (attach cmd acts) root acts Hacts
              (add_path_keeps _ _ acts) path a Ha) as (a' & Ha' & Hshape).
  by exists a'.
Qed.

Lemma add_command_to_menu_keeps_witness :
  ∃ a', entry_at [0; 1]
          (add_command_to_menu
             (new_AppCommand "Asset Hero/Reload" (sample_command 8 None None))
             []
             [MenuAction "Asset Hero"
                [Action "Jump to ShotGrid" jump_to_sg None true; Separator];
              Separator]).1
        = Some a'
        ∧ shape a' = shape Separator.
Proof.
  exact (add_command_to_menu_keeps
           (new_AppCommand "Asset Hero/Reload" (sample_command 8 None None))
           []
           [MenuAction "Asset Hero"
              [Action "Jump to ShotGrid" jump_to_sg None true; Separator];
            Separator]
           (mk_is_Some _ _ eq_refl) [0; 1] Separator eq_refl).
Defined.

(** ** The head of the finished menu *)

Lemma add_favourite_preserves fav menu_items :
  preserves (_add_favourite fav menu_items).
Proof.
  induction menu_items as [|cmd rest IH]; cbn [_add_favourite].
  { apply preserves_ret. }
  destruct (is_favourite fav cmd).
  - apply preserves_bind; [apply add_command_to_menu_preserves|intros _].
    apply preserves_bind; [apply IH|intros ?; apply preserves_ret].
  - apply preserves_bind; [apply IH|intros ?; apply preserves_ret].
Qed.

Lemma add_favourites_preserves favs menu_items :
  preserves (add_favourites favs menu_items).
Proof.
  apply preserves_for_fold. intros items fav. apply add_favourite_preserves.
Qed.

Lemma add_app_commands_preserves commands_by_app app_name :
  preserves (add_app_commands commands_by_app app_name).
Proof.
  unfold add_app_commands. cbv zeta. destruct (bool_decide _).
  - apply preserves_bind; [apply add_sub_menu_preserves|intros app_menu].
    apply preserves_for_each. intros cmd. apply add_command_to_menu_preserves.
  - destruct (default [] (dict_get app_name commands_by_app)) as [|cmd_obj rest];
      [apply preserves_ret|].
    destruct (favourite cmd_obj);
      [apply preserves_ret|apply add_command_to_menu_preserves].
Qed.

Lemma add_app_menus_preserves menu_items context_menu :
  preserves (_add_app_menus menu_items context_menu).
Proof.
  apply preserves_bind.
  - apply preserves_for_fold. intros commands_by_app cmd.
    unfold add_app_menu_step. destruct (decide _); [|apply preserves_ret].
    apply preserves_bind; [apply add_command_to_menu_preserves|].
    intros _. apply preserves_ret.
  - intros commands_by_app. apply preserves_for_each.
    intros app_name. apply add_app_commands_preserves.
Qed.

(** The menu keeps what the first step puts in it, however the call
    ends. *)
Lemma setup_menu_items_keeps engine :
  keeps [MenuAction (ctx_name (context engine))
           (context_actions (context engine)); Separator]
    (setup_menu_items engine).1.
Proof.
  unfold setup_menu_items.
  rewrite (bind_Returned _ _ _ _ _ (add_context_menu_tree (context engine))).
  rewrite (bind_Returned _ _ _ _ _ (add_divider_root _)). cbn [app].
  apply (preserves_bind
           (add_favourites (menu_favourites engine)
              (build_menu_items (commands engine)))
           (λ menu_items, _add_divider [];; _add_app_menus menu_items [0])).
  - apply add_favourites_preserves.
  - intros menu_items. apply preserves_bind; [apply add_divider_preserves|].
    intros _. apply add_app_menus_preserves.
Qed.

Lemma shape_plain a a' :
  (∀ title sub, a ≠ MenuAction title sub) → shape a' = shape a → a' = a.
Proof.
  intros Hplain. destruct a as [| |title sub]; [| |by destruct (Hplain title sub)];
    by destruct a'.
Qed.

Lemma context_actions_plain ctx a :
  a ∈ context_actions ctx → ∀ title sub, a ≠ MenuAction title sub.
Proof.
  unfold context_actions. intros Hin title sub ->.
  apply elem_of_cons in Hin as [?|Hin]; [done|].
  apply elem_of_app in Hin as [Hin|Hin].
  - destruct (filesystem_locations ctx); [by apply elem_of_nil in Hin|].
    by apply list_elem_of_singleton in Hin.
  - by apply list_elem_of_singleton in Hin.
Qed.

(** X16.  Whatever the commands and the favourites are, and however the
    call ends, the menu that [setup_menu_items] leaves starts with the
    context menu, which starts with its own actions, "Jump to ShotGrid"
    first, and the separator under them; the first separator of the menu
    comes right after the context menu.  No command name can push them
    from their places. *)
Theorem context_menu_first engine :
  ∃ acts rest,
    (setup_menu_items engine).1
    = MenuAction (ctx_name (context engine))
        (context_actions (context engine) ++ acts)
      :: Separator :: rest.
Proof.
  pose proof (setup_menu_items_keeps engine) as Hkeeps.
  destruct (Hkeeps [0] _ eq_refl) as (a0 & H0 & Hshape0).
  destruct (Hkeeps [1] _ eq_refl) as (a1 & H1 & Hshape1).
  cbn [entry_at] in H0, H1.
  destruct a0 as [| |title sub]; try done. injection Hshape0 as ->.
  apply (shape_plain Separator) in Hshape1; [|done]. subst a1.
  destruct (setup_menu_items engine).1 as [|x0 [|x1 rest]] eqn:Hmenu; try done.
  injection H0 as ->. injection H1 as ->.
  exists (drop (length (context_actions (context engine))) sub), rest.
  do 2 f_equal.
  rewrite <- (take_drop (length (context_actions (context engine))) sub) at 1.
  f_equal. apply list_eq. intros j.
  destruct (context_actions (context engine) !! j) as [a|] eqn:Hj.
  - destruct (Hkeeps [0; j] a) as (a' & Ha' & Hshape); [by cbn|].
    cbn in Ha'. rewrite lookup_take_lt by (by eapply lookup_lt_Some).
    rewrite Ha'. f_equal. apply shape_plain; [|done].
    eapply context_actions_plain. by eapply list_elem_of_lookup_2.
  - apply lookup_ge_None in Hj. apply lookup_ge_None.
    rewrite length_take. lia.
Qed.
